(** * coil: threads, synchronisation primitives, jobs and the mailbox bus

    A shallow embedding of the Python package (cogs.py, sync.py, threads.py,
    jobs.py, mailbox.py).  Python objects with identity (Group, Mailbox,
    Promise) live in explicit stores and are named by their index; a call
    that can raise returns an outcome carrying the exception; a call that
    can suspend the calling thread returns a blocked outcome; loops that
    Python does not bound take fuel. *)

From Stdlib Require Import ZArith Ascii String.
From stdpp Require Import gmap strings list.

Local Open Scope Z_scope.
Local Open Scope nat_scope.

(** ** Exceptions and Python truthiness *)

Inductive exn : Type :=
  | IndexError
  | ValueError
  | RuntimeError
  | KeyError
  | SystemExit
  | UserError (tag : nat)
  | FalsyError (tag : nat).

Global Instance exn_eq_dec : EqDecision exn.
Proof. solve_decision. Defined.

(** [bool(e)] of an exception object.  The built-in exceptions and a
    plain user-defined exception are true; [FalsyError] is an instance
    of a user-defined exception class whose [__bool__] returns [False]
    (or whose [__len__] returns 0). *)
Definition exn_truthy (e : exn) : bool :=
  match e with
  | FalsyError _ => false
  | _ => true
  end.

(** The few Python values whose truth value the code tests. *)
Inductive pyobj : Type :=
  | PyNone
  | PyBool (b : bool)
  | PyInt (n : Z)
  | PyBoundMethod.

(** [bool(x)]: a bound method object is always true. *)
Definition truthy (x : pyobj) : bool :=
  match x with
  | PyNone => false
  | PyBool b => b
  | PyInt n => negb (n =? 0)%Z
  | PyBoundMethod => true
  end.

(** Outcome of a call on a state [S] that may raise or suspend. *)
Inductive outcome (S : Type) : Type :=
  | Done (s : S)
  | Raised (e : exn) (s : S)
  | Blocked (s : S).
Arguments Done {S} s.
Arguments Raised {S} e s.
Arguments Blocked {S} s.

(** ** cogs.py: Lock over the native mutex *)

(** [coil_core.MutexLock] is a native class; its three methods are taken
    as an interface. *)
Class MutexLock (M : Type) : Type := {
  mutex_new : M;
  mutex_acquire : M → outcome M;
  mutex_release : M → outcome M;
  mutex_get_locked : M → bool
}.

Module Lock.
Section WithMutex.
Context {M : Type} {mx : MutexLock M}.

Record t : Type := mk { _inner : M }.

Definition new : t := mk mutex_new.

Definition lift (o : outcome M) : outcome t :=
  match o with
  | Done m => Done (mk m)
  | Raised e m => Raised e (mk m)
  | Blocked m => Blocked (mk m)
  end.

Definition acquire (self : t) : outcome t := lift (mutex_acquire (_inner self)).

Definition get_locked (self : t) : bool := mutex_get_locked (_inner self).

(** [if not self.get_locked: return]: the attribute is read, not
    called, so the test is on the bound method object. *)
Definition release (self : t) : outcome t :=
  if negb (truthy PyBoundMethod) then Done self
  else lift (mutex_release (_inner self)).

(** sync.py: the [locked] property. *)
Definition locked (self : t) : bool := get_locked self.
End WithMutex.
Arguments t M : clear implicits.
End Lock.

(** A mutex in the manner of the standard ones: acquiring a held mutex
    suspends the caller, releasing a free one is an error. *)
Definition strict_mutex : MutexLock bool := {|
  mutex_new := false;
  mutex_acquire := λ held, if held then Blocked held else Done true;
  mutex_release := λ held, if held then Done false else Raised RuntimeError held;
  mutex_get_locked := λ held, held
|}.

(** A mutex whose release of a free mutex does nothing. *)
Definition lenient_mutex : MutexLock bool := {|
  mutex_new := false;
  mutex_acquire := λ held, if held then Blocked held else Done true;
  mutex_release := λ _, Done false;
  mutex_get_locked := λ held, held
|}.

(** Sequencing of lock operations. *)
Definition and_then {S : Type} (o : outcome S) (k : S → outcome S) : outcome S :=
  match o with
  | Done s => k s
  | other => other
  end.

(** ** sync.py: Notification *)

Module Notification.
Section WithWaiter.
(** A waiter is the freshly made lock its thread sleeps on. *)
Context {W : Type}.

Record t : Type := mk { _waiters : list W }.

Definition new : t := mk [].

(** [wait]: the lock is appended, then acquired a second time. *)
Definition wait (lock : W) (self : t) : t := mk (_waiters self ++ [lock]).

(** The loop [for _ in range(count): self._waiters.popleft().release()];
    [woken] lists the locks released so far, oldest first. *)
Fixpoint pop_release (count : nat) (woken : list W) (ws : list W)
  : option exn * list W * t :=
  match count with
  | 0 => (None, woken, mk ws)
  | S count' =>
      match ws with
      | [] => (Some IndexError, woken, mk ws)
      | w :: ws' => pop_release count' (woken ++ [w]) ws'
      end
  end.

(** [notify(count)]; the first component is the exception raised, if
    any, the second the waiters woken in order. *)
Definition notify (count : Z) (self : t) : option exn * list W * t :=
  if length (_waiters self) =? 0 then (None, [], self)
  else pop_release (Z.to_nat count) [] (_waiters self).

Definition notify_one (self : t) := notify 1%Z self.

Definition notify_all (self : t) := notify (Z.of_nat (length (_waiters self))) self.
End WithWaiter.
Arguments t W : clear implicits.
End Notification.

(** ** sync.py: Queue *)

Module Queue.

Inductive overflow : Type := RAISE | BLOCK | DROP.

Section WithItem.
Context {A W : Type}.

(** [_inner] is the deque, leftmost element first, with its [maxlen];
    [_lock] is the held flag of the queue lock. *)
Record t : Type := mk {
  _inner : list A;
  maxlen : option nat;
  _overflow_behavior : overflow;
  _added_element : Notification.t W;
  _popped_element : Notification.t W;
  _lock : bool
}.

Definition new (max_size : option nat) (overflow_behavior : overflow) : t :=
  mk [] max_size overflow_behavior Notification.new Notification.new false.

(** [deque.append] on a bounded deque: the item goes to the right end
    and the deque is trimmed from the left when it is over [maxlen]. *)
Definition deque_append (maxlen : option nat) (item : A) (d : list A) : list A :=
  let d' := d ++ [item] in
  match maxlen with
  | Some m => if m <? length d' then tail d' else d'
  | None => d'
  end.

Definition is_full (self : t) : bool :=
  match maxlen self with
  | Some m => length (_inner self) =? m
  | None => false
  end.

Inductive add_result : Type :=
  | AddDone (woken : list W) (q : t)
  | AddRaised (e : exn) (q : t)
  | AddBlockedOnLock (q : t)
  | AddBlockedOnPopped (q : t).

Definition set_lock (b : bool) (self : t) : t :=
  mk (_inner self) (maxlen self) (_overflow_behavior self)
     (_added_element self) (_popped_element self) b.

(** The statements of [add] after the overflow [match]: append, wake
    one consumer, leave the [with] block. *)
Definition add_tail (item : A) (self : t) : add_result :=
  let inner' := deque_append (maxlen self) item (_inner self) in
  let '(e, woken, added') := Notification.notify_one (_added_element self) in
  let q' := mk inner' (maxlen self) (_overflow_behavior self)
               added' (_popped_element self) false in
  match e with
  | Some err => AddRaised err q'
  | None => AddDone woken q'
  end.

(** [add(item)] called by a thread whose fresh waiter lock is [me]. *)
Definition add (me : W) (item : A) (self : t) : add_result :=
  if _lock self then AddBlockedOnLock self
  else
    let held := set_lock true self in
    if is_full held then
      match _overflow_behavior held with
      | BLOCK =>
          AddBlockedOnPopped
            (mk (_inner held) (maxlen held) (_overflow_behavior held)
                (_added_element held)
                (Notification.wait me (_popped_element held)) true)
      | RAISE => AddRaised ValueError (set_lock false held)
      | DROP => add_tail item held
      end
    else add_tail item held.

Inductive pop_result : Type :=
  | PopDone (obj : A) (woken : list W) (q : t)
  | PopRaised (e : exn) (q : t)
  | PopBlocked (q : t).

(** The statements of [pop] after the emptiness test. *)
Definition pop_tail (self : t) : pop_result :=
  match _inner self with
  | [] => PopRaised IndexError self
  | obj :: rest =>
      let '(e, woken, popped') := Notification.notify_one (_popped_element self) in
      let q' := mk rest (maxlen self) (_overflow_behavior self)
                   (_added_element self) popped' (_lock self) in
      match e with
      | Some err => PopRaised err q'
      | None => PopDone obj woken q'
      end
  end.

Definition pop (me : W) (self : t) : pop_result :=
  if length (_inner self) =? 0 then
    PopBlocked (mk (_inner self) (maxlen self) (_overflow_behavior self)
                   (Notification.wait me (_added_element self))
                   (_popped_element self) (_lock self))
  else pop_tail self.

(** The queue carried by a result of [add]. *)
Definition queue_of (r : add_result) : t :=
  match r with
  | AddDone _ q | AddRaised _ q | AddBlockedOnLock q | AddBlockedOnPopped q => q
  end.

(** [len ≤ cap]; an unbounded queue has no cap. *)
Definition within_cap (self : t) : Prop :=
  match maxlen self with
  | Some m => length (_inner self) ≤ m
  | None => True
  end.
End WithItem.
Arguments t A W : clear implicits.
End Queue.


(** ** threads.py: ThreadResult, ThreadStatus, Promise and Pool *)

(** What one invocation of a user callable does.  A Python value is
    [None] or a value of [V]. *)
Inductive call_result (V : Type) : Type :=
  | Returns (v : option V)
  | Raises (e : exn).
Arguments Returns {V} v.
Arguments Raises {V} e.

Module Threads.
Section WithValue.
Context {A V : Type}.

Record ThreadResult : Type := mkResult {
  result : option V;
  exception : option exn;
  crashed : bool
}.

Inductive ThreadStatus : Type :=
  | NOT_STARTED
  | RUNNING
  | FINISHED (r : ThreadResult).

(** The two assignments of a runner: [ThreadResult(result, None, False)]
    on return and [ThreadResult(None, e, True)] in the handler. *)
Definition finish (c : call_result V) : ThreadStatus :=
  match c with
  | Returns v => FINISHED (mkResult v None false)
  | Raises e => FINISHED (mkResult None (Some e) true)
  end.

Record Task : Type := mkTask {
  function : A → call_result V;
  args : A;
  promise : nat
}.

(** A pool together with the free-standing promises made by its
    [submit]: [store !! p] is the [_new_info] slot of promise [p];
    [_workers] maps a worker to the task it is running. *)
Record Pool : Type := mkPool {
  _tasks : list Task;
  _workers : list (option Task);
  store : list ThreadStatus;
  _shutting_down : bool;
  active : bool
}.

(** [Pool(workers)] *)
Definition new (workers : nat) : Pool :=
  mkPool [] (replicate workers None) [] false true.

(** [Pool.submit(function, item)]: the new promise and the pool, or the
    [RuntimeError] of a pool that is shutting down. *)
Definition submit (func : A → call_result V) (item : A) (self : Pool)
  : exn + (nat * Pool) :=
  if _shutting_down self then inl RuntimeError
  else
    let p := length (store self) in
    inr (p, mkPool (_tasks self ++ [mkTask func item p]) (_workers self)
                   (store self ++ [NOT_STARTED]) (_shutting_down self) (active self)).

(** The end of [Promise.result()]:
    [if self._info.result.exception: raise ...] and otherwise
    [return self._info.result.result].  The test is on the truth value
    of the stored exception. *)
Definition reraise (r : ThreadResult) : call_result V :=
  match exception r with
  | Some e => if exn_truthy e then Raises e else Returns (result r)
  | None => Returns (result r)
  end.

(** What the caller of [result()] gets for a call that did [c]: the
    runner stores the outcome with [finish] and [result()] reads it
    back with [reraise]. *)
Definition delivered (c : call_result V) : call_result V :=
  match finish c with
  | FINISHED r => reraise r
  | _ => c
  end.

(** [Promise.result()] of a free-standing promise: suspended until the
    slot is finished, then the error is raised again or the value
    returned. *)
Definition Promise_result (p : nat) (self : Pool) : option (call_result V) :=
  match store self !! p with
  | Some (FINISHED r) => Some (reraise r)
  | _ => None
  end.

(** Steps of the other threads, taken coarsely.  Which worker is woken
    by the notifications, and whether one is woken at all, is left to
    the schedule: any idle worker of an active pool may take a task at
    any time, so every run of the worker loop is among the runs of
    these steps; [Worker] below has the loop statement by statement.
    [Take w]: worker [w], idle, pops the leftmost task and marks its
    promise running.  [Finish w]: worker [w] has run its task, records
    the outcome in the promise and starts its next turn with an empty
    slot.  [Foreign f x]: some other thread submits a task of its
    own. *)
Inductive event : Type :=
  | Take (w : nat)
  | Finish (w : nat)
  | Foreign (f : A → call_result V) (x : A).

Definition env_step (ev : event) (self : Pool) : Pool :=
  match ev with
  | Take w =>
      if active self then
        match _workers self !! w, _tasks self with
        | Some None, task :: rest =>
            mkPool rest (<[w := Some task]> (_workers self))
                   (<[promise task := RUNNING]> (store self))
                   (_shutting_down self) (active self)
        | _, _ => self
        end
      else self
  | Finish w =>
      match _workers self !! w with
      | Some (Some task) =>
          mkPool (_tasks self) (<[w := None]> (_workers self))
                 (<[promise task := finish (function task (args task))]> (store self))
                 (_shutting_down self) (active self)
      | _ => self
      end
  | Foreign f x =>
      match submit f x self with
      | inr (_, self') => self'
      | inl _ => self
      end
  end.

(** The thread that runs [Pool.map(func, arr)]: it still has [todo] to
    submit, holds the promises [promises] of what it submitted, and
    then collects [results] from the promises [pending], in order. *)
Inductive client : Type :=
  | Submitting (todo : list A) (promises : list nat)
  | Joining (pending : list nat) (results : list (option V))
  | Returned (results : list (option V))
  | Failed (e : exn).

(** One action of the client; a [result()] on an unfinished promise
    leaves it where it is. *)
Definition client_step (func : A → call_result V) (c : client) (self : Pool)
  : client * Pool :=
  match c with
  | Submitting [] ps => (Joining ps [], self)
  | Submitting (item :: todo) ps =>
      match submit func item self with
      | inr (p, self') => (Submitting todo (ps ++ [p]), self')
      | inl e => (Failed e, self)
      end
  | Joining [] rs => (Returned rs, self)
  | Joining (p :: pending) rs =>
      match Promise_result p self with
      | Some (Returns v) => (Joining pending (rs ++ [v]), self)
      | Some (Raises e) => (Failed e, self)
      | None => (c, self)
      end
  | Returned _ | Failed _ => (c, self)
  end.

(** An interleaving of the client with the other threads. *)
Inductive step : Type :=
  | Client
  | Env (ev : event).

Definition exec_step (func : A → call_result V) (s : step) (cfg : client * Pool)
  : client * Pool :=
  match s with
  | Client => client_step func cfg.1 cfg.2
  | Env ev => (cfg.1, env_step ev cfg.2)
  end.

Definition exec (func : A → call_result V) (sched : list step) (cfg : client * Pool)
  : client * Pool :=
  foldl (λ cfg s, exec_step func s cfg) cfg sched.

(** [Pool.imap(func, arr)] run without interruption. *)
Fixpoint imap (func : A → call_result V) (arr : list A) (self : Pool)
  : exn + (list nat * Pool) :=
  match arr with
  | [] => inr ([], self)
  | item :: arr' =>
      match submit func item self with
      | inl e => inl e
      | inr (p, self') =>
          match imap func arr' self' with
          | inl e => inl e
          | inr (ps, self'') => inr (p :: ps, self'')
          end
      end
  end.

(** [[fn(x) for x in xs]]: the values in order, or the first error. *)
Fixpoint comprehension (func : A → call_result V) (arr : list A)
  : exn + list (option V) :=
  match arr with
  | [] => inr []
  | item :: arr' =>
      match func item with
      | Raises e => inl e
      | Returns v =>
          match comprehension func arr' with
          | inl e => inl e
          | inr vs => inr (v :: vs)
          end
      end
  end.

Definition unfinished (s : ThreadStatus) : Prop :=
  match s with
  | FINISHED _ => False
  | _ => True
  end.

(** The tasks waiting in the deque or running on a worker. *)
Definition live_tasks (self : Pool) : list Task :=
  _tasks self ++ omap id (_workers self).

(** No two live tasks share a promise, and the promise of a live task
    is not finished yet. *)
Definition pool_wf (self : Pool) : Prop :=
  NoDup (promise <$> live_tasks self) ∧
  ∀ t, t ∈ live_tasks self → ∃ s, store self !! promise t = Some s ∧ unfinished s.

(** Promise [p] belongs to the call [func(x)]: its task is still live,
    or the promise holds the outcome of the call. *)
Definition owned (func : A → call_result V) (self : Pool) (p : nat) (x : A) : Prop :=
  mkTask func x p ∈ live_tasks self ∨ store self !! p = Some (finish (func x)).

(** [func] as its callers see it through [submit] and [result()]. *)
Definition through_result (func : A → call_result V) : A → call_result V :=
  λ x, delivered (func x).

(** What the client of [map(func, arr)] has done so far agrees with
    [arr]. *)
Definition client_inv (func : A → call_result V) (arr : list A) (c : client) (self : Pool)
  : Prop :=
  match c with
  | Submitting todo ps =>
      ∃ submitted, arr = submitted ++ todo ∧ Forall2 (owned func self) ps submitted
  | Joining pending rs =>
      ∃ joined waiting,
        arr = joined ++ waiting ∧ comprehension (through_result func) joined = inr rs
        ∧ Forall2 (owned func self) pending waiting
  | Returned rs => comprehension (through_result func) arr = inr rs
  | Failed e => comprehension (through_result func) arr = inl e
  end.

(** What every interleaving keeps: the pool is well formed and accepts
    work, and the client agrees with [arr]. *)
Definition map_inv (func : A → call_result V) (arr : list A) (cfg : client * Pool) : Prop :=
  pool_wf cfg.2 ∧ _shutting_down cfg.2 = false ∧ client_inv func arr cfg.1 cfg.2.

End WithValue.
Arguments ThreadResult V : clear implicits.
Arguments ThreadStatus V : clear implicits.
Arguments Task A V : clear implicits.
Arguments Pool A V : clear implicits.
Arguments event A V : clear implicits.
Arguments step A V : clear implicits.
Arguments client A V : clear implicits.
End Threads.

(** ** threads.py: the worker loop, statement by statement *)

Module Worker.
Section WithValue.
Context {A V : Type}.

(** Where a worker thread stands in [Pool.__worker].  [AtLoopHead]:
    about to test [self.active].  [AtTest]: [self._workers[id] = None]
    is done, the test of the deque and of the lock comes next.
    [SawEmpty]: the test was true, the call of
    [self._task_notification.wait()] comes next.  [Parked]: inside
    [wait()], queued in [_waiters] and asleep on its lock.  [AtPop]:
    about to enter [with self._task_array_lock].  [Running task]: the
    local variable [task] is bound, [self._workers[id]] holds it and
    the promise is marked running; the call, the final update and the
    [finally] clause come next.  [Exited]: the loop has ended. *)
Inductive pc : Type :=
  | AtLoopHead
  | AtTest
  | SawEmpty
  | Parked
  | AtPop
  | Running (task : Threads.Task A V)
  | Exited.

(** A pool with its worker threads.  A waiter of [_task_notification]
    is named by the worker that sleeps on it.  [append] and [popleft]
    are done under [_task_array_lock] and taken as one step each, so
    the lock is free whenever a worker tests it. *)
Record t : Type := mk {
  pool : Threads.Pool A V;
  _task_notification : Notification.t nat;
  pcs : list pc
}.

(** [Pool(workers)]: every worker thread is started and stands at the
    head of its loop. *)
Definition new (workers : nat) : t :=
  mk (Threads.new workers) Notification.new (replicate workers AtLoopHead).

Definition at_pc (w : nat) (l : pc) (self : t) : t :=
  mk (pool self) (_task_notification self) (<[w := l]> (pcs self)).

(** The next statement of worker [w]; a worker that sleeps or has left
    its loop does nothing. *)
Definition worker_step (w : nat) (self : t) : t :=
  let p := pool self in
  match pcs self !! w with
  | Some AtLoopHead =>
      if Threads.active p then
        mk (Threads.mkPool (Threads._tasks p) (<[w := None]> (Threads._workers p))
                           (Threads.store p) (Threads._shutting_down p) (Threads.active p))
           (_task_notification self) (<[w := AtTest]> (pcs self))
      else at_pc w Exited self
  | Some AtTest =>
      match Threads._tasks p with
      | [] => at_pc w SawEmpty self
      | _ :: _ => at_pc w AtPop self
      end
  | Some SawEmpty =>
      mk p (Notification.wait w (_task_notification self)) (<[w := Parked]> (pcs self))
  | Some AtPop =>
      match Threads._tasks p with
      | [] => at_pc w AtLoopHead self
      | task :: rest =>
          mk (Threads.mkPool rest (<[w := Some task]> (Threads._workers p))
                             (<[Threads.promise task := Threads.RUNNING]> (Threads.store p))
                             (Threads._shutting_down p) (Threads.active p))
             (_task_notification self) (<[w := Running task]> (pcs self))
      end
  | Some (Running task) =>
      mk (Threads.mkPool (Threads._tasks p) (Threads._workers p)
                         (<[Threads.promise task
                            := Threads.finish (Threads.function task (Threads.args task))]>
                            (Threads.store p))
                         (Threads._shutting_down p) (Threads.active p))
         (_task_notification self) (<[w := AtLoopHead]> (pcs self))
  | Some Parked | Some Exited | None => self
  end.

(** The workers released by a [notify] go on behind their [wait()]. *)
Definition wake (woken : list nat) (l : list pc) : list pc :=
  foldr (λ w l, <[w := AtPop]> l) l woken.

(** [Pool.submit(function, item)]: the task is appended, then
    [notify_one] under [contextlib.suppress(RuntimeError)]. *)
Definition submit (func : A → call_result V) (item : A) (self : t) : exn + (nat * t) :=
  match Threads.submit func item (pool self) with
  | inl e => inl e
  | inr (p, pool') =>
      match Notification.notify_one (_task_notification self) with
      | (Some e, woken, nt) =>
          if decide (e = RuntimeError) then inr (p, mk pool' nt (wake woken (pcs self)))
          else inl e
      | (None, woken, nt) => inr (p, mk pool' nt (wake woken (pcs self)))
      end
  end.

(** One action of the thread that runs [Pool.map(func, arr)]. *)
Definition client_step (func : A → call_result V) (c : Threads.client A V) (self : t)
  : Threads.client A V * t :=
  match c with
  | Threads.Submitting [] ps => (Threads.Joining ps [], self)
  | Threads.Submitting (item :: todo) ps =>
      match submit func item self with
      | inr (p, self') => (Threads.Submitting todo (ps ++ [p]), self')
      | inl e => (Threads.Failed e, self)
      end
  | Threads.Joining [] rs => (Threads.Returned rs, self)
  | Threads.Joining (p :: pending) rs =>
      match Threads.Promise_result p (pool self) with
      | Some (Returns v) => (Threads.Joining pending (rs ++ [v]), self)
      | Some (Raises e) => (Threads.Failed e, self)
      | None => (c, self)
      end
  | Threads.Returned _ | Threads.Failed _ => (c, self)
  end.

(** The threads of a program in which the caller of [map] is the only
    user of the pool. *)
Inductive step : Type :=
  | Client
  | Work (w : nat).

Definition exec_step (func : A → call_result V) (s : step) (cfg : Threads.client A V * t)
  : Threads.client A V * t :=
  match s with
  | Client => client_step func cfg.1 cfg.2
  | Work w => (cfg.1, worker_step w cfg.2)
  end.

Definition run (func : A → call_result V) (sched : list step) (cfg : Threads.client A V * t)
  : Threads.client A V * t :=
  foldl (λ cfg s, exec_step func s cfg) cfg sched.

(** Every worker goes through the head of its loop and finds the deque
    empty; then the client submits its [items] items and turns to the
    first promise; then every worker calls [wait()]. *)
Definition lost_wakeup (workers items : nat) : list step :=
  (Work <$> seq 0 workers) ++ (Work <$> seq 0 workers)
  ++ replicate (items + 1) Client ++ (Work <$> seq 0 workers).

(** The task a worker holds. *)
Definition slot (l : pc) : option (Threads.Task A V) :=
  match l with
  | Running task => Some task
  | _ => None
  end.

(** The pool as [Threads.env_step] sees it: a worker counts as running
    its task until the outcome is stored. *)
Definition coarse (self : t) : Threads.Pool A V :=
  let p := pool self in
  Threads.mkPool (Threads._tasks p) (slot <$> pcs self) (Threads.store p)
                 (Threads._shutting_down p) (Threads.active p).

(** What the reachable states keep: the pool is active, and the
    waiters of [_task_notification] are distinct workers, all asleep
    in [wait()]. *)
Definition parked_inv (self : t) : Prop :=
  Threads.active (pool self) = true
  ∧ NoDup (Notification._waiters (_task_notification self))
  ∧ ∀ w, w ∈ Notification._waiters (_task_notification self) →
         pcs self !! w = Some Parked.
End WithValue.
Arguments t A V : clear implicits.
Arguments pc A V : clear implicits.
End Worker.

(** ** jobs.py: Once and Retry *)

Module Jobs.

(** A failure bound: an [int], or [float("inf")]. *)
Inductive bound : Type :=
  | Finite (n : Z)
  | Infinity.

(** [x if x else float("inf")] for an argument [x : int | None]. *)
Definition or_inf (x : option Z) : bound :=
  match x with
  | Some n => if truthy (PyInt n) then Finite n else Infinity
  | None => Infinity
  end.

(** [max(a, b)] *)
Definition bound_max (a b : bound) : bound :=
  match a, b with
  | Finite x, Finite y => Finite (Z.max x y)
  | _, _ => Infinity
  end.

(** [fails > b] *)
Definition exceeds (fails : Z) (b : bound) : bool :=
  match b with
  | Finite n => (n <? fails)%Z
  | Infinity => false
  end.

Section WithValue.
Context {V : Type}.

(** [submit(run)] followed by [.result()]: the runner stores the outcome
    of [run] in a [ThreadResult] and [result()] reads it back, raising
    the stored exception again when it is true. *)
Definition submit_result (c : call_result V) : call_result V :=
  match Threads.finish c with
  | Threads.FINISHED r => Threads.reraise r
  | _ => c
  end.

(** A crash manager is a [Once]; [self._cmgr.promise(submit, e).result()]
    returns a value or raises. *)
Definition crash_manager : Type := exn → call_result V.

(** [Once.promise(submit).result()] *)
Definition Once_promise_result (func : call_result V) (cmgr : option crash_manager)
  : call_result V :=
  submit_result
    match func with
    | Returns v => Returns v
    | Raises e =>
        match cmgr with
        | None => Raises e
        | Some cm =>
            match cm e with
            | Returns None => Raises e
            | Returns (Some v) => Returns (Some v)
            | Raises e' => Raises e'
            end
        end
    end.

(** [_func i] is what the [i]-th invocation (from 0) of the callable
    does. *)
Record Retry : Type := mkRetry {
  _func : nat → call_result V;
  _cmgr : option crash_manager;
  _max_fails_total : bound;
  _max_consecutive_fails : bound
}.

(** [Retry.__init__]: the tuple assignment as written. *)
Definition Retry_init (func : nat → call_result V) (cmgr : option crash_manager)
    (max_consecutive_fails max_total_fails : option Z) : Retry :=
  mkRetry func cmgr (or_inf max_consecutive_fails) (or_inf max_total_fails).

(** The [while True] loop of [run]; [calls] counts the invocations made
    so far.  The result carries the number of invocations. *)
Fixpoint run_loop (self : Retry) (max_fails : bound) (fuel : nat)
    (calls : nat) (fails : Z) : option (call_result V * nat) :=
  match fuel with
  | 0 => None
  | S fuel' =>
      let count_failure e :=
        let fails' := (fails + 1)%Z in
        if exceeds fails' max_fails then Some (Raises e, S calls)
        else run_loop self max_fails fuel' (S calls) fails' in
      match _func self calls with
      | Returns v => Some (Returns v, S calls)
      | Raises e =>
          match _cmgr self with
          | None => count_failure e
          | Some cm =>
              match cm e with
              | Raises e' => Some (Raises e', S calls)
              | Returns None => count_failure e
              | Returns (Some v) => Some (Returns (Some v), S calls)
              end
          end
      end
  end.

Definition run (self : Retry) (fuel : nat) : option (call_result V * nat) :=
  let max_fails := bound_max (_max_consecutive_fails self) (_max_fails_total self) in
  run_loop self max_fails fuel 0 0%Z.

(** [Retry.promise(submit).result()] *)
Definition Retry_promise_result (self : Retry) (fuel : nat)
  : option (call_result V * nat) :=
  match run self fuel with
  | Some (c, calls) => Some (submit_result c, calls)
  | None => None
  end.

(** The escalation test of [loop_generator]. *)
Definition generator_escalates (self : Retry) (consecutive_fails total_fails : Z) : bool :=
  exceeds consecutive_fails (_max_consecutive_fails self)
  || exceeds total_fails (_max_fails_total self).
(** A callable that fails at every invocation, with error [err i] at
    invocation [i]. *)
Definition always_fails (err : nat → exn) : nat → call_result V := λ i, Raises (err i).

End WithValue.
Arguments Retry V : clear implicits.
Arguments crash_manager V : clear implicits.
End Jobs.

(** ** mailbox.py: Group, Extension, Mailbox *)

(** [name.split("/")] *)
Fixpoint split_slash (s : string) : list string :=
  match s with
  | EmptyString => [EmptyString]
  | String c s' =>
      if Ascii.eqb c "/"%char then EmptyString :: split_slash s'
      else
        match split_slash s' with
        | [] => [String c EmptyString]
        | seg :: segs => String c seg :: segs
        end
  end.

(** ["/".join(parts)] *)
Fixpoint join_slash (parts : list string) : string :=
  match parts with
  | [] => EmptyString
  | [p] => p
  | p :: ps => p +:+ "/" +:+ join_slash ps
  end.

(** [list(filter(None, name.split("/")))] *)
Definition canonical_parts (name : string) : list string :=
  filter (λ seg, seg ≠ EmptyString) (split_slash name).

(** The name a Group stores: [ "/".join(parts) ]. *)
Definition canonical (name : string) : string := join_slash (canonical_parts name).

(** No ["/"] in the string. *)
Fixpoint slash_free (s : string) : Prop :=
  match s with
  | EmptyString => True
  | String c s' => c ≠ "/"%char ∧ slash_free s'
  end.

(** What a path segment is: not empty and without ["/"]. *)
Definition segment (s : string) : Prop := s ≠ EmptyString ∧ slash_free s.

(** The fuel [Group(name)] needs, by the parts of the name. *)
Definition ctor_fuel (parts : list string) : nat :=
  2 * length parts + (if decide (last parts = Some "..."%string) then 0 else 1) + 1.

(** The name is that of a wildcard: its last part is ["..."]. *)
Definition wild_name (nm : string) : Prop :=
  last (canonical_parts nm) = Some "..."%string.

(** A Python set, in the order its elements were added. *)
Definition set_add (x : nat) (s : list nat) : list nat :=
  if decide (x ∈ s) then s else s ++ [x].

Definition set_discard (x : nat) (s : list nat) : list nat :=
  filter (λ y, y ≠ x) s.

(** A computation on a state [S] that returns, raises, or exhausts its
    fuel. *)
Inductive exec (S X : Type) : Type :=
  | Ok (x : X) (s : S)
  | Error (e : exn) (s : S)
  | OutOfFuel.
Arguments Ok {S X} x s.
Arguments Error {S X} e s.
Arguments OutOfFuel {S X}.

(** A [for] loop whose body can fail to return. *)
Fixpoint for_each {S X : Type} (body : X → S → option S) (xs : list X) (s : S)
  : option S :=
  match xs with
  | [] => Some s
  | x :: xs' =>
      match body x s with
      | Some s' => for_each body xs' s'
      | None => None
      end
  end.

(** A [for] loop whose body can raise. *)
Fixpoint for_each_exec {S X : Type} (body : X → S → exec S unit) (xs : list X) (s : S)
  : exec S unit :=
  match xs with
  | [] => Ok () s
  | x :: xs' =>
      match body x s with
      | Ok _ s' => for_each_exec body xs' s'
      | other => other
      end
  end.

Section Bus.
(** Message contents. *)
Context {C : Type}.

Record Message : Type := mkMessage {
  group : nat;
  content : C
}.

Record MessageSentInGroup : Type := mkResponse {
  cancel : bool;
  forward_to : list nat;
  data_transform : C → C
}.

(** [MessageSentInGroup()] *)
Definition default_response : MessageSentInGroup := mkResponse false [] (λ x, x).

(** An extension, by its message policy. *)
Record Extension : Type := mkExtension {
  message_sent_in_group : C → option MessageSentInGroup
}.

(** A Group object.  The class defines [__hash__] and no [__eq__]: as a
    dictionary key, in a set and in [group in exclude] a Group is
    compared by object identity, here its index in the heap. *)
Record GroupObj : Type := mkGroup {
  name : string;
  parent : option nat;
  children : list nat
}.

(** A Mailbox object: the deque [messages], leftmost first, and the
    waiters of [_notification]. *)
Record MailboxObj : Type := mkBox {
  messages : list Message;
  _notification : Notification.t nat
}.

(** The class attributes [Group.groups], [Group.extensions] and
    [Mailbox.chats], the Group and Mailbox objects made so far, and the
    record of the calls made to extension policies. *)
Record World : Type := mkWorld {
  groups : gmap string nat;
  heap : list GroupObj;
  extensions : gmap nat Extension;
  chats : gmap nat (list nat);
  boxes : list MailboxObj;
  policy_calls : list (nat * C)
}.

Definition empty_world : World := mkWorld ∅ [] ∅ ∅ [] [].

Definition set_heap (h : list GroupObj) (w : World) : World :=
  mkWorld (groups w) h (extensions w) (chats w) (boxes w) (policy_calls w).

Definition set_chats (ch : gmap nat (list nat)) (w : World) : World :=
  mkWorld (groups w) (heap w) (extensions w) ch (boxes w) (policy_calls w).

Definition set_boxes (b : list MailboxObj) (w : World) : World :=
  mkWorld (groups w) (heap w) (extensions w) (chats w) b (policy_calls w).

Definition parent_of (w : World) (g : nat) : option nat :=
  heap w !! g ≫= parent.

Definition children_of (w : World) (g : nat) : list nat :=
  default [] (children <$> heap w !! g).

(** [g.children.add(child)] *)
Definition add_child (g child : nat) (w : World) : World :=
  set_heap (alter (λ o, mkGroup (name o) (parent o) (set_add child (children o))) g (heap w)) w.

(** [g.parent = p] *)
Definition set_parent (g p : nat) (w : World) : World :=
  set_heap (alter (λ o, mkGroup (name o) (Some p) (children o)) g (heap w)) w.

(** [Group(name)]: [__new__] followed by [__init__].  Nothing in the
    module stores into [Group.groups]. *)
Fixpoint Group_new (fuel : nat) (nm : string) (w : World) : exec World nat :=
  match fuel with
  | 0 => OutOfFuel
  | S fuel' =>
      match groups w !! nm with
      | Some g => Ok g w
      | None =>
          let self := length (heap w) in
          let parts := canonical_parts nm in
          let w1 := set_heap (heap w ++ [mkGroup (join_slash parts) None []]) w in
          let link idx w :=
            match Group_new fuel' (join_slash (take idx parts)) w with
            | Ok g w' => Ok () (add_child g self w')
            | Error e w' => Error e w'
            | OutOfFuel => OutOfFuel
            end in
          match for_each_exec link (seq 1 (length parts - 1)) w1 with
          | Ok _ w2 =>
              match last parts with
              | None => Error IndexError w2
              | Some lst =>
                  let is_wildcard := bool_decide (lst = "...") in
                  if (1 <? length parts) && negb is_wildcard then
                    match Group_new fuel' (join_slash (removelast parts) +:+ "/...") w2 with
                    | Ok p w3 => Ok self (set_parent self p w3)
                    | other => other
                    end
                  else Ok self w2
              end
          | Error e w2 => Error e w2
          | OutOfFuel => OutOfFuel
          end
      end
  end.

(** [Group._add_extension]; the background service it starts is not
    part of the routing state. *)
Definition _add_extension (g : nat) (ext : Extension) (w : World) : exn + World :=
  match extensions w !! g with
  | Some _ => inl ValueError
  | None =>
      inr (mkWorld (groups w) (heap w) (<[g := ext]> (extensions w)) (chats w)
                   (boxes w) (policy_calls w))
  end.

(** [Mailbox()] *)
Definition Mailbox_new (w : World) : nat * World :=
  (length (boxes w), set_boxes (boxes w ++ [mkBox [] Notification.new]) w).

(** [cls.chats.setdefault(group, set()).add(box)] *)
Definition _subscribe (box g : nat) (w : World) : World :=
  set_chats (<[g := set_add box (default [] (chats w !! g))]> (chats w)) w.

(** [cls.chats[group].discard(box)] *)
Definition _unsubscribe (box g : nat) (w : World) : exn + World :=
  match chats w !! g with
  | Some subs => inr (set_chats (<[g := set_discard box subs]> (chats w)) w)
  | None => inl KeyError
  end.

(** [messages.appendleft(msg); _notification.notify_all()] on one box. *)
Definition receive (msg : Message) (mb : MailboxObj) : MailboxObj :=
  mkBox (msg :: messages mb) (Notification.notify_all (_notification mb)).2.

Definition deliver (msg : Message) (box : nat) (w : World) : World :=
  set_boxes (alter (receive msg) box (boxes w)) w.

(** The [while current_group is not None] walk to the nearest group
    with an extension. *)
Fixpoint find_extension (fuel : nat) (current_group : option nat) (w : World)
  : option (option (nat * Extension)) :=
  match fuel with
  | 0 => None
  | S fuel' =>
      match current_group with
      | None => Some None
      | Some g =>
          match extensions w !! g with
          | Some ext => Some (Some (g, ext))
          | None => find_extension fuel' (parent_of w g) w
          end
      end
  end.

(** The policy call, recorded in [policy_calls]; [None] from the policy
    is replaced by the default response. *)
Definition consult (found : option (nat * Extension)) (c : C) (w : World)
  : MessageSentInGroup * World :=
  match found with
  | None => (default_response, w)
  | Some (g, ext) =>
      (default default_response (message_sent_in_group ext c),
       mkWorld (groups w) (heap w) (extensions w) (chats w) (boxes w)
               (policy_calls w ++ [(g, c)]))
  end.

(** [Mailbox.send(group, content, exclude)]; [None] when the fuel does
    not suffice. *)
Fixpoint send (fuel : nat) (g : nat) (c : C) (exclude : list nat) (w : World)
  : option World :=
  match fuel with
  | 0 => None
  | S fuel' =>
      if decide (g ∈ exclude) then Some w
      else
        match chats w !! g with
        | None => Some w
        | Some subscribers =>
            found ← find_extension fuel' (Some g) w;
            let '(response, w0) := consult found c w in
            let c' := data_transform response c in
            w3 ← (if cancel response then Some w0
                  else
                    let w1 := foldl (λ w box, deliver (mkMessage g c') box w) w0 subscribers in
                    w2 ← match parent_of w1 g with
                         | Some p =>
                             if decide (p ∈ exclude) then Some w1
                             else send fuel' p c' (g :: exclude) w1
                         | None => Some w1
                         end;
                    for_each (λ child w,
                                if decide (child ∈ exclude) then Some w
                                else send fuel' child c' (g :: exclude) w)
                             (children_of w2 g) w2);
            for_each (λ other w, send fuel' other c' [g] w) (forward_to response) w3
        end
  end.

Inductive get_result : Type :=
  | Got (msg : Message) (mb : MailboxObj)
  | GetRaised (e : exn) (mb : MailboxObj)
  | GetBlocked (mb : MailboxObj).

(** [return self.messages.pop()]: the rightmost message. *)
Definition get_tail (mb : MailboxObj) : get_result :=
  match last (messages mb) with
  | Some msg => Got msg (mkBox (removelast (messages mb)) (_notification mb))
  | None => GetRaised IndexError mb
  end.

(** [Mailbox.get()] called by a thread whose fresh waiter lock is [me]. *)
Definition get (me : nat) (mb : MailboxObj) : get_result :=
  if length (messages mb) =? 0 then
    GetBlocked (mkBox (messages mb) (Notification.wait me (_notification mb)))
  else get_tail mb.

Definition inbox (w : World) (box : nat) : list Message :=
  default [] (messages <$> boxes w !! box).

(** What the constructor keeps true of the heap, as long as the
    interning table is empty: a parent is always a wildcard object, and
    a wildcard object has no parent. *)
Definition constructed (w : World) : Prop :=
  groups w = ∅
  ∧ (∀ i o p, heap w !! i = Some o → parent o = Some p →
       ∃ op, heap w !! p = Some op ∧ wild_name (name op))
  ∧ (∀ i o, heap w !! i = Some o → wild_name (name o) → parent o = None).

(** The objects of [w] are in [w'] with their name and parent. *)
Definition extends (w w' : World) : Prop :=
  groups w' = groups w
  ∧ length (heap w) ≤ length (heap w')
  ∧ ∀ i o, heap w !! i = Some o →
      ∃ o', heap w' !! i = Some o' ∧ name o' = name o ∧ parent o' = parent o.

(** The interning table is left as it was and no object is lost. *)
Definition grows w w' : Prop :=
  groups w' = groups w ∧ length (heap w) ≤ length (heap w').

(** The topic graph and the tables that [send] reads. *)
Definition same_graph w w' : Prop :=
  groups w' = groups w ∧ heap w' = heap w
  ∧ extensions w' = extensions w ∧ chats w' = chats w.

(** No policy names forward targets. *)
Definition forward_free w : Prop :=
  ∀ g ext c r,
    extensions w !! g = Some ext → message_sent_in_group ext c = Some r →
    forward_to r = [].

(** Following [parent] from [cur] reaches [None] within [d] steps. *)
Fixpoint chain_within w (d : nat) (cur : option nat) : bool :=
  match cur with
  | None => true
  | Some g =>
      match d with
      | 0 => false
      | S d' => chain_within w d' (parent_of w g)
      end
  end.


End Bus.
Arguments Message C : clear implicits.
Arguments MessageSentInGroup C : clear implicits.
Arguments Extension C : clear implicits.
Arguments MailboxObj C : clear implicits.
Arguments World C : clear implicits.
Arguments get_result C : clear implicits.

(** * Scenarios *)

(** A full DROP queue holding 1, 2 (1 the oldest). *)
Definition full_drop_queue : Queue.t nat nat :=
  Queue.mk [1; 2] (Some 2) Queue.DROP Notification.new Notification.new false.

(** [x → x*x], a callable that never raises. *)
Definition square (x : nat) : call_result nat := Returns (Some (x * x)).

(** Mailboxes M = 0 and N = 1; M subscribes to [Group("a/b/c")], N to
    [Group("a/b/c/d")]; the result carries the two Group objects. *)
Definition ancestor_scenario : option (nat * nat * World string) :=
  let '(M, w) := Mailbox_new empty_world in
  let '(N, w) := Mailbox_new w in
  match Group_new 8 "a/b/c" w with
  | Ok gabc w =>
      let w := _subscribe M gabc w in
      match Group_new 8 "a/b/c/d" w with
      | Ok gabcd w => Some (gabc, gabcd, _subscribe N gabcd w)
      | _ => None
      end
  | _ => None
  end.

(** The inboxes of M and N after [send] to the object N subscribed to,
    and after [send] to a [Group("a/b/c/d")] made for the call. *)
Definition ancestor_scenario_inboxes
  : option (list (Message string) * list (Message string)
            * (list (Message string) * list (Message string))) :=
  '(gabc, gabcd, w) ← ancestor_scenario;
  w1 ← send 8 gabcd "hello" [] w;
  match Group_new 8 "a/b/c/d" w with
  | Ok fresh w' =>
      w2 ← send 8 fresh "hello" [] w';
      Some (inbox w1 0, inbox w1 1, (inbox w2 0, inbox w2 1))
  | _ => None
  end.

(** Mailboxes M = 0 and N = 1; N subscribes to [g = Group("a/b/c/d")]
    (object 0) and M to [g.parent], the wildcard object (18). *)
Definition wildcard_world : World string :=
  let '(M, w) := Mailbox_new empty_world in
  let '(N, w) := Mailbox_new w in
  match Group_new 8 "a/b/c/d" w with
  | Ok g w =>
      match parent_of w g with
      | Some p => _subscribe N g (_subscribe M p w)
      | None => w
      end
  | _ => w
  end.

(** Mailbox M = 0 subscribed to the parent (object 2) of
    [g = Group("a/x")] (object 0); nobody subscribed to [g]. *)
Definition parent_only_world : World string :=
  let '(M, w) := Mailbox_new empty_world in
  match Group_new 4 "a/x" w with
  | Ok g w =>
      match parent_of w g with
      | Some p => _subscribe M p w
      | None => w
      end
  | _ => w
  end.



(** Mailbox 0 subscribed to [Group("news")] (object 0); "first" is
    sent to the group, then "second"; the result is the mailbox. *)
Definition two_deliveries : option (MailboxObj string) :=
  let '(M, w) := Mailbox_new empty_world in
  match Group_new 2 "news" w with
  | Ok g w =>
      w1 ← send 3 g "first" [] (_subscribe M g w);
      w2 ← send 3 g "second" [] w1;
      boxes w2 !! M
  | _ => None
  end.

(** * The rest of the primitives *)

(** What the code relies on from the native mutex: a new mutex is
    free; acquiring a free mutex takes it, acquiring a held one
    suspends the caller; releasing a held mutex frees it. *)
Record mutex_laws {M : Type} (mx : MutexLock M) : Prop := {
  law_new : mutex_get_locked mutex_new = false;
  law_acquire_free : ∀ m, mutex_get_locked m = false →
    ∃ m', mutex_acquire m = Done m' ∧ mutex_get_locked m' = true;
  law_acquire_held : ∀ m, mutex_get_locked m = true → mutex_acquire m = Blocked m;
  law_release_held : ∀ m, mutex_get_locked m = true →
    ∃ m', mutex_release m = Done m' ∧ mutex_get_locked m' = false
}.

Definition outcome_map {S T : Type} (f : S → T) (o : outcome S) : outcome T :=
  match o with
  | Done s => Done (f s)
  | Raised e s => Raised e (f s)
  | Blocked s => Blocked (f s)
  end.

(** ** sync.py: Event *)

Module Event.
Section WithMutex.
Context {M : Type} {mx : MutexLock M}.

Record t : Type := mk { _lock : Lock.t M }.

(** [Event()]: a new lock, acquired. *)
Definition new : outcome t := outcome_map mk (Lock.acquire Lock.new).

Definition set (self : t) : outcome t :=
  if negb (Lock.locked (_lock self)) then Raised RuntimeError self
  else outcome_map mk (Lock.release (_lock self)).

Definition clear (self : t) : outcome t :=
  if Lock.locked (_lock self) then Raised RuntimeError self
  else outcome_map mk (Lock.acquire (_lock self)).

(** [wait]: acquire, then release. *)
Definition wait (self : t) : outcome t :=
  outcome_map mk (and_then (Lock.acquire (_lock self)) Lock.release).

Definition is_set (self : t) : bool := negb (Lock.locked (_lock self)).
End WithMutex.
Arguments t M : clear implicits.
End Event.

(** ** sync.py: Semaphore *)

Module Semaphore.
Section WithWaiter.
Context {W : Type}.

(** [_lock] is the held flag of the internal lock. *)
Record t : Type := mk {
  _remaining : Z;
  _lock : bool;
  _waiters : Notification.t W
}.

Definition new (limit : Z) : t := mk limit false Notification.new.

Inductive acquire_result : Type :=
  | Acquired (s : t)
  | AcquireBlockedOnLock (s : t)
  | AcquireWaiting (s : t).

(** One turn of the [while True] loop of [acquire], by a thread whose
    fresh waiter lock is [me]: inside [with self._lock], either a permit
    is taken and the call returns, or the thread waits on [_waiters],
    still inside the [with] block. *)
Definition acquire (me : W) (self : t) : acquire_result :=
  if _lock self then AcquireBlockedOnLock self
  else if (0 <? _remaining self)%Z then
    Acquired (mk (_remaining self - 1)%Z false (_waiters self))
  else AcquireWaiting (mk (_remaining self) true (Notification.wait me (_waiters self))).

(** The waiter was woken: it leaves the [with] block and the loop
    takes another turn. *)
Definition resume (me : W) (self : t) : acquire_result :=
  acquire me (mk (_remaining self) false (_waiters self)).

Inductive release_result : Type :=
  | Released (woken : list W) (s : t)
  | ReleaseRaised (e : exn) (s : t)
  | ReleaseBlockedOnLock (s : t).

Definition release (self : t) : release_result :=
  if _lock self then ReleaseBlockedOnLock self
  else
    let '(e, woken, waiters') := Notification.notify_one (_waiters self) in
    let s' := mk (_remaining self + 1)%Z false waiters' in
    match e with
    | Some err => ReleaseRaised err s'
    | None => Released woken s'
    end.

(** An attempt of some thread on the semaphore, and the state it
    leaves. *)
Inductive attempt : Type :=
  | TryAcquire (me : W)
  | TryRelease.

Definition after (a : attempt) (self : t) : t :=
  match a with
  | TryAcquire me =>
      match acquire me self with
      | Acquired s | AcquireBlockedOnLock s | AcquireWaiting s => s
      end
  | TryRelease =>
      match release self with
      | Released _ s | ReleaseRaised _ s | ReleaseBlockedOnLock s => s
      end
  end.

(** [acquire] by each of the threads in turn, as long as each returns. *)
Fixpoint acquire_all (mes : list W) (self : t) : option t :=
  match mes with
  | [] => Some self
  | me :: mes' =>
      match acquire me self with
      | Acquired s => acquire_all mes' s
      | _ => None
      end
  end.
End WithWaiter.
Arguments t W : clear implicits.
End Semaphore.

(** ** sync.py: Queue used in sequence *)

Module QueueSeq.
Section WithItem.
Context {A W : Type}.

(** A queue nobody waits on, with its lock free. *)
Definition quiet_queue (inner : list A) (max_size : option nat) (policy : Queue.overflow)
  : Queue.t A W :=
  Queue.mk inner max_size policy Notification.new Notification.new false.

(** [add] of each item in turn, as long as each returns. *)
Fixpoint add_all (me : W) (items : list A) (q : Queue.t A W) : option (Queue.t A W) :=
  match items with
  | [] => Some q
  | item :: items' =>
      match Queue.add me item q with
      | Queue.AddDone _ q' => add_all me items' q'
      | _ => None
      end
  end.

(** [n] calls of [pop], as long as each returns; the objects in the
    order they were returned. *)
Fixpoint pop_all (me : W) (n : nat) (q : Queue.t A W) : option (list A * Queue.t A W) :=
  match n with
  | 0 => Some ([], q)
  | S n' =>
      match Queue.pop me q with
      | Queue.PopDone obj _ q' =>
          match pop_all me n' q' with
          | Some (objs, q'') => Some (obj :: objs, q'')
          | None => None
          end
      | _ => None
      end
  end.
End WithItem.
End QueueSeq.

(** ** threads.py: Thread and Promise *)

Module Thread.
Section WithMutex.
Context {M V : Type} {mx : MutexLock M}.

(** [_function] is what the call of [self._function] on the stored
    arguments does. *)
Record t : Type := mk {
  _function : call_result V;
  _status : Threads.ThreadStatus V;
  _finished : Event.t M
}.

(** [Thread(function, args, kwargs)] *)
Definition new (function : call_result V) : outcome t :=
  outcome_map (mk function Threads.NOT_STARTED) Event.new.

(** [start]: the worker is handed to [new_thread]; the thread object
    is as it was until the worker runs. *)
Definition start (self : t) : t := self.

(** The first statement of [__worker_single]. *)
Definition worker_begin (self : t) : t :=
  mk (_function self) Threads.RUNNING (_finished self).

(** The rest of [__worker_single]: the call, the status, and
    [self._finished.set()] in the [finally] clause. *)
Definition worker_end (self : t) : outcome t :=
  outcome_map (mk (_function self) (Threads.finish (_function self)))
              (Event.set (_finished self)).

Definition finished (self : t) : bool :=
  match _status self with
  | Threads.FINISHED _ => true
  | _ => false
  end.

Inductive join_result : Type :=
  | Joined (r : Threads.ThreadResult V) (self : t)
  | JoinRaised (e : exn) (self : t)
  | JoinBlocked (self : t).

(** [join]; [Joined r] stands for the return of [r.result]. *)
Definition join (self : t) : join_result :=
  match _status self with
  | Threads.NOT_STARTED => JoinRaised RuntimeError self
  | _ =>
      match Event.wait (_finished self) with
      | Done ev =>
          let self' := mk (_function self) (_status self) ev in
          match _status self with
          | Threads.FINISHED r => Joined r self'
          | _ => JoinRaised RuntimeError self'
          end
      | Raised e ev => JoinRaised e (mk (_function self) (_status self) ev)
      | Blocked ev => JoinBlocked (mk (_function self) (_status self) ev)
      end
  end.

(** What [join] hands to its caller. *)
Definition join_value (j : join_result) : option (call_result V) :=
  match j with
  | Joined r _ => Some (Returns (Threads.result r))
  | JoinRaised e _ => Some (Raises e)
  | JoinBlocked _ => None
  end.

(** The value a thread's [join] returns for what its function did:
    a crashed thread has [None] as its result. *)
Definition joined_value (f : call_result V) : option V :=
  match f with
  | Returns v => v
  | Raises _ => None
  end.

(** [Promise(thread).result()]: [join], then the captured error is
    raised if it is true, and the value returned otherwise. *)
Definition Promise_result (self : t) : option (call_result V) :=
  match join self with
  | Joined r _ => Some (Threads.reraise r)
  | JoinRaised e _ => Some (Raises e)
  | JoinBlocked _ => None
  end.
End WithMutex.
Arguments t M V : clear implicits.
End Thread.

Module Promise.
Section WithMutex.
Context {M V : Type} {mx : MutexLock M}.

(** A promise without parent thread, as [Pool.submit] makes them. *)
Record t : Type := mk {
  _new_info : Threads.ThreadStatus V;
  _finished_event : Event.t M
}.

(** [Promise(None)] *)
Definition new : outcome t := outcome_map (mk Threads.NOT_STARTED) Event.new.

Definition started (self : t) : bool :=
  match _new_info self with
  | Threads.NOT_STARTED => false
  | _ => true
  end.

Definition finished (self : t) : bool :=
  match _new_info self with
  | Threads.FINISHED _ => true
  | _ => false
  end.

Definition _update (info : Threads.ThreadStatus V) (self : t) : outcome t :=
  match info with
  | Threads.FINISHED _ => outcome_map (mk info) (Event.set (_finished_event self))
  | _ => Done (mk info (_finished_event self))
  end.

Inductive result_outcome : Type :=
  | Returned (v : option V) (self : t)
  | Reraised (e : exn) (self : t)
  | AssertionFailed (self : t)
  | WaitRaised (e : exn) (self : t)
  | Suspended (self : t).

(** [result()] *)
Definition result (self : t) : result_outcome :=
  match Event.wait (_finished_event self) with
  | Done ev =>
      let self' := mk (_new_info self) ev in
      match _new_info self with
      | Threads.FINISHED r =>
          match Threads.reraise r with
          | Raises e => Reraised e self'
          | Returns v => Returned v self'
          end
      | _ => AssertionFailed self'
      end
  | Raised e ev => WaitRaised e (mk (_new_info self) ev)
  | Blocked ev => Suspended (mk (_new_info self) ev)
  end.

(** The promise after a call of [result()]. *)
Definition after_result (o : result_outcome) : t :=
  match o with
  | Returned _ s | Reraised _ s | AssertionFailed s | WaitRaised _ s | Suspended s => s
  end.

(** What the caller of [result()] gets, when it gets something. *)
Definition answer (o : result_outcome) : option (call_result V) :=
  match o with
  | Returned v _ => Some (Returns v)
  | Reraised e _ => Some (Raises e)
  | _ => None
  end.
(** What [result()] keeps: the outcome stored and the event set. *)
Definition completed (c : call_result V) (p : t) : Prop :=
  _new_info p = Threads.finish c ∧ Event.is_set (_finished_event p) = true.
End WithMutex.
Arguments t M V : clear implicits.
End Promise.

(** ** jobs.py: Loop over a job that is not a Retry *)

Module Loop.
Section WithValue.
Context {V : Type}.

(** [while True: self._job.promise(submit).result()] for a [Once]
    whose function does [func i] at its [i]-th invocation: the error
    that ends the loop and the number of rounds run. *)
Fixpoint run (func : nat → call_result V) (cmgr : option (Jobs.crash_manager V))
    (fuel : nat) (round : nat) : option (exn * nat) :=
  match fuel with
  | 0 => None
  | S fuel' =>
      match Jobs.Once_promise_result (func round) cmgr with
      | Returns _ => run func cmgr fuel' (S round)
      | Raises e => Some (e, S round)
      end
  end.
End WithValue.
End Loop.

(** ** What the tables of the bus keep *)

Section BusInvariants.
Context {C : Type}.

(** The subscriber sets are sets. *)
Definition subscribers_nodup (w : World C) : Prop :=
  ∀ g subs, chats w !! g = Some subs → NoDup subs.

(** The world after a call to the policy of the extension of [g]. *)
Definition with_call (g : nat) (c : C) (w : World C) : World C :=
  mkWorld (groups w) (heap w) (extensions w) (chats w) (boxes w) (policy_calls w ++ [(g, c)]).

(** One round of deliveries of [msg] to the boxes [subs]. *)
Definition deliveries (msg : Message C) (subs : list nat) (w : World C) : World C :=
  foldl (λ w box, deliver msg box w) w subs.

(** What [send] may do to a world: the tables and the graph stay,
    no box is made or lost, messages are only put in front of the
    inboxes, and only in those of subscribed boxes, and calls are only
    added to the record of policy calls. *)
Definition send_effects (w w' : World C) : Prop :=
  (groups w' = groups w ∧ heap w' = heap w
   ∧ extensions w' = extensions w ∧ chats w' = chats w)
  ∧ length (boxes w') = length (boxes w)
  ∧ (∀ box, ∃ new, inbox w' box = new ++ inbox w box
                   ∧ ((∀ g subs, chats w !! g = Some subs → box ∉ subs) → new = []))
  ∧ ∃ calls, policy_calls w' = policy_calls w ++ calls.

(** [box] is subscribed to no group. *)
Definition unsubscribed (w : World C) (box : nat) : Prop :=
  ∀ g subs, chats w !! g = Some subs → box ∉ subs.
End BusInvariants.

(** The steps of other threads on a pool, one after the other. *)
Definition run_env {A V : Type} (evs : list (Threads.event A V)) (pool : Threads.Pool A V)
  : Threads.Pool A V :=
  foldl (λ p ev, Threads.env_step ev p) pool evs.

(** A pool with one worker that has run the task [square 3]. *)
Definition pool_after_one_task : Threads.Pool nat nat :=
  run_env [Threads.Foreign square 3; Threads.Take 0; Threads.Finish 0] (Threads.new 1).

(** A function that fails twice and then returns 7. *)
Definition third_time_lucky (i : nat) : call_result nat :=
  if i <? 2 then Raises (UserError i) else Returns (Some 7).

(** A function that returns twice and then fails. *)
Definition fails_third_time (i : nat) : call_result nat :=
  if i <? 2 then Returns (Some i) else Raises (UserError i).

(** A full BLOCK queue of capacity 2 holding 1, 2. *)
Definition full_block_queue : Queue.t nat nat :=
  Queue.mk [1; 2] (Some 2) Queue.BLOCK Notification.new Notification.new false.

(** A policy that marks the content and lets the message through. *)
Definition marker : Extension string :=
  mkExtension (λ _, Some (mkResponse false [] (λ x, (x ++ "!")%string))).

(** [wildcard_world] with [marker] registered on the wildcard parent
    (object 18) of [g] (object 0). *)
Definition marked_world : World string :=
  match _add_extension 18 marker wildcard_world with
  | inr w => w
  | inl _ => wildcard_world
  end.

(** A policy that cancels the delivery and forwards the marked content
    to [target]. *)
Definition redirect (target : nat) : Extension string :=
  mkExtension (λ _, Some (mkResponse true [target] (λ x, (x ++ "!")%string))).

(** Groups [a] (object 0) and [b] (object 1), both subscribed by
    mailbox 0; the extension of [a] redirects to [b]. *)
Definition redirect_world : World string :=
  let '(M, w) := Mailbox_new empty_world in
  match Group_new 2 "a" w with
  | Ok a w =>
      match Group_new 2 "b" w with
      | Ok b w =>
          let w := _subscribe M b (_subscribe M a w) in
          match _add_extension a (redirect b) w with
          | inr w => w
          | inl _ => w
          end
      | _ => w
      end
  | _ => w
  end.

(** The name has no character but ["/"]. *)
Fixpoint only_slashes (s : string) : Prop :=
  match s with
  | EmptyString => True
  | String c s' => c = "/"%char ∧ only_slashes s'
  end.

Section HeapShape.
Context {C : Type}.

(** [w'] has the objects of [w], untouched, and maybe more. *)
Definition keeps_objects (w w' : World C) : Prop :=
  ∃ more, heap w' = heap w ++ more.

(** The object [g] has no children and no parent. *)
Definition isolated (w : World C) (g : nat) : Prop :=
  ∃ o, heap w !! g = Some o ∧ parent o = None ∧ children o = [].
End HeapShape.

(** ** threads.py: Pool.shutdown *)

Module Pool.
Section WithValue.
Context {A V : Type}.

Inductive shutdown_result : Type :=
  | ShutDown (self : Threads.Pool A V)
  | ShutdownWaiting (self : Threads.Pool A V).

(** [shutdown], up to its return or to a wait on [_task_processed]:
    the flag is set, and the loop tests the waiting tasks only. *)
Definition shutdown (self : Threads.Pool A V) : shutdown_result :=
  match Threads._tasks self with
  | [] =>
      ShutDown (Threads.mkPool (Threads._tasks self) (Threads._workers self)
                               (Threads.store self) true false)
  | _ :: _ =>
      ShutdownWaiting (Threads.mkPool (Threads._tasks self) (Threads._workers self)
                                      (Threads.store self) true (Threads.active self))
  end.

(** The pool a call of [shutdown] leaves. *)
Definition after (r : shutdown_result) : Threads.Pool A V :=
  match r with
  | ShutDown self | ShutdownWaiting self => self
  end.
End WithValue.
End Pool.

(** A pool whose one worker is running the task [square 3]. *)
Definition pool_with_running_task : Threads.Pool nat nat :=
  run_env [Threads.Foreign square 3; Threads.Take 0] (Threads.new 1).

(** ** Forwarding that cannot come back *)

Section Forwarding.
Context {C : Type}.

End Forwarding.






(** ** A group and the groups around it *)

Section Neighbours.
Context {C : Type}.

(** A group on which a [send] ends: no parent, no children and no
    extension. *)
Definition plain (w : World C) (x : nat) : Prop :=
  parent_of w x = None ∧ children_of w x = [] ∧ extensions w !! x = None.

(** The content [c] delivered to the subscribers of each of [xs] in
    turn, under the tag of that group. *)
Definition broadcast (c : C) (xs : list nat) (w : World C) : World C :=
  foldl (λ w x, deliveries (mkMessage x c) (default [] (chats w !! x)) w) w xs.
End Neighbours.

(** A policy that marks the content and forwards it to [targets]. *)
Definition mark_and_forward (targets : list nat) : Extension string :=
  mkExtension (λ _, Some (mkResponse false targets (λ x, (x ++ "!")%string))).

(** A group [g] (object 0) nobody ever subscribed to, with the parent
    [p] (object 1), the children objects 2 and 3, and an extension
    that forwards to objects 4 and 5; mailbox 0 is subscribed to all
    the groups but [g]. *)
Definition hub_world : World string :=
  mkWorld ∅
          [mkGroup "g" (Some 1) [2; 3]; mkGroup "p" None []; mkGroup "c1" None [];
           mkGroup "c2" None []; mkGroup "f1" None []; mkGroup "f2" None []]
          (<[0 := mark_and_forward [4; 5]]> ∅)
          (<[5 := [0]]> (<[4 := [0]]> (<[3 := [0]]> (<[2 := [0]]> (<[1 := [0]]> ∅)))))
          [mkBox [] Notification.new]
          [].

(** * Properties *)

(** ** Lock *)

(** C7. [Lock.release] never takes its early return: whatever the state
    of the lock, it hands the call to the native [release].  On a mutex
    that rejects the release of a free mutex, releasing a fresh lock
    raises, and so does the second release of [acquire; release;
    release]: the release of a lock that is not held is not a no-op of
    [Lock.release] itself. *)
Theorem Lock_release_always_delegates :
  (∀ (M : Type) (mx : MutexLock M) (self : Lock.t M),
     Lock.release self = Lock.lift (mutex_release (Lock._inner self)))
  ∧ Lock.release (mx := strict_mutex) (Lock.new (mx := strict_mutex))
    = Raised RuntimeError (Lock.mk false)
  ∧ and_then (and_then (Lock.acquire (mx := strict_mutex) (Lock.new (mx := strict_mutex)))
                       (Lock.release (mx := strict_mutex)))
             (Lock.release (mx := strict_mutex))
    = Raised RuntimeError (Lock.mk false).
Proof.
  split; [|split].
  - intros M mx self. unfold Lock.release. reflexivity.
  - reflexivity.
  - reflexivity.
Qed.

(** On a mutex that tolerates it, the same sequence ends unlocked: the
    outcome is decided by the native mutex alone. *)
Lemma Lock_release_lenient :
  and_then (and_then (Lock.acquire (mx := lenient_mutex) (Lock.new (mx := lenient_mutex)))
                     (Lock.release (mx := lenient_mutex)))
           (Lock.release (mx := lenient_mutex))
  = Done (Lock.mk false).
Proof. reflexivity. Qed.

(** ** Notification *)

Section NotificationFacts.
Context {W : Type}.
Implicit Types (ws woken : list W).

Lemma pop_release_enough count woken ws :
  count ≤ length ws →
  Notification.pop_release count woken ws
  = (None, woken ++ take count ws, Notification.mk (drop count ws)).
Proof.
  revert woken ws. induction count as [|count IH]; intros woken ws Hle; simpl.
  - by rewrite app_nil_r, drop_0.
  - destruct ws as [|w ws]; simpl in *; [lia|].
    rewrite IH by lia. by rewrite <- app_assoc.
Qed.

Lemma pop_release_short count woken ws :
  length ws < count →
  Notification.pop_release count woken ws
  = (Some IndexError, woken ++ ws, Notification.mk []).
Proof.
  revert woken ws. induction count as [|count IH]; intros woken ws Hlt; [lia|].
  destruct ws as [|w ws]; simpl in *.
  - by rewrite app_nil_r.
  - rewrite IH by lia. by rewrite <- app_assoc.
Qed.

(** With enough waiters, or none at all, [notify] wakes the first
    [min(n, k)] of them in order and returns. *)
Lemma notify_enough (n : nat) ws :
  ws = [] ∨ n ≤ length ws →
  Notification.notify (Z.of_nat n) (Notification.mk ws)
  = (None, take n ws, Notification.mk (drop n ws)).
Proof.
  intros Hn. unfold Notification.notify. simpl.
  destruct ws as [|w ws]; simpl.
  - by rewrite take_nil, drop_nil.
  - destruct Hn as [?|Hn]; [done|].
    rewrite Nat2Z.id, pop_release_enough by done. done.
Qed.

Lemma notify_all_ok ws :
  Notification.notify_all (Notification.mk ws) = (None, ws, Notification.mk []).
Proof.
  unfold Notification.notify_all. simpl.
  rewrite notify_enough by (right; done).
  by rewrite firstn_all, drop_all.
Qed.

Lemma notify_negative (z : Z) ws :
  (z ≤ 0)%Z →
  Notification.notify z (Notification.mk ws) = (None, [], Notification.mk ws).
Proof.
  intros Hz. unfold Notification.notify. simpl.
  destruct ws as [|w ws]; simpl; [done|].
  replace (Z.to_nat z) with 0 by lia. done.
Qed.

(** C4. With at least one waiter and a count above their number,
    [notify] wakes all of them in order and then raises [IndexError]
    from the pop of the emptied queue. *)
Theorem notify_beyond_waiters_raises (w : W) ws (extra : nat) :
  Notification.notify (Z.of_nat (length (w :: ws) + S extra)) (Notification.mk (w :: ws))
  = (Some IndexError, w :: ws, Notification.mk []).
Proof.
  unfold Notification.notify.
  change (Notification._waiters (Notification.mk (w :: ws))) with (w :: ws).
  change (length (w :: ws) =? 0) with false. cbv iota.
  rewrite Nat2Z.id, pop_release_short by lia. done.
Qed.
End NotificationFacts.

(** [notify(2)] on a queue holding the single waiter [7]. *)
Example notify_two_one_waiter :
  Notification.notify 2%Z (Notification.mk [7]) = (Some IndexError, [7], Notification.mk []).
Proof. reflexivity. Qed.

(** ** Queue *)

Section QueueFacts.
Context {A W : Type}.
Implicit Types (q : Queue.t A W) (item : A) (me : W).

Lemma deque_append_length cap item (d : list A) :
  length d ≤ cap → length (Queue.deque_append (Some cap) item d) ≤ cap.
Proof.
  intros Hle. unfold Queue.deque_append.
  destruct (cap <? length (d ++ [item])) eqn:Hcmp.
  - destruct d as [|x d]; simpl in *; [lia|].
    rewrite length_app in *. simpl in *. lia.
  - apply Nat.ltb_ge in Hcmp. done.
Qed.

Lemma deque_append_full cap item (d : list A) :
  length d = cap → Queue.deque_append (Some cap) item d = tail (d ++ [item]).
Proof.
  intros Hlen. unfold Queue.deque_append.
  rewrite length_app. simpl.
  destruct (cap <? length d + 1) eqn:Hcmp; [done|].
  apply Nat.ltb_ge in Hcmp. lia.
Qed.

Lemma notify_one_no_error (n : Notification.t W) :
  (Notification.notify_one n).1.1 = None.
Proof.
  destruct n as [ws]. unfold Notification.notify_one.
  destruct ws as [|w ws]; [done|].
  change 1%Z with (Z.of_nat 1).
  by rewrite (notify_enough 1 (w :: ws)) by (right; simpl; lia).
Qed.

Lemma add_tail_done item q :
  ∃ woken q',
    Queue.add_tail item q = Queue.AddDone woken q'
    ∧ Queue._inner q' = Queue.deque_append (Queue.maxlen q) item (Queue._inner q)
    ∧ Queue.maxlen q' = Queue.maxlen q.
Proof.
  unfold Queue.add_tail.
  pose proof (notify_one_no_error (Queue._added_element q)) as Hno.
  destruct (Notification.notify_one (Queue._added_element q)) as [[e woken] added'].
  simpl in Hno. subst e. eauto.
Qed.

Lemma add_tail_within_cap item q :
  Queue.within_cap q → Queue.within_cap (Queue.queue_of (Queue.add_tail item q)).
Proof.
  intros Hcap. destruct (add_tail_done item q) as (woken & q' & -> & Hin & Hmax).
  simpl. unfold Queue.within_cap in *. rewrite Hmax, Hin.
  destruct (Queue.maxlen q) as [cap|]; [|done].
  by apply deque_append_length.
Qed.

Lemma add_within_cap me item q :
  Queue.within_cap q → Queue.within_cap (Queue.queue_of (Queue.add me item q)).
Proof.
  intros Hcap. unfold Queue.add.
  destruct (Queue._lock q); [done|].
  destruct (Queue.is_full _); [destruct (Queue._overflow_behavior _)|];
    try (apply add_tail_within_cap); done.
Qed.

(** C8, as the code has it.  On a queue at capacity whose lock is free:
    under RAISE [add] raises [ValueError] and leaves the queue as it
    was; under DROP the item is appended and the deque, now over its
    bound, loses its leftmost element; and whatever the policy, and
    also when a blocked [add] resumes, [len ≤ cap] is kept. *)
Theorem Queue_add_at_capacity me item q (cap : nat) :
  Queue.maxlen q = Some cap →
  length (Queue._inner q) = cap →
  Queue._lock q = false →
  (Queue._overflow_behavior q = Queue.RAISE →
     Queue.add me item q = Queue.AddRaised ValueError q)
  ∧ (Queue._overflow_behavior q = Queue.DROP →
     ∃ woken q', Queue.add me item q = Queue.AddDone woken q'
                 ∧ Queue._inner q' = tail (Queue._inner q ++ [item]))
  ∧ length (Queue._inner (Queue.queue_of (Queue.add me item q))) ≤ cap
  ∧ length (Queue._inner (Queue.queue_of (Queue.add_tail item q))) ≤ cap.
Proof.
  intros Hmax Hlen Hlock.
  assert (Hcap : Queue.within_cap q).
  { unfold Queue.within_cap. rewrite Hmax. lia. }
  assert (Hfull : Queue.is_full (Queue.set_lock true q) = true).
  { unfold Queue.is_full. simpl. rewrite Hmax. by apply Nat.eqb_eq. }
  split; [|split; [|split]].
  - intros Hpol. unfold Queue.add. rewrite Hlock, Hfull. simpl. rewrite Hpol.
    destruct q; simpl in *; by subst.
  - intros Hpol. unfold Queue.add. rewrite Hlock, Hfull. simpl. rewrite Hpol.
    destruct (add_tail_done item (Queue.set_lock true q)) as (woken & q' & Heq & Hin & _).
    exists woken, q'. split; [done|].
    rewrite Hin. simpl. rewrite Hmax. by apply deque_append_full.
  - pose proof (add_within_cap me item q Hcap) as Hafter.
    unfold Queue.within_cap in Hafter.
    assert (Queue.maxlen (Queue.queue_of (Queue.add me item q)) = Some cap) as Hm.
    { unfold Queue.add. rewrite Hlock, Hfull. simpl.
      destruct (Queue._overflow_behavior q); simpl; try done.
      destruct (add_tail_done item (Queue.set_lock true q)) as (? & ? & Heq & _ & Hm').
      rewrite Heq. simpl. by rewrite Hm'. }
    by rewrite Hm in Hafter.
  - pose proof (add_tail_within_cap item q Hcap) as Hafter.
    unfold Queue.within_cap in Hafter.
    destruct (add_tail_done item q) as (? & ? & Heq & _ & Hm).
    rewrite Heq in *. simpl in *. by rewrite Hm, Hmax in Hafter.
Qed.
End QueueFacts.

(** C8, the claim as stated fails: adding 3 to the full DROP queue
    [1, 2] keeps the incoming 3 and discards the queued 1. *)
Lemma Queue_drop_discards_oldest :
  Queue.add 9 3 full_drop_queue
  = Queue.AddDone [] (Queue.mk [2; 3] (Some 2) Queue.DROP Notification.new Notification.new false)
  ∧ Queue._inner (Queue.queue_of (Queue.add 9 3 full_drop_queue)) ≠ Queue._inner full_drop_queue.
Proof. split; [reflexivity | discriminate]. Qed.

Lemma Queue_add_at_capacity_witness :
  (Queue._overflow_behavior full_drop_queue = Queue.RAISE →
     Queue.add 9 3 full_drop_queue = Queue.AddRaised ValueError full_drop_queue)
  ∧ (Queue._overflow_behavior full_drop_queue = Queue.DROP →
     ∃ woken q', Queue.add 9 3 full_drop_queue = Queue.AddDone woken q'
                 ∧ Queue._inner q' = tail (Queue._inner full_drop_queue ++ [3]))
  ∧ length (Queue._inner (Queue.queue_of (Queue.add 9 3 full_drop_queue))) ≤ 2
  ∧ length (Queue._inner (Queue.queue_of (Queue.add_tail 3 full_drop_queue))) ≤ 2.
Proof.
  apply (Queue_add_at_capacity 9 3 full_drop_queue 2); reflexivity.
Defined.

(** ** Retry *)

Section RetryFacts.
Context {V : Type}.
Implicit Types (err : nat → exn).
Local Abbreviation always_fails := (@Jobs.always_fails V).

(** Without a crash manager and with a finite limit [m], the loop still
    has [k] failures to absorb before the one that exceeds [m]. *)
Lemma run_loop_always_fails err b1 b2 (m : Z) (k fuel calls : nat) (fails : Z) :
  (fails + Z.of_nat k = m)%Z →
  k < fuel →
  Jobs.run_loop (Jobs.mkRetry (always_fails err) None b1 b2) (Jobs.Finite m) fuel calls fails
  = Some (Raises (err (calls + k)), S (calls + k)).
Proof.
  revert fuel calls fails.
  induction k as [|k IH]; intros fuel calls fails Hm Hfuel;
    (destruct fuel as [|fuel]; [lia|]); simpl.
  - replace (m <? fails + 1)%Z with true by (symmetry; apply Z.ltb_lt; lia).
    by rewrite Nat.add_0_r.
  - replace (m <? fails + 1)%Z with false by (symmetry; apply Z.ltb_ge; lia).
    rewrite IH by lia. by replace (S calls + k) with (calls + S k) by lia.
Qed.

(** With no finite limit the loop goes on for as long as it is run. *)
Lemma run_loop_unbounded err b1 b2 (fuel calls : nat) (fails : Z) :
  Jobs.run_loop (Jobs.mkRetry (always_fails err) None b1 b2) Jobs.Infinity fuel calls fails
  = None.
Proof.
  revert calls fails. induction fuel as [|fuel IH]; intros calls fails; simpl; [done|].
  apply IH.
Qed.

Lemma or_inf_nonzero (n : Z) : n ≠ 0%Z → Jobs.or_inf (Some n) = Jobs.Finite n.
Proof.
  intros Hn. unfold Jobs.or_inf, truthy.
  destruct (n =? 0)%Z eqn:Heq; [|done]. apply Z.eqb_eq in Heq. done.
Qed.

(** Two finite bounds [a], [b], no crash manager: [run] raises at
    failure number [max a b + 1]. *)
Lemma Retry_run_always_fails err (a b : Z) (k fuel : nat) :
  a ≠ 0%Z → b ≠ 0%Z → Z.max b a = Z.of_nat k → k < fuel →
  Jobs.run (Jobs.Retry_init (always_fails err) None (Some a) (Some b)) fuel
  = Some (Raises (err k), S k).
Proof.
  intros Ha Hb Hmax Hfuel.
  unfold Jobs.run, Jobs.Retry_init.
  rewrite !or_inf_nonzero by done.
  cbn [Jobs._max_consecutive_fails Jobs._max_fails_total Jobs.bound_max].
  rewrite (run_loop_always_fails err (Jobs.Finite a) (Jobs.Finite b) (Z.max b a) k fuel 0 0)
    by lia.
  reflexivity.
Qed.

(** C1. [Retry(fn, None, max_consecutive_fails=3, max_total_fails=5)]
    for an [fn] that always fails: the job does not give up at the
    third or fourth failure; [run] invokes [fn] six times and raises
    the sixth error, the limit in force being the larger of the two
    bounds, and [promise(submit).result()] raises that error again, as
    it does every error that is a true object. *)
Theorem Retry_3_5_raises_at_sixth_failure err (extra : nat) :
  let job := Jobs.Retry_init (always_fails err) None (Some 3%Z) (Some 5%Z) in
  Jobs.run job (6 + extra) = Some (Raises (err 5), 6)
  ∧ Jobs.Retry_promise_result job (6 + extra)
    = Some (Jobs.submit_result (Raises (err 5)), 6)
  ∧ (exn_truthy (err 5) = true →
     Jobs.Retry_promise_result job (6 + extra) = Some (Raises (err 5), 6))
  ∧ (∀ fuel, fuel ≤ 5 →
       Jobs.run job fuel = None ∧ Jobs.Retry_promise_result job fuel = None).
Proof.
  intros job.
  assert (Hrun : Jobs.run job (6 + extra) = Some (Raises (err 5), 6))
    by (apply Retry_run_always_fails; lia).
  split; [exact Hrun|]. split; [|split].
  - unfold Jobs.Retry_promise_result. by rewrite Hrun.
  - intros Htrue. unfold Jobs.Retry_promise_result. rewrite Hrun.
    unfold Jobs.submit_result, Threads.reraise. simpl. by rewrite Htrue.
  - intros fuel Hfuel.
    do 6 (destruct fuel as [|fuel]; [split; reflexivity|]). lia.
Qed.

(** When only one of the two bounds is given, the other being
    unbounded, the job never gives up. *)
Lemma Retry_one_bound_never_escalates err (n : Z) (fuel : nat) :
  Jobs.Retry_promise_result (Jobs.Retry_init (always_fails err) None (Some n) None) fuel = None
  ∧ Jobs.Retry_promise_result (Jobs.Retry_init (always_fails err) None None (Some n)) fuel = None.
Proof.
  unfold Jobs.Retry_promise_result, Jobs.run, Jobs.Retry_init.
  cbn [Jobs._max_consecutive_fails Jobs._max_fails_total].
  change (Jobs.or_inf None) with Jobs.Infinity.
  split.
  - cbn [Jobs.bound_max]. by rewrite run_loop_unbounded.
  - destruct (Jobs.or_inf (Some n)); cbn [Jobs.bound_max]; by rewrite run_loop_unbounded.
Qed.

(** The generator form tests each bound on its own: with the same
    bounds it gives up at the fourth failure in a row. *)
Lemma generator_escalates_3_5 err :
  let job := Jobs.Retry_init (always_fails err) None (Some 3%Z) (Some 5%Z) in
  Jobs.generator_escalates job 3 3 = false ∧ Jobs.generator_escalates job 4 4 = true.
Proof. done. Qed.
End RetryFacts.


(** ** Pool *)

Section PoolFacts.
Context {A V : Type}.
Implicit Types (func : A → call_result V) (pool : Threads.Pool A V)
  (t : Threads.Task A V) (ws : list (option (Threads.Task A V))).

Lemma finish_not_unfinished (c : call_result V) : ¬ Threads.unfinished (Threads.finish c).
Proof. destruct c; simpl; tauto. Qed.

Lemma comprehension_app func (xs ys : list A) :
  Threads.comprehension func (xs ++ ys)
  = match Threads.comprehension func xs with
    | inl e => inl e
    | inr rs =>
        match Threads.comprehension func ys with
        | inl e => inl e
        | inr rs' => inr (rs ++ rs')
        end
    end.
Proof.
  induction xs as [|x xs IH]; simpl.
  - by destruct (Threads.comprehension func ys).
  - destruct (func x); [|done]. rewrite IH.
    destruct (Threads.comprehension func xs); [done|].
    by destruct (Threads.comprehension func ys).
Qed.

(** Taking a task puts it into the slot of an idle worker. *)
Lemma running_take ws (w : nat) t :
  ws !! w = Some None → omap id (<[w := Some t]> ws) ≡ₚ t :: omap id ws.
Proof.
  revert w. induction ws as [|o ws IH]; intros [|w] Hw; simplify_eq/=.
  - done.
  - destruct o as [t'|]; simpl; rewrite IH by done; [apply Permutation_swap | done].
Qed.

(** Finishing a task empties the slot of its worker. *)
Lemma running_finish ws (w : nat) t :
  ws !! w = Some (Some t) → omap id ws ≡ₚ t :: omap id (<[w := None]> ws).
Proof.
  revert w. induction ws as [|o ws IH]; intros [|w] Hw; simplify_eq/=.
  - done.
  - destruct o as [t'|]; simpl; rewrite (IH w) by done; [apply Permutation_swap | done].
Qed.

Lemma live_take pool (w : nat) t rest :
  Threads._workers pool !! w = Some None →
  Threads._tasks pool = t :: rest →
  ∀ st sd act,
    Threads.live_tasks (Threads.mkPool rest (<[w := Some t]> (Threads._workers pool)) st sd act)
    ≡ₚ Threads.live_tasks pool.
Proof.
  intros Hw Ht st sd act. unfold Threads.live_tasks. simpl.
  rewrite Ht, running_take by done. simpl.
  by rewrite Permutation_middle.
Qed.

Lemma live_finish pool (w : nat) t :
  Threads._workers pool !! w = Some (Some t) →
  ∀ st sd act,
    Threads.live_tasks pool
    ≡ₚ t :: Threads.live_tasks
              (Threads.mkPool (Threads._tasks pool) (<[w := None]> (Threads._workers pool))
                              st sd act).
Proof.
  intros Hw st sd act. unfold Threads.live_tasks. simpl.
  rewrite (running_finish _ w t) by done.
  by rewrite Permutation_middle.
Qed.

Lemma live_submit func (x : A) pool p pool' :
  Threads.submit func x pool = inr (p, pool') →
  p = length (Threads.store pool)
  ∧ Threads.store pool' = Threads.store pool ++ [Threads.NOT_STARTED]
  ∧ Threads._tasks pool' = Threads._tasks pool ++ [Threads.mkTask func x p]
  ∧ Threads._workers pool' = Threads._workers pool
  ∧ Threads._shutting_down pool' = false
  ∧ Threads.live_tasks pool' ≡ₚ Threads.mkTask func x p :: Threads.live_tasks pool.
Proof.
  unfold Threads.submit. destruct (Threads._shutting_down pool) eqn:Hsd; [done|].
  intros [= <- <-]. simpl. repeat split; try done.
  unfold Threads.live_tasks. simpl.
  rewrite <- app_assoc. simpl. symmetry. apply Permutation_middle.
Qed.

Lemma submit_accepts func (x : A) pool :
  Threads._shutting_down pool = false →
  ∃ pool', Threads.submit func x pool = inr (length (Threads.store pool), pool').
Proof. intros Hsd. unfold Threads.submit. rewrite Hsd. eauto. Qed.

(** The promises of live tasks are allocated. *)
Lemma wf_promise_lt pool t :
  Threads.pool_wf pool → t ∈ Threads.live_tasks pool →
  Threads.promise t < length (Threads.store pool).
Proof.
  intros [_ Hun] Hin. destruct (Hun t Hin) as (s & Hs & _).
  by apply lookup_lt_Some in Hs.
Qed.

Lemma wf_submit func (x : A) pool p pool' :
  Threads.pool_wf pool → Threads.submit func x pool = inr (p, pool') →
  Threads.pool_wf pool'.
Proof.
  intros Hwf Hsub.
  destruct (live_submit _ _ _ _ _ Hsub) as (-> & Hst & _ & _ & _ & Hlive).
  destruct Hwf as [Hnd Hun]. split.
  - rewrite Hlive. simpl. apply NoDup_cons. split; [|done].
    intros (t & Hp & Hin)%list_elem_of_fmap.
    pose proof (wf_promise_lt pool t (conj Hnd Hun) Hin). lia.
  - intros t Hin. rewrite Hlive in Hin. rewrite Hst.
    apply elem_of_cons in Hin as [->|Hin]; simpl.
    + exists Threads.NOT_STARTED. split; [|done].
      by rewrite lookup_app_r, Nat.sub_diag by done.
    + destruct (Hun t Hin) as (s & Hs & Hu). exists s. split; [|done].
      by rewrite lookup_app_l by (by apply lookup_lt_Some in Hs).
Qed.

Lemma wf_env_step (ev : Threads.event A V) pool :
  Threads.pool_wf pool → Threads.pool_wf (Threads.env_step ev pool).
Proof.
  intros Hwf. destruct ev as [w|w|f x]; simpl.
  - destruct (Threads.active pool); [|done].
    destruct (Threads._workers pool !! w) as [[t'|]|] eqn:Hw; try done.
    destruct (Threads._tasks pool) as [|t rest] eqn:Ht; [done|].
    pose proof (live_take pool w t rest Hw Ht) as Hlive.
    assert (Hin : t ∈ Threads.live_tasks pool).
    { unfold Threads.live_tasks. rewrite Ht. apply elem_of_cons. by left. }
    pose proof (wf_promise_lt pool t Hwf Hin) as Hlt.
    destruct Hwf as [Hnd Hun]. split.
    + by rewrite Hlive.
    + intros t' Hin'. rewrite Hlive in Hin'. simpl.
      destruct (decide (Threads.promise t' = Threads.promise t)) as [->|Hne].
      * exists Threads.RUNNING. by rewrite list_lookup_insert_eq.
      * rewrite list_lookup_insert_ne by done. by apply Hun.
  - destruct (Threads._workers pool !! w) as [[t|]|] eqn:Hw; try done.
    pose proof (live_finish pool w t Hw) as Hlive.
    destruct Hwf as [Hnd Hun].
    set (st := <[Threads.promise t := _]> (Threads.store pool)).
    specialize (Hlive st (Threads._shutting_down pool) (Threads.active pool)).
    rewrite Hlive in Hnd. simpl in Hnd. apply NoDup_cons in Hnd as [Hnotin Hnd].
    split; [done|].
    intros t' Hin'. simpl. unfold st.
    rewrite list_lookup_insert_ne.
    + apply Hun. rewrite Hlive. apply elem_of_cons. by right.
    + intros Heq. apply Hnotin. rewrite Heq. by apply list_elem_of_fmap_2.
  - destruct (Threads.submit f x pool) as [e|[p pool']] eqn:Hsub; [done|].
    by eapply wf_submit.
Qed.

Lemma owned_submit func func' (x' : A) pool p' pool' p x :
  Threads.submit func' x' pool = inr (p', pool') →
  Threads.owned func pool p x → Threads.owned func pool' p x.
Proof.
  intros Hsub Hown.
  destruct (live_submit _ _ _ _ _ Hsub) as (_ & Hst & _ & _ & _ & Hlive).
  destruct Hown as [Hin|Hfin]; [left|right].
  - rewrite Hlive. apply elem_of_cons. by right.
  - rewrite Hst. by rewrite lookup_app_l by (by apply lookup_lt_Some in Hfin).
Qed.

Lemma owned_env_step func (ev : Threads.event A V) pool p x :
  Threads.pool_wf pool →
  Threads.owned func pool p x → Threads.owned func (Threads.env_step ev pool) p x.
Proof.
  intros Hwf Hown. destruct ev as [w|w|f x']; simpl.
  - destruct (Threads.active pool); [|done].
    destruct (Threads._workers pool !! w) as [[t'|]|] eqn:Hw; try done.
    destruct (Threads._tasks pool) as [|t rest] eqn:Ht; [done|].
    pose proof (live_take pool w t rest Hw Ht) as Hlive.
    destruct Hown as [Hin|Hfin]; [left; by rewrite Hlive|right].
    simpl. rewrite list_lookup_insert_ne; [done|].
    intros Heq.
    assert (Hint : t ∈ Threads.live_tasks pool).
    { unfold Threads.live_tasks. rewrite Ht. apply elem_of_cons. by left. }
    destruct Hwf as [_ Hun]. destruct (Hun t Hint) as (s & Hs & Hu).
    rewrite Heq, Hfin in Hs. injection Hs as <-.
    by apply finish_not_unfinished in Hu.
  - destruct (Threads._workers pool !! w) as [[t|]|] eqn:Hw; try done.
    pose proof (live_finish pool w t Hw) as Hlive.
    set (st := <[Threads.promise t := _]> (Threads.store pool)).
    specialize (Hlive st (Threads._shutting_down pool) (Threads.active pool)).
    assert (Hint : t ∈ Threads.live_tasks pool) by (rewrite Hlive; apply elem_of_cons; by left).
    destruct Hown as [Hin|Hfin].
    + rewrite Hlive in Hin. apply elem_of_cons in Hin as [<-|Hin]; [right|by left].
      simpl. unfold st. simpl.
      apply list_lookup_insert_eq. by apply (wf_promise_lt pool _ Hwf Hint).
    + right. simpl. unfold st. rewrite list_lookup_insert_ne; [done|].
      intros Heq. destruct Hwf as [_ Hun]. destruct (Hun t Hint) as (s & Hs & Hu).
      rewrite Heq, Hfin in Hs. injection Hs as <-.
      by apply finish_not_unfinished in Hu.
  - destruct (Threads.submit f x' pool) as [e|[p' pool']] eqn:Hsub; [done|].
    by eapply owned_submit.
Qed.

Lemma shutting_down_env_step (ev : Threads.event A V) pool :
  Threads._shutting_down (Threads.env_step ev pool) = Threads._shutting_down pool.
Proof.
  destruct ev as [w|w|f x]; simpl.
  - by destruct (Threads.active pool), (Threads._workers pool !! w) as [[?|]|],
       (Threads._tasks pool).
  - by destruct (Threads._workers pool !! w) as [[?|]|].
  - unfold Threads.submit. by destruct (Threads._shutting_down pool) eqn:Hsd.
Qed.

(** The result of a promise owned by [func(x)], once there is one, is
    what [func(x)] did, as [result()] hands it over. *)
Lemma owned_result func pool p x (r : call_result V) :
  Threads.pool_wf pool → Threads.owned func pool p x →
  Threads.Promise_result p pool = Some r → r = Threads.delivered (func x).
Proof.
  intros [_ Hun] Hown. unfold Threads.Promise_result.
  destruct Hown as [Hin|Hfin].
  - destruct (Hun _ Hin) as (s & Hs & Hu). simpl in Hs. rewrite Hs.
    by destruct s.
  - rewrite Hfin. unfold Threads.delivered. destruct (func x); simpl; congruence.
Qed.

Lemma client_inv_env_step func arr (ev : Threads.event A V) c pool :
  Threads.pool_wf pool →
  Threads.client_inv func arr c pool →
  Threads.client_inv func arr c (Threads.env_step ev pool).
Proof.
  intros Hwf Hinv. destruct c as [todo ps|pending rs|rs|e]; simpl in *; try done.
  - destruct Hinv as (submitted & -> & Hall). exists submitted. split; [done|].
    eapply Forall2_impl; [done|]. intros; by apply owned_env_step.
  - destruct Hinv as (joined & waiting & -> & Hc & Hall). exists joined, waiting.
    do 2 (split; [done|]).
    eapply Forall2_impl; [done|]. intros; by apply owned_env_step.
Qed.

Lemma map_inv_step func arr (s : Threads.step A V) cfg :
  Threads.map_inv func arr cfg → Threads.map_inv func arr (Threads.exec_step func s cfg).
Proof.
  destruct cfg as [c pool]. intros (Hwf & Hsd & Hinv). simpl in *.
  destruct s as [|ev]; [simpl|].
  - destruct c as [[|item todo] ps|[|p pending] rs|rs|e]; simpl in *.
    + destruct Hinv as (submitted & -> & Hall). rewrite app_nil_r.
      split; [done|]. split; [done|]. simpl. by exists [], submitted.
    + destruct Hinv as (submitted & -> & Hall).
      destruct (submit_accepts func item pool Hsd) as [pool' Hsub]. rewrite Hsub.
      destruct (live_submit _ _ _ _ _ Hsub) as (_ & _ & _ & _ & Hsd' & Hlive).
      split; [by eapply wf_submit|]. split; [done|]. simpl.
      exists (submitted ++ [item]). split; [by rewrite <- app_assoc|].
      apply Forall2_app.
      * eapply Forall2_impl; [done|]. intros; by eapply owned_submit.
      * constructor; [|constructor]. left. rewrite Hlive. apply elem_of_cons. by left.
    + destruct Hinv as (joined & waiting & -> & Hc & Hall).
      apply Forall2_nil_inv_l in Hall as ->. rewrite app_nil_r.
      split; [done|]. split; done.
    + destruct Hinv as (joined & waiting & -> & Hc & Hall).
      apply Forall2_cons_inv_l in Hall as (x & waiting' & Hown & Hall & ->).
      destruct (Threads.Promise_result p pool) as [r|] eqn:Hres.
      * apply (owned_result func pool p x r Hwf Hown) in Hres as ->.
        destruct (Threads.delivered (func x)) as [v|e] eqn:Hfx; simpl.
        -- split; [done|]. split; [done|]. simpl. exists (joined ++ [x]), waiting'.
           split; [by rewrite <- app_assoc|]. split; [|done].
           rewrite comprehension_app, Hc. simpl. unfold Threads.through_result at 1.
           by rewrite Hfx.
        -- split; [done|]. split; [done|]. simpl.
           rewrite comprehension_app, Hc. simpl. unfold Threads.through_result at 1.
           by rewrite Hfx.
      * split; [done|]. split; [done|]. simpl. exists joined, (x :: waiting').
        split; [done|]. split; [done|]. by constructor.
    + done.
    + done.
  - change (Threads.pool_wf (Threads.env_step ev pool)
            ∧ Threads._shutting_down (Threads.env_step ev pool) = false
            ∧ Threads.client_inv func arr c (Threads.env_step ev pool)).
    split; [by apply wf_env_step|]. split; [by rewrite shutting_down_env_step|].
    by apply client_inv_env_step.
Qed.

Lemma map_inv_exec func arr (sched : list (Threads.step A V)) cfg :
  Threads.map_inv func arr cfg → Threads.map_inv func arr (Threads.exec func sched cfg).
Proof.
  revert cfg. unfold Threads.exec.
  induction sched as [|s sched IH]; intros cfg Hinv; simpl; [done|].
  apply IH. by apply map_inv_step.
Qed.

Lemma map_inv_start func arr pool :
  Threads.pool_wf pool → Threads._shutting_down pool = false →
  Threads.map_inv func arr (Threads.Submitting arr [], pool).
Proof. intros Hwf Hsd. repeat split; try done; try apply Hwf. by exists []. Qed.

Lemma imap_spec func (arr : list A) pool :
  Threads._shutting_down pool = false →
  ∃ pool',
    Threads.imap func arr pool
    = inr (seq (length (Threads.store pool)) (length arr), pool')
    ∧ Threads._tasks pool'
      = Threads._tasks pool
        ++ zip_with (Threads.mkTask func) arr (seq (length (Threads.store pool)) (length arr))
    ∧ Threads.store pool'
      = Threads.store pool ++ replicate (length arr) Threads.NOT_STARTED.
Proof.
  revert pool. induction arr as [|item arr IH]; intros pool Hsd; simpl.
  - exists pool. by rewrite !app_nil_r.
  - destruct (submit_accepts func item pool Hsd) as [pool1 Hsub]. rewrite Hsub.
    destruct (live_submit _ _ _ _ _ Hsub) as (_ & Hst & Ht & _ & Hsd1 & _).
    destruct (IH pool1 Hsd1) as (pool' & -> & Ht' & Hst').
    assert (Hlen : length (Threads.store pool1) = S (length (Threads.store pool))).
    { rewrite Hst, length_app. simpl. lia. }
    rewrite Hlen in *. exists pool'. split; [done|].
    rewrite Ht', Hst', Ht, Hst, <- !app_assoc. done.
Qed.

End PoolFacts.

Lemma new_pool_wf {A V : Type} (workers : nat) : Threads.pool_wf (@Threads.new A V workers).
Proof.
  assert (Hlive : Threads.live_tasks (@Threads.new A V workers) = []).
  { unfold Threads.live_tasks. simpl. by induction workers. }
  split.
  - rewrite Hlive. apply NoDup_nil_2.
  - intros t Hin. rewrite Hlive in Hin. by apply elem_of_nil in Hin.
Qed.

(** ** Pool: the worker loop *)

Section WorkerFacts.
Context {A V : Type}.
Implicit Types (func : A → call_result V) (s : Worker.t A V) (c : Threads.client A V)
  (l : list (Worker.pc A V)).

Lemma notify_one_take (ws : list nat) :
  Notification.notify_one (Notification.mk ws)
  = (None, take 1 ws, Notification.mk (drop 1 ws)).
Proof.
  unfold Notification.notify_one. change 1%Z with (Z.of_nat 1).
  apply notify_enough. destruct ws; [by left|right; simpl; lia].
Qed.

Lemma slot_insert_idle l (w : nat) (x : Worker.pc A V) :
  Worker.slot <$> l !! w = Some None → Worker.slot x = None →
  Worker.slot <$> <[w := x]> l = Worker.slot <$> l.
Proof.
  intros Hw Hx. rewrite list_fmap_insert, Hx.
  apply list_insert_id. by rewrite list_lookup_fmap.
Qed.

Lemma parked_inv_move s (w : nat) (x : Worker.pc A V) p :
  Worker.parked_inv s → Worker.pcs s !! w ≠ Some Worker.Parked →
  Threads.active p = true →
  Worker.parked_inv (Worker.mk p (Worker._task_notification s) (<[w := x]> (Worker.pcs s))).
Proof.
  intros (Hact & Hnd & Hparked) Hw Hp. split; [done|]. split; [done|].
  intros w' Hin. simpl. rewrite list_lookup_insert_ne; [by apply Hparked|].
  intros ->. by apply Hparked in Hin.
Qed.

(** A step of a worker is a step of the coarse pool, or none. *)
Lemma worker_step_coarse (w : nat) s :
  Worker.parked_inv s →
  Worker.parked_inv (Worker.worker_step w s)
  ∧ (Worker.coarse (Worker.worker_step w s) = Worker.coarse s
     ∨ ∃ ev, Worker.coarse (Worker.worker_step w s) = Threads.env_step ev (Worker.coarse s)).
Proof.
  intros Hinv. pose proof Hinv as (Hact & Hnd & Hparked).
  unfold Worker.worker_step.
  destruct (Worker.pcs s !! w) as [x|] eqn:Hw; [|by split; [|left]].
  assert (Hlt : w < length (Worker.pcs s)) by (by eapply lookup_lt_Some).
  destruct x as [| | | | |task|]; try (by split; [|left]).
  - rewrite Hact. split; [apply parked_inv_move; by rewrite ?Hw|]. left.
    unfold Worker.coarse. simpl. f_equal; [|congruence].
    apply slot_insert_idle; [by rewrite Hw|done].
  - assert (∀ x, Worker.slot x = None →
              Worker.parked_inv (Worker.at_pc w x s)
              ∧ Worker.coarse (Worker.at_pc w x s) = Worker.coarse s) as Hmove.
    { intros x Hx. split; [apply parked_inv_move; by rewrite ?Hw|].
      unfold Worker.coarse. simpl. f_equal. apply slot_insert_idle; [by rewrite Hw|done]. }
    destruct (Threads._tasks (Worker.pool s));
      (split; [by apply Hmove | left; by apply Hmove]).
  - split.
    + split; [done|]. simpl. split.
      * apply NoDup_app. split; [done|]. split; [|apply NoDup_singleton].
        intros w' Hin ->%list_elem_of_singleton. apply Hparked in Hin. congruence.
      * intros w' [Hin| ->%list_elem_of_singleton]%elem_of_app.
        -- rewrite list_lookup_insert_ne; [by apply Hparked|].
           intros ->. apply Hparked in Hin. congruence.
        -- by rewrite list_lookup_insert_eq.
    + left. unfold Worker.coarse. simpl. f_equal.
      apply slot_insert_idle; [by rewrite Hw|done].
  - destruct (Threads._tasks (Worker.pool s)) as [|task rest] eqn:Ht.
    + split; [apply parked_inv_move; by rewrite ?Hw|]. left.
      unfold Worker.coarse. simpl. f_equal. apply slot_insert_idle; [by rewrite Hw|done].
    + split; [apply parked_inv_move; by rewrite ?Hw|]. right.
      exists (Threads.Take w). unfold Worker.coarse. simpl.
      rewrite Hact, Ht, list_lookup_fmap, Hw. simpl.
      by rewrite list_fmap_insert.
  - split; [apply parked_inv_move; by rewrite ?Hw|]. right.
    exists (Threads.Finish w). unfold Worker.coarse. simpl.
    rewrite list_lookup_fmap, Hw. simpl.
    by rewrite list_fmap_insert.
Qed.

Lemma wake_parked (ws : list nat) l :
  NoDup ws → (∀ w, w ∈ ws → l !! w = Some Worker.Parked) →
  Worker.slot <$> Worker.wake (take 1 ws) l = Worker.slot <$> l
  ∧ ∀ w, w ∈ drop 1 ws → Worker.wake (take 1 ws) l !! w = Some Worker.Parked.
Proof.
  intros Hnd Hparked. destruct ws as [|w0 ws]; simpl; [by split|].
  rewrite ?take_0, ?drop_0. simpl.
  apply NoDup_cons in Hnd as [Hw0 _]. split.
  - apply slot_insert_idle; [|done].
    rewrite (Hparked w0) by (apply elem_of_cons; by left). done.
  - intros w Hin. rewrite list_lookup_insert_ne by (by intros ->).
    apply Hparked. apply elem_of_cons. by right.
Qed.

(** [submit] with its [notify_one] is [submit] on the coarse pool. *)
Lemma submit_coarse func (x : A) s :
  Worker.parked_inv s →
  match Worker.submit func x s with
  | inl e => Threads.submit func x (Worker.coarse s) = inl e
  | inr (p, s') =>
      Threads.submit func x (Worker.coarse s) = inr (p, Worker.coarse s') ∧ Worker.parked_inv s'
  end.
Proof.
  intros (Hact & Hnd & Hparked). unfold Worker.submit, Threads.submit. simpl.
  destruct (Threads._shutting_down (Worker.pool s)); [done|].
  destruct (Worker._task_notification s) as [ws] eqn:Hnt. simpl in *.
  rewrite notify_one_take.
  destruct (wake_parked ws (Worker.pcs s) Hnd Hparked) as [Hslot Hrest].
  split.
  - unfold Worker.coarse. simpl. by rewrite Hslot.
  - split; [done|]. simpl. split; [|done].
    destruct ws as [|w0 ws]; [done|]. simpl. rewrite drop_0.
    by apply NoDup_cons in Hnd as [_ ?].
Qed.

Lemma client_step_coarse func c s :
  Worker.parked_inv s →
  (Worker.client_step func c s).1 = (Threads.client_step func c (Worker.coarse s)).1
  ∧ Worker.coarse (Worker.client_step func c s).2
    = (Threads.client_step func c (Worker.coarse s)).2
  ∧ Worker.parked_inv (Worker.client_step func c s).2.
Proof.
  intros Hinv. destruct c as [[|item todo] ps|[|p pending] rs|rs|e]; simpl; try done.
  - pose proof (submit_coarse func item s Hinv) as Hsub.
    destruct (Worker.submit func item s) as [e|[p s']].
    + by rewrite Hsub.
    + destruct Hsub as [-> ?]. done.
  - change (Threads.Promise_result p (Worker.coarse s))
      with (Threads.Promise_result p (Worker.pool s)).
    by destruct (Threads.Promise_result p (Worker.pool s)) as [[v|e]|].
Qed.

(** What [map_inv] says of the coarse pool holds along every run of the
    workers and the client. *)
Lemma map_inv_run func (arr : list A) (sched : list Worker.step) c s :
  Worker.parked_inv s → Threads.map_inv func arr (c, Worker.coarse s) →
  let cfg := Worker.run func sched (c, s) in
  Worker.parked_inv cfg.2 ∧ Threads.map_inv func arr (cfg.1, Worker.coarse cfg.2).
Proof.
  revert c s. unfold Worker.run.
  induction sched as [|st sched IH]; intros c s Hpark Hinv; simpl; [done|].
  destruct st as [|w]; simpl.
  - destruct (client_step_coarse func c s Hpark) as (Hc & Hs & Hpark').
    pose proof (map_inv_step func arr Threads.Client _ Hinv) as Hinv'.
    change (Threads.exec_step func Threads.Client (c, Worker.coarse s))
      with (Threads.client_step func c (Worker.coarse s)) in Hinv'.
    destruct (Worker.client_step func c s) as [c' s']. simpl in Hc, Hs, Hpark'.
    apply IH; [done|]. rewrite Hc, Hs.
    by destruct (Threads.client_step func c (Worker.coarse s)).
  - destruct (worker_step_coarse w s Hpark) as [Hpark' Hstep].
    apply IH; [done|]. destruct Hstep as [->|[ev ->]]; [done|].
    exact (map_inv_step func arr (Threads.Env ev) _ Hinv).
Qed.

Lemma new_parked_inv (workers : nat) : Worker.parked_inv (@Worker.new A V workers).
Proof. split; [done|]. split; [apply NoDup_nil_2|]. intros w Hin. by apply elem_of_nil in Hin. Qed.

Lemma new_coarse (workers : nat) :
  Worker.coarse (@Worker.new A V workers) = Threads.new workers.
Proof.
  unfold Worker.coarse, Worker.new, Threads.new. simpl. f_equal.
  by rewrite fmap_replicate.
Qed.
Lemma run_app func (s1 s2 : list Worker.step) (cfg : Threads.client A V * Worker.t A V) :
  Worker.run func (s1 ++ s2) cfg = Worker.run func s2 (Worker.run func s1 cfg).
Proof. unfold Worker.run. by rewrite foldl_app. Qed.

Lemma run_work func (ws : list nat) c s :
  Worker.run func (Worker.Work <$> ws) (c, s)
  = (c, foldl (λ s w, Worker.worker_step w s) s ws).
Proof.
  revert s. unfold Worker.run. induction ws as [|w ws IH]; intros s; simpl; [done|].
  apply IH.
Qed.

(** Workers [k], [k + 1], ... each take the same step, from [X] to
    [Y], one after the other. *)
Lemma sweep (X Y : Worker.pc A V) (g : nat → Notification.t nat → Notification.t nat)
    (p : Threads.Pool A V) (m : nat) :
  (∀ (w : nat) nt l, l !! w = Some X →
     Worker.worker_step w (Worker.mk p nt l) = Worker.mk p (g w nt) (<[w := Y]> l)) →
  ∀ (k : nat) nt (pre : list (Worker.pc A V)), length pre = k →
    foldl (λ s w, Worker.worker_step w s) (Worker.mk p nt (pre ++ replicate m X)) (seq k m)
    = Worker.mk p (foldl (λ nt w, g w nt) nt (seq k m)) (pre ++ replicate m Y).
Proof.
  intros Hstep. induction m as [|m IH]; intros k nt pre Hpre; simpl; [done|].
  rewrite Hstep by (by rewrite lookup_app_r, Hpre, Nat.sub_diag by lia).
  replace (<[k := Y]> (pre ++ X :: replicate m X)) with ((pre ++ [Y]) ++ replicate m X).
  - rewrite IH by (rewrite length_app; simpl; lia). by rewrite <- app_assoc.
  - rewrite <- app_assoc. simpl. symmetry.
    rewrite insert_app_r_alt by lia. by rewrite Hpre, Nat.sub_diag.
Qed.

Lemma sweep_all (X Y : Worker.pc A V) (g : nat → Notification.t nat → Notification.t nat)
    (p : Threads.Pool A V) (m : nat) nt :
  (∀ (w : nat) nt l, l !! w = Some X →
     Worker.worker_step w (Worker.mk p nt l) = Worker.mk p (g w nt) (<[w := Y]> l)) →
  foldl (λ s w, Worker.worker_step w s) (Worker.mk p nt (replicate m X)) (seq 0 m)
  = Worker.mk p (foldl (λ nt w, g w nt) nt (seq 0 m)) (replicate m Y).
Proof. intros Hstep. by apply (sweep X Y g p m Hstep 0 nt []). Qed.

Lemma waits_in_turn (k m : nat) (ws : list nat) :
  foldl (λ nt w, Notification.wait w nt) (Notification.mk ws) (seq k m)
  = Notification.mk (ws ++ seq k m).
Proof.
  revert k ws. induction m as [|m IH]; intros k ws; simpl; [by rewrite app_nil_r|].
  unfold Notification.wait at 2. simpl. rewrite IH. by rewrite <- app_assoc.
Qed.

Lemma insert_replicate_same {X : Type} (x : X) (n w : nat) :
  <[w := x]> (replicate n x) = replicate n x.
Proof.
  destruct (decide (w < n)) as [Hlt|Hge].
  - apply list_insert_id. by apply lookup_replicate_2.
  - apply list_insert_ge. rewrite length_replicate. lia.
Qed.

(** With nobody waiting on [_task_notification] the client submits all
    it has and turns to its first promise; no worker is touched. *)
Lemma client_submits func (todo : list A) (ps : list nat) tasks workers store active l :
  Worker.run func (replicate (length todo + 1) Worker.Client)
    (Threads.Submitting todo ps,
     Worker.mk (Threads.mkPool tasks workers store false active) Notification.new l)
  = (Threads.Joining (ps ++ seq (length store) (length todo)) [],
     Worker.mk (Threads.mkPool
                  (tasks ++ zip_with (Threads.mkTask func) todo
                                     (seq (length store) (length todo)))
                  workers (store ++ replicate (length todo) Threads.NOT_STARTED)
                  false active)
               Notification.new l).
Proof.
  revert ps tasks store. unfold Worker.run.
  induction todo as [|item todo IH]; intros ps tasks store; simpl.
  - by rewrite !app_nil_r.
  - unfold Worker.submit, Threads.submit. simpl.
    rewrite IH. rewrite length_app. simpl.
    rewrite Nat.add_1_r, <- !app_assoc. simpl. done.
Qed.

(** All workers asleep and the first promise not finished: no thread
    can move. *)
Lemma all_parked_stuck func (sched : list Worker.step) (p : nat) (pending : list nat)
    (rs : list (option V)) s (workers : nat) :
  Worker.pcs s = replicate workers Worker.Parked →
  Threads.Promise_result p (Worker.pool s) = None →
  Worker.run func sched (Threads.Joining (p :: pending) rs, s)
  = (Threads.Joining (p :: pending) rs, s).
Proof.
  intros Hpcs Hres. unfold Worker.run.
  induction sched as [|st sched IH]; simpl; [done|].
  destruct st as [|w]; simpl.
  - by rewrite Hres.
  - replace (Worker.worker_step w s) with s; [done|].
    unfold Worker.worker_step. rewrite Hpcs.
    destruct (decide (w < workers)) as [Hlt|Hge].
    + by rewrite lookup_replicate_2.
    + by rewrite lookup_ge_None_2 by (rewrite length_replicate; lia).
Qed.

Lemma through_result_truthy func (arr : list A) :
  (∀ x e, x ∈ arr → func x = Raises e → exn_truthy e = true) →
  Threads.comprehension (Threads.through_result func) arr = Threads.comprehension func arr.
Proof.
  induction arr as [|x arr IH]; intros Htrue; simpl; [done|].
  rewrite IH by (intros y e Hy; apply Htrue; apply elem_of_cons; by right).
  unfold Threads.through_result at 1, Threads.delivered, Threads.reraise.
  destruct (func x) as [v|e] eqn:Hx; simpl; [done|].
  assert (exn_truthy e = true) as ->; [|done].
  apply (Htrue x e); [|done]. apply elem_of_cons. by left.
Qed.

(** C9.  [Pool.map(func, arr)] keeps the input order, but it need not
    return, and it does not raise every error.  On a pool that accepts
    work, however the client is interleaved with the workers and with
    other submitters, a [map] that returns returns the results in
    input order, the i-th being that of the i-th item, and a [map]
    that fails fails with the first error of the comprehension, where
    the outcome of each call is what [result()] hands over; [imap]
    returns one fresh promise per item, in input order, each bound to
    the task of its item.  The same holds on every run of the worker
    loop taken statement by statement.  The results are those of
    [[func(x) for x in arr]] when every error raised is a true object;
    an error that is a false object is not raised again, its place in
    the list is [None].  And on a new pool, whatever the number of
    workers, there is a run after which no thread can move and [map]
    has not returned: each worker has found the deque empty, the
    client has then submitted every item, its [notify_one] finding
    nobody to wake, and each worker has then gone to sleep in
    [wait()]. *)
Theorem Pool_map_keeps_order_but_can_hang func (arr : list A) :
  (∀ pool, Threads.pool_wf pool → Threads._shutting_down pool = false →
     (∀ sched : list (Threads.step A V),
        let c := (Threads.exec func sched (Threads.Submitting arr [], pool)).1 in
        (∀ rs, c = Threads.Returned rs →
               Threads.comprehension (Threads.through_result func) arr = inr rs)
        ∧ (∀ e, c = Threads.Failed e →
                Threads.comprehension (Threads.through_result func) arr = inl e))
     ∧ ∃ pool',
         Threads.imap func arr pool
         = inr (seq (length (Threads.store pool)) (length arr), pool')
         ∧ Threads._tasks pool'
           = Threads._tasks pool
             ++ zip_with (Threads.mkTask func) arr
                         (seq (length (Threads.store pool)) (length arr)))
  ∧ (∀ (workers : nat) (sched : list Worker.step),
       let c := (Worker.run func sched (Threads.Submitting arr [], Worker.new workers)).1 in
       (∀ rs, c = Threads.Returned rs →
              Threads.comprehension (Threads.through_result func) arr = inr rs)
       ∧ (∀ e, c = Threads.Failed e →
               Threads.comprehension (Threads.through_result func) arr = inl e))
  ∧ ((∀ x e, x ∈ arr → func x = Raises e → exn_truthy e = true) →
     Threads.comprehension (Threads.through_result func) arr
     = Threads.comprehension func arr)
  ∧ (∀ x e, func x = Raises e → exn_truthy e = false →
       Threads.comprehension func [x] = inl e
       ∧ Threads.comprehension (Threads.through_result func) [x] = inr [None])
  ∧ (arr ≠ [] →
     ∀ workers : nat, ∃ stuck : Worker.t A V,
       Worker.run func (Worker.lost_wakeup workers (length arr))
                  (Threads.Submitting arr [], Worker.new workers)
       = (Threads.Joining (seq 0 (length arr)) [], stuck)
       ∧ Threads._tasks (Worker.pool stuck)
         = zip_with (Threads.mkTask func) arr (seq 0 (length arr))
       ∧ Worker.pcs stuck = replicate workers Worker.Parked
       ∧ ∀ sched : list Worker.step,
           Worker.run func sched (Threads.Joining (seq 0 (length arr)) [], stuck)
           = (Threads.Joining (seq 0 (length arr)) [], stuck)).
Proof.
  split; [|split; [|split; [|split]]].
  - intros pool Hwf Hsd. split.
    + intros sched c.
      pose proof (map_inv_exec func arr sched _ (map_inv_start func arr pool Hwf Hsd))
        as (_ & _ & Hinv).
      fold c in Hinv. split; intros ? ->; exact Hinv.
    + destruct (imap_spec func arr pool Hsd) as (pool' & Himap & Ht & _). eauto.
  - intros workers sched c.
    destruct (map_inv_run func arr sched (Threads.Submitting arr []) (Worker.new workers))
      as [_ (_ & _ & Hinv)].
    + apply new_parked_inv.
    + rewrite new_coarse. apply map_inv_start; [apply new_pool_wf|done].
    + fold c in Hinv. split; intros ? ->; exact Hinv.
  - apply through_result_truthy.
  - intros x e Hx Hfalse. simpl.
    unfold Threads.through_result, Threads.delivered, Threads.reraise.
    rewrite Hx. simpl. by rewrite Hfalse.
  - intros Harr workers.
    set (m := length arr).
    set (p0 := Threads.new (A := A) (V := V) workers).
    set (p1 := Threads.mkPool (zip_with (Threads.mkTask func) arr (seq 0 m))
                              (replicate workers None)
                              (replicate m Threads.NOT_STARTED) false true).
    exists (Worker.mk p1 (Notification.mk (seq 0 workers))
                      (replicate workers Worker.Parked)).
    split; [|split; [done|split; [done|]]].
    + unfold Worker.lost_wakeup, Worker.new. rewrite !run_app, !run_work.
      fold p0.
      rewrite (sweep_all Worker.AtLoopHead Worker.AtTest (λ _ nt, nt) p0 workers)
        by (intros w nt l Hl; unfold Worker.worker_step; simpl; rewrite Hl;
            by rewrite insert_replicate_same).
      rewrite (sweep_all Worker.AtTest Worker.SawEmpty (λ _ nt, nt) p0 workers)
        by (intros w nt l Hl; unfold Worker.worker_step; simpl; by rewrite Hl).
      assert (Hsame : ∀ (nt : Notification.t nat) (k : nat),
                foldl (λ nt _, nt) nt (seq k workers) = nt).
      { intros nt. induction workers as [|n IH]; intros k; simpl; [done|]. apply IH. }
      rewrite !Hsame.
      unfold p0, Threads.new, m. rewrite client_submits. simpl length. simpl app.
      rewrite run_work. fold m. fold p1.
      rewrite (sweep_all Worker.SawEmpty Worker.Parked (λ w nt, Notification.wait w nt)
                 p1 workers)
        by (intros w nt l Hl; unfold Worker.worker_step; simpl; by rewrite Hl).
      unfold Notification.new. by rewrite waits_in_turn.
    + intros sched. destruct arr as [|x arr]; [done|].
      apply (all_parked_stuck func sched 0 _ [] _ workers); [done|].
      reflexivity.
Qed.
End WorkerFacts.

(** [map(square, [1, 2, 3])] on a new pool of four workers: on one run
    the workers look at the deque after the items were submitted and
    [map] returns the squares; on another no thread can move any more
    and [map] has not returned. *)
Lemma Pool_map_keeps_order_but_can_hang_witness :
  (Worker.run square
     (replicate 4 Worker.Client ++ replicate 12 (Worker.Work 0) ++ replicate 4 Worker.Client)
     (Threads.Submitting [1; 2; 3] [], Worker.new 4)).1
  = Threads.Returned [Some 1; Some 4; Some 9]
  ∧ ∃ stuck : Worker.t nat nat,
      Worker.run square (Worker.lost_wakeup 4 3)
                 (Threads.Submitting [1; 2; 3] [], Worker.new 4)
      = (Threads.Joining [0; 1; 2] [], stuck)
      ∧ ∀ sched : list Worker.step,
          Worker.run square sched (Threads.Joining [0; 1; 2] [], stuck)
          = (Threads.Joining [0; 1; 2] [], stuck).
Proof.
  split; [reflexivity|].
  destruct (proj2 (proj2 (proj2 (proj2 (Pool_map_keeps_order_but_can_hang square [1; 2; 3]))))
              ltac:(discriminate) 4) as (stuck & Hrun & _ & _ & Hstuck).
  exists stuck. split; [exact Hrun | exact Hstuck].
Defined.


(** ** Group: names *)

Lemma split_slash_nonempty (s : string) : split_slash s ≠ [].
Proof.
  destruct s as [|c s]; simpl; [done|].
  destruct (Ascii.eqb c "/"); [done|]. by destruct (split_slash s).
Qed.

Lemma split_slash_app (s t : string) :
  split_slash (s +:+ String "/" t) = split_slash s ++ split_slash t.
Proof.
  induction s as [|c s IH]; simpl; [done|].
  destruct (Ascii.eqb c "/"); [by rewrite IH|].
  rewrite IH. pose proof (split_slash_nonempty s).
  by destruct (split_slash s).
Qed.

Lemma split_slash_free (s : string) : slash_free s → split_slash s = [s].
Proof.
  induction s as [|c s IH]; simpl; [done|]. intros [Hc Hs].
  destruct (Ascii.eqb_spec c "/"); [done|]. by rewrite IH.
Qed.

Lemma split_slash_all_free (s : string) : Forall slash_free (split_slash s).
Proof.
  induction s as [|c s IH]; simpl; [by constructor|].
  destruct (Ascii.eqb_spec c "/") as [->|Hc]; [by constructor|].
  destruct (split_slash s) as [|seg segs]; [by repeat constructor|].
  apply Forall_cons in IH as [Hseg Hsegs]. by repeat constructor.
Qed.

Lemma canonical_parts_segments (nm : string) : Forall segment (canonical_parts nm).
Proof.
  unfold canonical_parts. apply Forall_forall. intros seg [Hne Hin]%list_elem_of_filter.
  split; [done|]. pose proof (split_slash_all_free nm) as Hall.
  by eapply Forall_forall in Hall.
Qed.

Lemma split_join (parts : list string) :
  parts ≠ [] → Forall slash_free parts → split_slash (join_slash parts) = parts.
Proof.
  induction parts as [|p parts IH]; [done|]. intros _ Hall.
  apply Forall_cons in Hall as [Hp Hparts].
  destruct parts as [|q parts].
  - by apply split_slash_free.
  - change (join_slash (p :: q :: parts))
      with (p +:+ String "/" (join_slash (q :: parts))).
    rewrite split_slash_app, split_slash_free by done.
    by rewrite IH.
Qed.

(** The parts of a joined list of segments are the segments. *)
Lemma canonical_parts_join (parts : list string) :
  Forall segment parts → canonical_parts (join_slash parts) = parts.
Proof.
  intros Hall. unfold canonical_parts.
  destruct parts as [|p parts]; [done|].
  rewrite split_join; [|done|by eapply Forall_impl; [done|intros ? []]].
  induction Hall as [|seg segs [Hne ?] Hsegs IH]; [done|].
  by rewrite filter_cons_True, IH.
Qed.

(** Canonicalisation is idempotent. *)
Lemma canonical_idempotent (nm : string) : canonical (canonical nm) = canonical nm.
Proof.
  unfold canonical at 1 3. f_equal.
  apply canonical_parts_join, canonical_parts_segments.
Qed.

(** The name of the wildcard parent has the parts of the prefix
    followed by ["..."]. *)
Lemma canonical_parts_wildcard (parts : list string) :
  Forall segment parts →
  canonical_parts (join_slash parts +:+ "/...") = parts ++ ["..."%string].
Proof.
  intros Hall. unfold canonical_parts.
  change (join_slash parts +:+ "/...") with (join_slash parts +:+ String "/" "...").
  rewrite split_slash_app, filter_app.
  fold (canonical_parts (join_slash parts)). by rewrite canonical_parts_join.
Qed.

(** ** Group: construction *)

Section GroupFacts.
Context {C : Type}.
Implicit Types (w : World C) (nm : string).

Lemma grows_refl w : grows w w.
Proof. by split. Qed.

Lemma grows_trans w1 w2 w3 : grows w1 w2 → grows w2 w3 → grows w1 w3.
Proof. intros [H12 ?] [H23 ?]. split; [by rewrite H23|lia]. Qed.

Lemma grows_add_child (g child : nat) w : grows w (add_child g child w).
Proof. split; [done|]. simpl. by rewrite length_alter. Qed.

Lemma grows_set_parent (g p : nat) w : grows w (set_parent g p w).
Proof. split; [done|]. simpl. by rewrite length_alter. Qed.

Lemma for_each_exec_rel {S X : Type} (R : S → S → Prop) (body : X → S → exec S unit)
    (xs : list X) (s s' : S) (u : unit) :
  (∀ s, R s s) → (∀ s1 s2 s3, R s1 s2 → R s2 s3 → R s1 s3) →
  (∀ x s1 u' s2, body x s1 = Ok u' s2 → R s1 s2) →
  for_each_exec body xs s = Ok u s' → R s s'.
Proof.
  intros Hrefl Htrans Hbody. revert s.
  induction xs as [|x xs IH]; intros s Hrun; simpl in Hrun.
  - by injection Hrun as _ <-.
  - destruct (body x s) as [u1 s1| |] eqn:Hx; try done.
    eapply Htrans; [by eapply Hbody | by apply IH].
Qed.

(** [Group(name)] outside the interning table makes a new object. *)
Lemma Group_new_grows (fuel : nat) nm w (g : nat) w' :
  Group_new fuel nm w = Ok g w' →
  grows w w'
  ∧ (groups w !! nm = None → g = length (heap w) ∧ g < length (heap w')).
Proof.
  revert nm w g w'. induction fuel as [|fuel IH]; intros nm w g w' Hnew; [done|].
  simpl in Hnew.
  destruct (groups w !! nm) as [g0|] eqn:Hlook.
  { injection Hnew as <- <-. split; [apply grows_refl | done]. }
  set (self := length (heap w)) in *.
  set (parts := canonical_parts nm) in *.
  set (w1 := set_heap (heap w ++ [mkGroup (join_slash parts) None []]) w) in *.
  assert (Hw1 : grows w w1 ∧ self < length (heap w1)).
  { unfold grows, w1, self. simpl. rewrite length_app. simpl. split; [split|]; [done|lia|lia]. }
  destruct Hw1 as [Hw1 Hself].
  match type of Hnew with
  | match ?loop with _ => _ end = _ => destruct loop as [u w2| |] eqn:Hloop; try done
  end.
  assert (Hw12 : grows w1 w2).
  { eapply (for_each_exec_rel grows); [apply grows_refl | apply grows_trans | | exact Hloop].
    intros idx s1 u' s2 Hlink. cbv beta in Hlink.
    destruct (Group_new fuel (join_slash (take idx parts)) s1) as [g1 s1'| |] eqn:Hg1;
      try done.
    injection Hlink as _ <-.
    eapply grows_trans; [by eapply IH | apply grows_add_child]. }
  assert (Hw2 : grows w w2 ∧ self < length (heap w2)).
  { split; [by eapply grows_trans|]. destruct Hw12 as [_ ?]. lia. }
  destruct Hw2 as [Hw2 Hself2].
  destruct (last parts) as [lst|]; [|done].
  destruct ((1 <? length parts) && negb (bool_decide (lst = "..."%string))).
  - destruct (Group_new fuel _ w2) as [p w3| |] eqn:Hp; try done.
    injection Hnew as <- <-.
    destruct (IH _ _ _ _ Hp) as [Hw23 _].
    assert (Hw3 : grows w (set_parent self p w3)).
    { eapply grows_trans; [exact Hw2|]. eapply grows_trans; [exact Hw23|].
      apply grows_set_parent. }
    split; [done|]. intros _. split; [done|].
    destruct Hw23 as [_ ?]. simpl. rewrite length_alter. lia.
  - injection Hnew as <- <-. split; [done|]. by intros _.
Qed.

(** C6.  [Group.groups] is never written: starting from an empty
    table, two constructions with the same name return two different
    objects, and the table is still empty afterwards. *)
Theorem Group_same_name_distinct_objects (fuel1 fuel2 : nat) nm w (g1 g2 : nat) w1 w2 :
  groups w = ∅ →
  Group_new fuel1 nm w = Ok g1 w1 →
  Group_new fuel2 nm w1 = Ok g2 w2 →
  g1 ≠ g2 ∧ groups w2 = ∅.
Proof.
  intros Hempty H1 H2.
  destruct (Group_new_grows _ _ _ _ _ H1) as [[Hg1 _] Hfresh1].
  destruct (Group_new_grows _ _ _ _ _ H2) as [[Hg2 _] Hfresh2].
  rewrite Hempty in Hg1. rewrite Hg1 in Hg2.
  destruct Hfresh1 as [_ Hlt]; [by rewrite Hempty, lookup_empty|].
  destruct Hfresh2 as [-> _]; [by rewrite Hg1, lookup_empty|].
  split; [lia|done].
Qed.
End GroupFacts.


(** ** Group: the heap the constructor builds *)

Section ConstructorFacts.
Context {C : Type}.
Implicit Types (w : World C) (nm : string).

Lemma for_each_exec_inv {S X : Type} (I : S → Prop) (R : S → S → Prop)
    (body : X → S → exec S unit) (xs : list X) (s s' : S) (u : unit) :
  (∀ s, R s s) → (∀ s1 s2 s3, R s1 s2 → R s2 s3 → R s1 s3) →
  (∀ x s1 u' s2, I s1 → body x s1 = Ok u' s2 → I s2 ∧ R s1 s2) →
  I s → for_each_exec body xs s = Ok u s' → I s' ∧ R s s'.
Proof.
  intros Hrefl Htrans Hbody. revert s.
  induction xs as [|x xs IH]; intros s Hs Hrun; simpl in Hrun.
  - injection Hrun as _ <-. by split.
  - destruct (body x s) as [u1 s1| |] eqn:Hx; try done.
    destruct (Hbody _ _ _ _ Hs Hx) as [Hs1 Hr1].
    destruct (IH s1 Hs1 Hrun) as [Hs' Hr']. split; [done|]. by eapply Htrans.
Qed.

Lemma for_each_exec_total {S X : Type} (body : X → S → exec S unit) (xs : list X) (s : S) :
  (∀ x s, x ∈ xs → ∃ u s', body x s = Ok u s') →
  ∃ u s', for_each_exec body xs s = Ok u s'.
Proof.
  revert s. induction xs as [|x xs IH]; intros s Hbody; simpl; [eauto|].
  destruct (Hbody x s) as (u & s1 & ->); [apply elem_of_cons; by left|].
  apply IH. intros y s2 Hy. apply Hbody. apply elem_of_cons; by right.
Qed.

Lemma extends_refl w : extends w w.
Proof. split; [done|]. split; [done|]. eauto. Qed.

Lemma extends_trans w1 w2 w3 : extends w1 w2 → extends w2 w3 → extends w1 w3.
Proof.
  intros (Hg12 & Hl12 & Ho12) (Hg23 & Hl23 & Ho23).
  split; [by rewrite Hg23|]. split; [lia|].
  intros i o Hi. destruct (Ho12 i o Hi) as (o2 & Hi2 & Hn2 & Hp2).
  destruct (Ho23 i o2 Hi2) as (o3 & Hi3 & Hn3 & Hp3).
  exists o3. split; [done|]. split; congruence.
Qed.

Lemma extends_add_child (g child : nat) w : extends w (add_child g child w).
Proof.
  split; [done|]. split; [simpl; by rewrite length_alter|].
  intros i o Hi. simpl. rewrite list_lookup_alter, Hi.
  destruct (decide (g = i)) as [->|]; [|eauto].
  rewrite Hi. simpl. eauto.
Qed.

Lemma constructed_add_child (g child : nat) w :
  constructed w → constructed (add_child g child w).
Proof.
  intros (Hg & Hp1 & Hp2).
  assert (Hback : ∀ i o', heap (add_child g child w) !! i = Some o' →
            ∃ o, heap w !! i = Some o ∧ name o' = name o ∧ parent o' = parent o).
  { intros i o'. simpl. rewrite list_lookup_alter.
    destruct (decide (g = i)) as [->|]; [|eauto].
    destruct (heap w !! i) as [o|]; [|done]. simpl. intros [= <-]. eauto. }
  split; [done|]. split.
  - intros i o' p Hi' Hpar. destruct (Hback i o' Hi') as (o & Hi & _ & Hpo).
    rewrite Hpo in Hpar. destruct (Hp1 i o p Hi Hpar) as (op & Hop & Hwild).
    destruct (extends_add_child g child w) as (_ & _ & Hfwd).
    destruct (Hfwd p op Hop) as (op' & Hop' & Hn & _).
    exists op'. split; [done|]. by rewrite Hn.
  - intros i o' Hi' Hwild. destruct (Hback i o' Hi') as (o & Hi & Hn & Hpo).
    rewrite Hpo. apply (Hp2 i o Hi). by rewrite <- Hn.
Qed.

Lemma wild_name_join (parts : list string) :
  Forall segment parts → wild_name (join_slash parts) ↔ last parts = Some "..."%string.
Proof. intros Hall. unfold wild_name. by rewrite canonical_parts_join. Qed.

(** From a constructed world, [Group(name)] gives a constructed world
    in which the old objects have kept their name and parent, and
    returns a new object named by the canonical name. *)
Lemma Group_new_constructed (fuel : nat) nm w (g : nat) w' :
  constructed w → Group_new fuel nm w = Ok g w' →
  constructed w' ∧ extends w w'
  ∧ g = length (heap w)
  ∧ ∃ o, heap w' !! g = Some o ∧ name o = canonical nm.
Proof.
  revert nm w g w'. induction fuel as [|fuel IH]; intros nm w g w' Hcon Hnew; [done|].
  simpl in Hnew. pose proof Hcon as (Hgroups & Hp1 & Hp2).
  rewrite Hgroups, lookup_empty in Hnew.
  set (self := length (heap w)) in *.
  pose proof (canonical_parts_segments nm) as Hsegs.
  set (parts := canonical_parts nm) in *.
  set (obj := mkGroup (join_slash parts) None []) in *.
  set (w1 := set_heap (heap w ++ [obj]) w) in *.
  assert (Hext1 : extends w w1).
  { split; [done|]. split; [simpl; rewrite length_app; lia|].
    intros i o Hi. exists o. split; [|done]. simpl.
    by rewrite lookup_app_l by (by apply lookup_lt_Some in Hi). }
  assert (Hself1 : heap w1 !! self = Some obj).
  { simpl. by rewrite lookup_app_r, Nat.sub_diag by done. }
  assert (Hcon1 : constructed w1).
  { split; [done|]. split.
    - intros i o p Hi Hpar. simpl in Hi.
      apply lookup_app_Some in Hi as [Hi|[_ Hi]].
      + destruct (Hp1 i o p Hi Hpar) as (op & Hop & Hwild).
        destruct Hext1 as (_ & _ & Hfwd). destruct (Hfwd p op Hop) as (op' & ? & Hn & _).
        exists op'. split; [done|]. by rewrite Hn.
      + apply list_lookup_singleton_Some in Hi as [_ <-]. done.
    - intros i o Hi Hwild. simpl in Hi.
      apply lookup_app_Some in Hi as [Hi|[_ Hi]]; [by eapply Hp2|].
      by apply list_lookup_singleton_Some in Hi as [_ <-]. }
  match type of Hnew with
  | match ?loop with _ => _ end = _ => destruct loop as [u w2| |] eqn:Hloop; try done
  end.
  assert (constructed w2 ∧ extends w1 w2) as [Hcon2 Hext12].
  { eapply (for_each_exec_inv constructed extends);
      [apply extends_refl | apply extends_trans | | exact Hcon1 | exact Hloop].
    intros idx s1 u' s2 Hs1 Hlink. cbv beta in Hlink.
    destruct (Group_new fuel (join_slash (take idx parts)) s1) as [g1 s1'| |] eqn:Hg1;
      try done.
    injection Hlink as _ <-.
    destruct (IH _ _ _ _ Hs1 Hg1) as (Hc & He & _).
    split; [by apply constructed_add_child|].
    eapply extends_trans; [exact He | apply extends_add_child]. }
  destruct (Hext12) as (_ & Hlen12 & Hfwd12).
  destruct (Hfwd12 self obj Hself1) as (obj2 & Hself2 & Hname2 & Hpar2).
  assert (Hext2 : extends w w2) by (by eapply extends_trans).
  destruct (last parts) as [lst|] eqn:Hlast; [|done].
  destruct ((1 <? length parts) && negb (bool_decide (lst = "..."%string))) eqn:Hcond.
  - destruct (Group_new fuel _ w2) as [p w3| |] eqn:Hp; try done.
    injection Hnew as <- <-.
    destruct (IH _ _ _ _ Hcon2 Hp) as (Hcon3 & Hext23 & Hpfresh & op & Hop & Hopname).
    destruct Hext23 as (Hg23 & Hlen23 & Hfwd23).
    destruct (Hfwd23 self obj2 Hself2) as (obj3 & Hself3 & Hname3 & Hpar3).
    assert (Hne : self ≠ p).
    { apply lookup_lt_Some in Hself2. lia. }
    apply andb_true_iff in Hcond as [_ Hnotwild].
    apply negb_true_iff, bool_decide_eq_false in Hnotwild.
    assert (Hsegs' : Forall segment (removelast parts)).
    { apply Forall_forall. intros seg Hin. eapply Forall_forall in Hsegs; [done|].
      apply list_elem_of_In. apply list_elem_of_In in Hin.
      destruct parts; [done|]. rewrite (app_removelast_last EmptyString) by done.
      apply in_or_app. by left. }
    assert (Hwildp : wild_name (name op)).
    { rewrite Hopname. unfold wild_name, canonical.
      rewrite canonical_parts_wildcard by done.
      rewrite canonical_parts_join, last_snoc; [done|].
      apply Forall_app. split; [done|]. by repeat constructor. }
    assert (Hback : ∀ i o', heap (set_parent self p w3) !! i = Some o' →
              ∃ o, heap w3 !! i = Some o ∧ name o' = name o
                   ∧ (i ≠ self → parent o' = parent o)
                   ∧ (i = self → parent o' = Some p)).
    { intros i o'. simpl. rewrite list_lookup_alter.
      destruct (decide (self = i)) as [<-|Hi].
      - rewrite Hself3. simpl. intros [= <-]. exists obj3. by repeat split.
      - intros Ho'. exists o'. repeat split; done. }
    assert (Hfwd : ∀ i o, heap w3 !! i = Some o → i ≠ self →
              heap (set_parent self p w3) !! i = Some o).
    { intros i o Hi Hi'. simpl. by rewrite list_lookup_alter_ne. }
    destruct Hcon3 as (Hgroups3 & Hp13 & Hp23).
    split; [|split; [|split]].
    + split; [done|]. split.
      * intros i o' q Hi' Hpar. destruct (Hback i o' Hi') as (o & Hi & _ & Hother & Hs).
        destruct (decide (i = self)) as [->|Hi''].
        -- rewrite (Hs eq_refl) in Hpar. injection Hpar as <-.
           exists op. split; [|done]. apply Hfwd; [done|]. congruence.
        -- rewrite (Hother Hi'') in Hpar.
           destruct (Hp13 i o q Hi Hpar) as (oq & Hoq & Hwq).
           exists oq. split; [|done]. apply Hfwd; [done|].
           intros ->. rewrite Hself3 in Hoq. injection Hoq as <-.
           rewrite Hname3, Hname2 in Hwq. simpl in Hwq.
           apply (wild_name_join parts Hsegs) in Hwq. congruence.
      * intros i o' Hi' Hwild. destruct (Hback i o' Hi') as (o & Hi & Hn & Hother & _).
        destruct (decide (i = self)) as [->|Hi''].
        -- rewrite Hself3 in Hi. injection Hi as <-.
           rewrite Hn, Hname3, Hname2 in Hwild. simpl in Hwild.
           apply (wild_name_join parts Hsegs) in Hwild. congruence.
        -- rewrite (Hother Hi''). apply (Hp23 i o Hi). by rewrite <- Hn.
    + destruct Hext2 as (Hg2 & Hlen2 & Hfwd2).
      split; [simpl; congruence|]. split; [simpl; rewrite length_alter; lia|].
      intros i o Hi. destruct (Hfwd2 i o Hi) as (o2 & Hi2 & Hn2 & Hpa2).
      destruct (Hfwd23 i o2 Hi2) as (o3 & Hi3 & Hn3 & Hpa3).
      exists o3. split; [|split; congruence].
      apply Hfwd; [done|]. apply lookup_lt_Some in Hi. unfold self. lia.
    + done.
    + simpl. rewrite list_lookup_alter_eq, Hself3. simpl.
      eexists. split; [done|]. simpl. by rewrite Hname3, Hname2.
  - injection Hnew as <- <-. split; [done|]. split; [done|]. split; [done|].
    exists obj2. split; [done|]. by rewrite Hname2.
Qed.

Lemma constructed_empty : constructed (@empty_world C).
Proof. split; [done|]. split; intros i o; simpl; by destruct i. Qed.

Lemma constructed_same_graph w w' : same_graph w w' → constructed w → constructed w'.
Proof. intros (Hg & Hh & _) (? & ? & ?). unfold constructed. by rewrite Hg, Hh. Qed.


(** With fuel for the parts of its name, and at least one part,
    [Group(name)] returns. *)
Lemma Group_new_total (fuel : nat) nm w :
  canonical_parts nm ≠ [] → ctor_fuel (canonical_parts nm) ≤ fuel →
  ∃ g w', Group_new fuel nm w = Ok g w'.
Proof.
  revert nm w. induction fuel as [|fuel IH]; intros nm w Hne Hfuel.
  { unfold ctor_fuel in Hfuel. lia. }
  simpl. destruct (groups w !! nm) as [g0|]; [eauto|].
  pose proof (canonical_parts_segments nm) as Hsegs.
  set (parts := canonical_parts nm) in *.
  set (w1 := set_heap _ w).
  assert (Hlenpos : 0 < length parts) by (destruct parts; [done|simpl; lia]).
  unfold ctor_fuel in Hfuel.
  destruct (for_each_exec_total
              (λ idx w0,
                 match Group_new fuel (join_slash (take idx parts)) w0 with
                 | Ok g w' => Ok () (add_child g (length (heap w)) w')
                 | Error e w' => Error e w'
                 | OutOfFuel => OutOfFuel
                 end)
              (seq 1 (length parts - 1)) w1) as (u & w2 & ->).
  { intros idx s [Hlo Hhi]%elem_of_seq.
    assert (Hsub : Forall segment (take idx parts)) by (by apply Forall_take).
    destruct (IH (join_slash (take idx parts)) s) as (g1 & s1 & ->); [| |eauto].
    - rewrite canonical_parts_join by done.
      intros Hnil. apply (f_equal length) in Hnil. rewrite length_take in Hnil.
      simpl in Hnil. lia.
    - rewrite canonical_parts_join by done. unfold ctor_fuel.
      rewrite length_take. case_decide; case_decide; lia. }
  destruct (last parts) as [lst|] eqn:Hlast.
  2:{ apply last_None in Hlast. done. }
  destruct ((1 <? length parts) && negb (bool_decide (lst = "..."%string))) eqn:Hcond;
    [|eauto].
  apply andb_true_iff in Hcond as [Hlen Hnotwild]. apply Nat.ltb_lt in Hlen.
  apply negb_true_iff, bool_decide_eq_false in Hnotwild.
  assert (Hsegs' : Forall segment (removelast parts)).
  { apply Forall_forall. intros seg Hin. eapply Forall_forall in Hsegs; [done|].
    apply list_elem_of_In. apply list_elem_of_In in Hin.
    rewrite (app_removelast_last EmptyString Hne). apply in_or_app. by left. }
  destruct (IH (join_slash (removelast parts) +:+ "/...") w2) as (p & w3 & ->); [| |eauto].
  - rewrite canonical_parts_wildcard by done. by destruct (removelast parts).
  - rewrite canonical_parts_wildcard by done. unfold ctor_fuel.
    rewrite last_snoc, length_app, removelast_firstn_len, length_take.
    rewrite decide_True by done.
    rewrite decide_False in Hfuel by congruence. simpl. lia.
Qed.

(** A name without parts makes the constructor raise, the object
    allocated. *)
Lemma Group_new_no_parts (fuel : nat) nm w :
  groups w = ∅ → canonical_parts nm = [] →
  Group_new (S fuel) nm w
  = Error IndexError (set_heap (heap w ++ [mkGroup EmptyString None []]) w).
Proof.
  intros Hg Hparts. simpl. by rewrite Hg, lookup_empty, Hparts.
Qed.
End ConstructorFacts.

(** ** Mailbox: inbox order *)

Section BusFacts.
Context {C : Type}.
Implicit Types (w : World C) (c : C) (msg : Message C) (mb : MailboxObj C)
  (exclude subs : list nat).

Lemma receive_messages msg mb : messages (receive msg mb) = msg :: messages mb.
Proof. done. Qed.

Lemma get_nonempty (me : nat) (older : Message C) (between : list (Message C))
    (nt : Notification.t nat) :
  get me (mkBox (between ++ [older]) nt) = Got older (mkBox between nt).
Proof.
  unfold get, get_tail. simpl.
  rewrite length_app, Nat.add_comm. simpl.
  by rewrite last_snoc, removelast_last.
Qed.

(** C5, as the code has it.  [send] puts a message at the left end of
    the inbox and [get] takes from the right end, so [get] returns the
    oldest message and a message delivered later is consumed after the
    ones delivered before it; on an empty inbox [get] joins the waiters
    of the arrival notification. *)
Theorem Mailbox_get_oldest_first (me : nat) (older newer : Message C)
    (between : list (Message C)) (nt : Notification.t nat) :
  get me (mkBox (between ++ [older]) nt) = Got older (mkBox between nt)
  ∧ get me (receive newer (mkBox (between ++ [older]) nt))
    = Got older (receive newer (mkBox between nt))
  ∧ get me (@mkBox C [] nt) = GetBlocked (mkBox [] (Notification.wait me nt)).
Proof.
  split; [apply get_nonempty|]. split; [|done].
  unfold receive. simpl.
  by rewrite (get_nonempty me older (newer :: between)).
Qed.

(** ** Mailbox.send: what it leaves alone *)

Lemma same_graph_refl w : same_graph w w.
Proof. done. Qed.

Lemma same_graph_trans w1 w2 w3 : same_graph w1 w2 → same_graph w2 w3 → same_graph w1 w3.
Proof. unfold same_graph. intros (-> & -> & -> & ->) (-> & -> & -> & ->). done. Qed.

Lemma same_graph_parent_of w w' g : same_graph w w' → parent_of w' g = parent_of w g.
Proof. intros (_ & Hh & _). unfold parent_of. by rewrite Hh. Qed.

Lemma same_graph_children_of w w' g : same_graph w w' → children_of w' g = children_of w g.
Proof. intros (_ & Hh & _). unfold children_of. by rewrite Hh. Qed.

Lemma deliveries_same_graph msg subs w :
  same_graph w (foldl (λ w box, deliver msg box w) w subs).
Proof.
  revert w. induction subs as [|box subs IH]; intros w; simpl; [done|].
  eapply same_graph_trans; [|apply IH]. done.
Qed.

Lemma consult_same_graph found c w : same_graph w (consult found c w).2.
Proof. by destruct found as [[g ext]|]. Qed.

Lemma for_each_invariant {S X : Type} (R : S → S → Prop) (body : X → S → option S)
    (xs : list X) (s s' : S) :
  (∀ s, R s s) → (∀ s1 s2 s3, R s1 s2 → R s2 s3 → R s1 s3) →
  (∀ x s1 s2, x ∈ xs → body x s1 = Some s2 → R s1 s2) →
  for_each body xs s = Some s' → R s s'.
Proof.
  intros Hrefl Htrans. revert s.
  induction xs as [|x xs IH]; intros s Hbody Hrun; simpl in *.
  - by injection Hrun as <-.
  - destruct (body x s) as [s1|] eqn:Hx; [|done].
    eapply Htrans.
    + eapply Hbody; [|done]. apply elem_of_cons; by left.
    + apply IH; [|done]. intros y s2 s3 Hy. apply Hbody. apply elem_of_cons; by right.
Qed.

Lemma send_same_graph (fuel : nat) g c exclude w w' :
  send fuel g c exclude w = Some w' → same_graph w w'.
Proof.
  revert g c exclude w w'.
  induction fuel as [|fuel IH]; intros g c exclude w w' Hsend; [done|].
  simpl in Hsend.
  destruct (decide (g ∈ exclude)); [by injection Hsend as <-|].
  destruct (chats w !! g) as [subscribers|]; [|by injection Hsend as <-].
  destruct (find_extension fuel (Some g) w) as [found|]; [|done]. simpl in Hsend.
  pose proof (consult_same_graph found c w) as Hw0.
  destruct (consult found c w) as [response w0]. simpl in Hw0.
  set (c' := data_transform response c) in *.
  match type of Hsend with (?m ≫= _) = _ => destruct m as [w3|] eqn:Hw3 end; [|done].
  simpl in Hsend.
  assert (same_graph w0 w3) as Hw03.
  { destruct (cancel response); [by injection Hw3 as <-|].
    set (w1 := foldl _ w0 subscribers) in *.
    assert (same_graph w0 w1) as Hw01 by apply deliveries_same_graph.
    match type of Hw3 with (?m ≫= _) = _ => destruct m as [w2|] eqn:Hw2 end; [|done].
    simpl in Hw3.
    assert (same_graph w1 w2) as Hw12.
    { destruct (parent_of w1 g) as [p|]; [|by injection Hw2 as <-].
      destruct (decide (p ∈ exclude)); [by injection Hw2 as <-|]. by eapply IH. }
    eapply same_graph_trans; [exact Hw01|]. eapply same_graph_trans; [exact Hw12|].
    eapply (for_each_invariant same_graph);
      [apply same_graph_refl | apply same_graph_trans | | exact Hw3].
    intros child s1 s2 _ Hbody. cbv beta in Hbody.
    destruct (decide (child ∈ exclude)); [by injection Hbody as <-|].
    exact (IH _ _ _ _ _ Hbody). }
  eapply same_graph_trans; [exact Hw0|]. eapply same_graph_trans; [exact Hw03|].
  eapply (for_each_invariant same_graph);
    [apply same_graph_refl | apply same_graph_trans | | exact Hsend].
  intros other s1 s2 _ Hbody. cbv beta in Hbody. exact (IH _ _ _ _ _ Hbody).
Qed.

(** ** Mailbox.send: termination *)



Lemma find_extension_same_graph w w' (fuel : nat) (cur : option nat) :
  same_graph w w' → find_extension fuel cur w' = find_extension fuel cur w.
Proof.
  intros Hsame. revert cur. induction fuel as [|fuel IH]; intros cur; [done|].
  simpl. destruct cur as [g|]; [|done].
  destruct Hsame as (_ & Hh & He & _). rewrite He.
  destruct (extensions w !! g); [done|].
  unfold parent_of. rewrite Hh. apply IH.
Qed.

Lemma consult_forward_free w found c :
  forward_free w → (∀ g ext, found = Some (g, ext) → extensions w !! g = Some ext) →
  forward_to (consult found c w).1 = [].
Proof.
  intros Hfree Hfound. destruct found as [[g ext]|]; [|done]. simpl.
  destruct (message_sent_in_group ext c) as [r|] eqn:Hr; [|done]. simpl.
  eapply Hfree; [|done]. by apply Hfound.
Qed.


Lemma forward_free_same_graph w w' : same_graph w w' → forward_free w → forward_free w'.
Proof.
  intros (_ & _ & He & _) Hfree g ext c r Hext. rewrite He in Hext. by eapply Hfree.
Qed.

Lemma chain_within_same_graph w w' d cur :
  same_graph w w' → chain_within w' d cur = chain_within w d cur.
Proof.
  intros Hsame. revert cur. induction d as [|d IH]; intros [g|]; simpl; try done.
  by rewrite (same_graph_parent_of w w' g Hsame).
Qed.









(** ** Mailbox.send: a group and its wildcard parent *)

Lemma send_S (fuel : nat) g c exclude w :
  send (S fuel) g c exclude w
  = if decide (g ∈ exclude) then Some w
    else
      match chats w !! g with
      | None => Some w
      | Some subscribers =>
          found ← find_extension fuel (Some g) w;
          let '(response, w0) := consult found c w in
          let c' := data_transform response c in
          w3 ← (if cancel response then Some w0
                else
                  let w1 := foldl (λ w box, deliver (mkMessage g c') box w) w0 subscribers in
                  w2 ← match parent_of w1 g with
                       | Some p =>
                           if decide (p ∈ exclude) then Some w1
                           else send fuel p c' (g :: exclude) w1
                       | None => Some w1
                       end;
                  for_each (λ child w,
                              if decide (child ∈ exclude) then Some w
                              else send fuel child c' (g :: exclude) w)
                           (children_of w2 g) w2);
          for_each (λ other w, send fuel other c' [g] w) (forward_to response) w3
      end.
Proof. reflexivity. Qed.

Lemma find_extension_none w (d fuel : nat) (cur : option nat) :
  extensions w = ∅ → chain_within w d cur = true → d < fuel →
  find_extension fuel cur w = Some None.
Proof.
  intros Hext. revert fuel cur.
  induction d as [|d IH]; intros [|fuel] cur Hchain Hfuel; try lia.
  - by destruct cur.
  - destruct cur as [g|]; simpl; [|done].
    rewrite Hext, lookup_empty. apply IH; [done|lia].
Qed.

Lemma inbox_deliver_eq msg (box : nat) w :
  box < length (boxes w) → inbox (deliver msg box w) box = msg :: inbox w box.
Proof.
  intros Hlt. unfold inbox, deliver. simpl.
  destruct (lookup_lt_is_Some_2 _ _ Hlt) as [mb Hmb].
  by rewrite list_lookup_alter_eq, Hmb.
Qed.

Lemma inbox_deliver_ne msg (box other : nat) w :
  box ≠ other → inbox (deliver msg box w) other = inbox w other.
Proof.
  intros Hne. unfold inbox, deliver. simpl.
  by rewrite list_lookup_alter_ne.
Qed.

Lemma boxes_length_deliver msg (box : nat) w :
  length (boxes (deliver msg box w)) = length (boxes w).
Proof. unfold deliver. simpl. apply length_alter. Qed.

(** One round of deliveries puts the message once into the inbox of
    each subscriber and into no other inbox. *)
Lemma inbox_deliveries msg subs w (box : nat) :
  NoDup subs → box < length (boxes w) →
  inbox (foldl (λ w b, deliver msg b w) w subs) box
  = if decide (box ∈ subs) then msg :: inbox w box else inbox w box.
Proof.
  revert w. induction subs as [|b subs IH]; intros w Hnd Hlt; simpl; [done|].
  apply NoDup_cons in Hnd as [Hb Hnd].
  rewrite IH by (by rewrite ?boxes_length_deliver).
  destruct (decide (b = box)) as [->|Hne].
  - rewrite decide_False by done. rewrite decide_True by (apply elem_of_cons; by left).
    by apply inbox_deliver_eq.
  - rewrite inbox_deliver_ne by done.
    destruct (decide (box ∈ subs)) as [Hin|Hnin].
    + by rewrite decide_True by (apply elem_of_cons; by right).
    + rewrite decide_False; [done|]. intros [->|?]%elem_of_cons; done.
Qed.

Lemma boxes_length_deliveries msg subs w :
  length (boxes (foldl (λ w b, deliver msg b w) w subs)) = length (boxes w).
Proof.
  revert w. induction subs as [|b subs IH]; intros w; simpl; [done|].
  by rewrite IH, boxes_length_deliver.
Qed.

(** A group [g] without children, its parent [p] without parent or
    children, no extension anywhere: [send] to [g] delivers at [g],
    then at [p], and stops. *)
Lemma send_two_levels (fuel : nat) g p c w subs_g subs_p :
  g ≠ p → parent_of w g = Some p → parent_of w p = None →
  children_of w g = [] → children_of w p = [] → extensions w = ∅ →
  chats w !! g = Some subs_g → chats w !! p = Some subs_p →
  send (4 + fuel) g c [] w
  = Some (foldl (λ w b, deliver (mkMessage p c) b w)
                (foldl (λ w b, deliver (mkMessage g c) b w) w subs_g) subs_p).
Proof.
  intros Hne Hpg Hpp Hcg Hcp Hext Hchg Hchp.
  change (4 + fuel) with (S (S (2 + fuel))).
  remember (2 + fuel) as fuel2 eqn:Hfuel2.
  remember (S fuel2) as fuel3 eqn:Hfuel3.
  rewrite send_S. rewrite decide_False by apply not_elem_of_nil. rewrite Hchg.
  rewrite (find_extension_none w 2) by (simpl; rewrite ?Hpg, ?Hpp; done || lia).
  cbn [mbind option_bind consult default_response cancel data_transform forward_to for_each].
  set (w1 := foldl _ w subs_g).
  assert (same_graph w w1) as Hw1 by apply deliveries_same_graph.
  rewrite (same_graph_parent_of w w1 g Hw1), Hpg.
  rewrite decide_False by apply not_elem_of_nil.
  rewrite Hfuel3, send_S.
  rewrite decide_False by (intros ?%list_elem_of_singleton; done).
  pose proof Hw1 as (Hg1 & Hh1 & He1 & Hc1).
  rewrite Hc1, Hchp.
  rewrite (find_extension_none w1 1);
    [| by rewrite He1
     | rewrite (chain_within_same_graph w w1) by done; simpl; by rewrite Hpp
     | lia ].
  cbn [mbind option_bind consult default_response cancel data_transform forward_to for_each].
  set (w2 := foldl _ w1 subs_p).
  assert (same_graph w w2) as Hw2
    by (eapply same_graph_trans; [exact Hw1 | apply deliveries_same_graph]).
  rewrite (same_graph_parent_of w w2 p Hw2), Hpp.
  cbn [mbind option_bind].
  rewrite (same_graph_children_of w w2 p Hw2), Hcp.
  cbn [mbind option_bind for_each].
  rewrite (same_graph_children_of w w2 g Hw2), Hcg. done.
Qed.

Lemma set_add_discard_fresh (box : nat) : set_discard box (set_add box []) = [].
Proof.
  unfold set_add, set_discard. rewrite decide_False by apply not_elem_of_nil. simpl.
  rewrite filter_cons_False; [done|]. intros Hbox. by apply Hbox.
Qed.

(** C2, as the code has it.  Upward propagation follows the [parent]
    attribute: the parent of a group is the wildcard object made for it,
    and that object has no parent.  A mailbox subscribed to that very
    object receives the message exactly once, tagged with the wildcard
    group, and the subscriber of the group itself receives it once. *)
Theorem send_reaches_wildcard_subscriber_once (fuel : nat) g p c w subs_g subs_p
    (M N : nat) :
  g ≠ p → parent_of w g = Some p → parent_of w p = None →
  children_of w g = [] → children_of w p = [] → extensions w = ∅ →
  chats w !! g = Some subs_g → chats w !! p = Some subs_p →
  NoDup subs_g → NoDup subs_p →
  M ∈ subs_p → M ∉ subs_g → N ∈ subs_g → N ∉ subs_p →
  M < length (boxes w) → N < length (boxes w) →
  ∃ w', send (4 + fuel) g c [] w = Some w'
        ∧ inbox w' M = mkMessage p c :: inbox w M
        ∧ inbox w' N = mkMessage g c :: inbox w N.
Proof.
  intros Hne Hpg Hpp Hcg Hcp Hext Hchg Hchp Hndg Hndp HMp HMg HNg HNp HM HN.
  eexists. split; [by apply send_two_levels|].
  rewrite !inbox_deliveries by (by rewrite ?boxes_length_deliveries).
  rewrite (decide_True _ _ HMp), (decide_False _ _ HMg).
  rewrite (decide_False _ _ HNp), (decide_True _ _ HNg). done.
Qed.

Lemma plain_same_graph w w' (x : nat) : same_graph w w' → plain w x → plain w' x.
Proof.
  intros Hsame (Hp & Hc & He). pose proof Hsame as (_ & _ & Hext & _).
  split; [by rewrite (same_graph_parent_of w w' x Hsame)|].
  split; [by rewrite (same_graph_children_of w w' x Hsame)|]. by rewrite Hext.
Qed.

(** On a plain group [send] delivers to the subscribers and stops. *)
Lemma send_plain (fuel : nat) (x : nat) c exclude w :
  plain w x → x ∉ exclude →
  send (3 + fuel) x c exclude w
  = Some (deliveries (mkMessage x c) (default [] (chats w !! x)) w).
Proof.
  intros (Hp & Hc & He) Hex.
  change (3 + fuel) with (S (S (S fuel))). rewrite send_S.
  rewrite decide_False by done.
  destruct (chats w !! x) as [subscribers|] eqn:Hchat; [|done].
  assert (find_extension (S (S fuel)) (Some x) w = Some None) as ->
    by (simpl; by rewrite He, Hp).
  cbn [mbind option_bind consult default_response cancel data_transform forward_to for_each
       default].
  fold (deliveries (mkMessage x c) subscribers w).
  set (w1 := deliveries _ subscribers w).
  assert (same_graph w w1) as Hw1 by apply deliveries_same_graph.
  rewrite (same_graph_parent_of w w1 x Hw1), Hp.
  cbn [mbind option_bind].
  by rewrite (same_graph_children_of w w1 x Hw1), Hc.
Qed.

Lemma broadcast_same_graph c (xs : list nat) w : same_graph w (broadcast c xs w).
Proof.
  revert w. induction xs as [|x xs IH]; intros w; [done|].
  unfold broadcast. simpl. fold (broadcast c xs).
  eapply same_graph_trans; [|apply IH]. apply deliveries_same_graph.
Qed.

(** A loop of [send] over plain groups is a broadcast. *)
Lemma for_each_plain (body : nat → World C → option (World C)) c (xs : list nat) w s :
  same_graph w s →
  (∀ x s', x ∈ xs → same_graph w s' →
     body x s' = Some (deliveries (mkMessage x c) (default [] (chats s' !! x)) s')) →
  for_each body xs s = Some (broadcast c xs s).
Proof.
  revert s. induction xs as [|x xs IH]; intros s Hs Hbody; [done|].
  simpl. rewrite Hbody by (done || apply elem_of_cons; by left).
  unfold broadcast. simpl. fold (broadcast c xs).
  apply IH.
  - eapply same_graph_trans; [exact Hs | apply deliveries_same_graph].
  - intros y s' Hy. apply Hbody. apply elem_of_cons. by right.
Qed.

(** [send] only adds to the record of policy calls. *)
Lemma send_policy_calls (fuel : nat) (g : nat) c exclude w w' :
  send fuel g c exclude w = Some w' → policy_calls w `prefix_of` policy_calls w'.
Proof.
  revert g c exclude w w'.
  induction fuel as [|fuel IH]; intros g c exclude w w' Hsend; [done|].
  rewrite send_S in Hsend.
  destruct (decide (g ∈ exclude)); [by injection Hsend as <-|].
  destruct (chats w !! g) as [subscribers|]; [|by injection Hsend as <-].
  destruct (find_extension fuel (Some g) w) as [found|]; [|done]. simpl in Hsend.
  assert (policy_calls w `prefix_of` policy_calls (consult found c w).2) as Hw0.
  { destruct found as [[ge ext]|]; [|done]. simpl. by apply prefix_app_r. }
  destruct (consult found c w) as [response w0]. simpl in Hw0.
  assert (Hdeliveries : ∀ msg subs s, policy_calls (foldl (λ w box, deliver msg box w) s subs)
                                      = policy_calls s).
  { intros msg subs. induction subs as [|b subs IHs]; intros s; [done|]. simpl.
    by rewrite IHs. }
  match type of Hsend with (?m ≫= _) = _ => destruct m as [w3|] eqn:Hw3 end; [|done].
  simpl in Hsend.
  assert (policy_calls w0 `prefix_of` policy_calls w3) as Hw03.
  { destruct (cancel response); [by injection Hw3 as <-|].
    match type of Hw3 with (?m ≫= _) = _ => destruct m as [w2|] eqn:Hw2 end; [|done].
    simpl in Hw3.
    assert (policy_calls w0 `prefix_of` policy_calls w2) as Hw02.
    { rewrite <- (Hdeliveries (mkMessage g (data_transform response c))
                              subscribers w0).
      destruct (parent_of _ g) as [p|]; [|by injection Hw2 as <-].
      destruct (decide (p ∈ exclude)); [by injection Hw2 as <-|]. by eapply IH. }
    etrans; [exact Hw02|].
    eapply (for_each_invariant (λ s s' : World C, policy_calls s `prefix_of` policy_calls s'));
      [done | by intros ???; etrans | | exact Hw3].
    intros child s1 s2 _ Hbody. cbv beta in Hbody.
    destruct (decide (child ∈ exclude)); [by injection Hbody as <-|].
    exact (IH _ _ _ _ _ Hbody). }
  etrans; [exact Hw0|]. etrans; [exact Hw03|].
  eapply (for_each_invariant (λ s s' : World C, policy_calls s `prefix_of` policy_calls s'));
    [done | by intros ???; etrans | | exact Hsend].
  intros other s1 s2 _ Hbody. exact (IH _ _ _ _ _ Hbody).
Qed.

(** A [send] that passes the two early returns keeps the call of the
    policy in the record. *)
Lemma send_consults (fuel : nat) (g : nat) found c exclude w subs w' :
  chats w !! g = Some subs → g ∉ exclude →
  find_extension fuel (Some g) w = Some found →
  send (S fuel) g c exclude w = Some w' →
  policy_calls (consult found c w).2 `prefix_of` policy_calls w'.
Proof.
  intros Hchat Hex Hfind Hsend.
  rewrite send_S, decide_False, Hchat, Hfind in Hsend by done.
  cbn [mbind option_bind] in Hsend.
  destruct (consult found c w) as [response w0]. cbn [snd].
  assert (Hdeliveries : ∀ msg subs s,
            policy_calls (foldl (λ w box, deliver msg box w) s subs) = policy_calls s).
  { intros msg subs'. induction subs' as [|b subs' IHs]; intros s; [done|]. simpl.
    by rewrite IHs. }
  match type of Hsend with (?m ≫= _) = _ => destruct m as [w3|] eqn:Hw3 end; [|done].
  simpl in Hsend.
  assert (policy_calls w0 `prefix_of` policy_calls w3) as Hw03.
  { destruct (cancel response); [by injection Hw3 as <-|].
    match type of Hw3 with (?m ≫= _) = _ => destruct m as [w2|] eqn:Hw2 end; [|done].
    simpl in Hw3.
    assert (policy_calls w0 `prefix_of` policy_calls w2) as Hw02.
    { rewrite <- (Hdeliveries (mkMessage g (data_transform response c)) subs w0).
      destruct (parent_of _ g) as [p|]; [|by injection Hw2 as <-].
      destruct (decide (p ∈ exclude)); [by injection Hw2 as <-|].
      by eapply send_policy_calls. }
    etrans; [exact Hw02|].
    eapply (for_each_invariant (λ s s' : World C, policy_calls s `prefix_of` policy_calls s'));
      [done | by intros ???; etrans | | exact Hw3].
    intros child s1 s2 _ Hbody. cbv beta in Hbody.
    destruct (decide (child ∈ exclude)); [by injection Hbody as <-|].
    by eapply send_policy_calls. }
  etrans; [exact Hw03|].
  eapply (for_each_invariant (λ s s' : World C, policy_calls s `prefix_of` policy_calls s'));
    [done | by intros ???; etrans | | exact Hsend].
  intros other s1 s2 _ Hbody. exact (send_policy_calls _ _ _ _ _ _ Hbody).
Qed.

(** C10.  A group that is not a key of the subscription table makes
    [send] return at once with the world untouched: no inbox changes
    and no policy is called.  A group whose key is there goes on,
    empty subscriber set or not.  After [subscribe] and [unsubscribe]
    the key is there with an empty set and nothing else has changed.
    For a key that is there the policy of the nearest extension is
    called with the content, whatever the graph.  And with the
    extension on the group itself, a parent, any children and any
    forward targets that are plain groups, [send] delivers the
    transformed content to the subscribers of the group, of its
    parent, of every child and of every forward target, in this
    order. *)
Theorem send_returns_early_only_on_absent_key :
  (∀ (fuel : nat) g c exclude w,
     chats w !! g = None → send (S fuel) g c exclude w = Some w)
  ∧ (∀ (fuel : nat) g p c w subs_p (box m : nat),
       chats w !! g = None → chats w !! p = Some subs_p →
       g ≠ p → parent_of w g = Some p → parent_of w p = None →
       children_of w g = [] → children_of w p = [] → extensions w = ∅ →
       NoDup subs_p → m ∈ subs_p → m < length (boxes w) →
       ∃ w1 w2,
         _unsubscribe box g (_subscribe box g w) = inr w1
         ∧ chats w1 !! g = Some []
         ∧ send (4 + fuel) g c [] w1 = Some w2
         ∧ inbox w2 m = mkMessage p c :: inbox w m)
  ∧ (∀ (box g : nat) w,
       chats w !! g = None →
       ∃ w1, _unsubscribe box g (_subscribe box g w) = inr w1
             ∧ w1 = set_chats (<[g := []]> (chats w)) w)
  ∧ (∀ (fuel : nat) (g ge : nat) ext c exclude w subs_g w',
       chats w !! g = Some subs_g → g ∉ exclude →
       find_extension fuel (Some g) w = Some (Some (ge, ext)) →
       send (S fuel) g c exclude w = Some w' →
       ∃ later, policy_calls w' = policy_calls w ++ (ge, c) :: later)
  ∧ (∀ (fuel : nat) (g p : nat) ext c r w subs_g,
       chats w !! g = Some subs_g →
       extensions w !! g = Some ext → message_sent_in_group ext c = Some r →
       cancel r = false →
       parent_of w g = Some p →
       (∀ x, x ∈ p :: children_of w g ++ forward_to r → plain w x) →
       send (4 + fuel) g c [] w
       = Some (broadcast (data_transform r c) (forward_to r)
                 (broadcast (data_transform r c) (children_of w g)
                    (broadcast (data_transform r c) [p]
                       (deliveries (mkMessage g (data_transform r c)) subs_g
                          (with_call g c w)))))).
Proof.
  split; [|split; [|split; [|split]]].
  - intros fuel g c exclude w Habsent. rewrite send_S, Habsent.
    by destruct (decide (g ∈ exclude)).
  - intros fuel g p c w subs_p box m Hg Hp Hne Hpg Hpp Hcg Hcp Hext Hnd Hm Hlt.
    set (w1 := set_chats (<[g := []]> (chats (_subscribe box g w))) (_subscribe box g w)).
    assert (Hun : _unsubscribe box g (_subscribe box g w) = inr w1).
    { unfold _unsubscribe, w1. unfold _subscribe at 1. simpl.
      rewrite lookup_insert_eq, Hg. simpl. by rewrite set_add_discard_fresh. }
    assert (Hsame : heap w1 = heap w ∧ extensions w1 = extensions w ∧ boxes w1 = boxes w)
      by done.
    destruct Hsame as (Hh & He & Hb).
    assert (Hg1 : chats w1 !! g = Some []) by (simpl; by rewrite lookup_insert_eq).
    assert (Hp1 : chats w1 !! p = Some subs_p)
      by (simpl; by rewrite !lookup_insert_ne).
    exists w1. eexists. split; [done|]. split; [done|]. split.
    + apply (send_two_levels fuel g p c w1 [] subs_p); try done.
    + cbn [foldl]. rewrite inbox_deliveries by (by rewrite ?Hb).
      rewrite decide_True by done. unfold inbox. by rewrite Hb.
  - intros box g w Hg. eexists. split; [|done].
    unfold _unsubscribe. unfold _subscribe at 1. simpl.
    rewrite lookup_insert_eq, Hg. simpl. rewrite set_add_discard_fresh.
    unfold set_chats, _subscribe. simpl. by rewrite insert_insert_eq.
  - intros fuel g ge ext c exclude w subs_g w' Hchat Hex Hfind Hsend.
    destruct (send_consults fuel g (Some (ge, ext)) c exclude w subs_g w' Hchat Hex Hfind Hsend)
      as [later Hlater].
    exists later. rewrite Hlater. simpl. by rewrite <- app_assoc.
  - intros fuel g p ext c r w subs_g Hchat Hext Hpol Hcancel Hpar Hplain.
    set (c' := data_transform r c).
    assert (Hleaf : ∀ x s, x ∈ p :: children_of w g ++ forward_to r → same_graph w s →
              send (3 + fuel) x c' [g] s
              = Some (deliveries (mkMessage x c') (default [] (chats s !! x)) s)).
    { intros x s Hx Hs. apply send_plain.
      - eapply plain_same_graph; [exact Hs|]. by apply Hplain.
      - intros ->%list_elem_of_singleton. destruct (Hplain g Hx) as (Hnone & _). congruence. }
    change (4 + fuel) with (S (3 + fuel)).
    remember (3 + fuel) as fuel3 eqn:Hfuel3.
    rewrite send_S. rewrite decide_False by apply not_elem_of_nil. rewrite Hchat.
    assert (find_extension fuel3 (Some g) w = Some (Some (g, ext))) as ->
      by (rewrite Hfuel3; simpl; by rewrite Hext).
    cbn [mbind option_bind consult]. rewrite Hpol. cbn [default]. unfold id.
    rewrite Hcancel. fold c'. fold (with_call g c w).
    fold (deliveries (mkMessage g c') subs_g (with_call g c w)).
    set (w1 := deliveries _ subs_g (with_call g c w)).
    assert (same_graph w w1) as Hw1.
    { eapply same_graph_trans; [|apply deliveries_same_graph]. done. }
    rewrite (same_graph_parent_of w w1 g Hw1), Hpar.
    rewrite decide_False by apply not_elem_of_nil.
    rewrite Hleaf by (done || apply elem_of_cons; by left).
    cbn [mbind option_bind].
    change (deliveries (mkMessage p c') (default [] (chats w1 !! p)) w1)
      with (broadcast c' [p] w1).
    set (w2 := broadcast c' [p] w1).
    assert (same_graph w w2) as Hw2
      by (eapply same_graph_trans; [exact Hw1 | apply broadcast_same_graph]).
    rewrite (same_graph_children_of w w2 g Hw2).
    rewrite (for_each_plain _ c' (children_of w g) w w2 Hw2).
    2:{ intros x s Hx Hs. rewrite decide_False by apply not_elem_of_nil.
        apply Hleaf; [|done]. apply elem_of_cons. right. apply elem_of_app. by left. }
    cbn [mbind option_bind].
    set (w3 := broadcast c' (children_of w g) w2).
    assert (same_graph w w3) as Hw3
      by (eapply same_graph_trans; [exact Hw2 | apply broadcast_same_graph]).
    apply (for_each_plain _ c' (forward_to r) w w3 Hw3).
    intros x s Hx Hs. apply Hleaf; [|done].
    apply elem_of_cons. right. apply elem_of_app. by right.
Qed.
End BusFacts.

(** ** Scenarios of the bus *)


(** C2, the claim as stated fails: M, subscribed to [a/b/c], receives
    nothing from a [send] to [a/b/c/d], whether the target is the
    object N subscribed to (N then receives the message) or a
    [Group("a/b/c/d")] made for the call (nobody receives it). *)
Lemma ancestor_subscriber_receives_nothing :
  ancestor_scenario_inboxes = Some ([], [mkMessage 12 "hello"], ([], [])).
Proof. vm_compute. reflexivity. Qed.

Lemma send_reaches_wildcard_subscriber_once_witness :
  ∃ w', send 4 0 "hello" [] wildcard_world = Some w'
        ∧ inbox w' 0 = mkMessage 18 "hello" :: inbox wildcard_world 0
        ∧ inbox w' 1 = mkMessage 0 "hello" :: inbox wildcard_world 1.
Proof.
  apply (send_reaches_wildcard_subscriber_once 0 0 18 "hello" wildcard_world [1] [0] 0 1);
    try (vm_compute; reflexivity); try (vm_compute; lia); try (by apply NoDup_singleton);
    try (by apply list_elem_of_singleton); intros ?%list_elem_of_singleton; lia.
Defined.

Lemma send_returns_early_only_on_absent_key_witness :
  send 1 0 "hello" [] hub_world = Some hub_world
  ∧ ∃ w1 w2,
      _unsubscribe 0 0 (_subscribe 0 0 hub_world) = inr w1
      ∧ chats w1 !! 0 = Some []
      ∧ send 4 0 "hello" [] w1 = Some w2
      ∧ inbox w2 0
        = [mkMessage 5 "hello!"; mkMessage 4 "hello!"; mkMessage 3 "hello!";
           mkMessage 2 "hello!"; mkMessage 1 "hello!"]
      ∧ policy_calls w2 = [(0, "hello")].
Proof.
  destruct (@send_returns_early_only_on_absent_key string)
    as (Habsent & _ & Hempty & _ & Hgoes_on).
  split.
  - apply (Habsent 0 0 "hello" [] hub_world). reflexivity.
  - destruct (Hempty 0 0 hub_world eq_refl) as (w1 & Hun & Hw1).
    exists w1. eexists. split; [exact Hun|]. rewrite Hw1.
    split; [reflexivity|]. split.
    + apply (Hgoes_on 0 0 1 (mark_and_forward [4; 5]) "hello"
               (mkResponse false [4; 5] (λ x, (x ++ "!")%string)) _ []);
        try reflexivity.
      intros x Hx. simpl in Hx.
      repeat (apply elem_of_cons in Hx as [->|Hx]; [by repeat split|]).
      by apply elem_of_nil in Hx.
    + split; reflexivity.
Defined.

Lemma Group_same_name_distinct_objects_witness :
  0 ≠ 1 ∧ groups (mkWorld (C := string) ∅ [mkGroup "a" None []; mkGroup "a" None []] ∅ ∅ [] []) = ∅.
Proof.
  apply (Group_same_name_distinct_objects 2 2 "a" empty_world 0 1
           (mkWorld ∅ [mkGroup "a" None []] ∅ ∅ [] [])); reflexivity.
Defined.

(** ** Forwarding without a cycle, and a diamond *)





(** ** A forward cycle *)




(** C5, the claim as stated fails: after "first" then "second" were
    sent to its group, the inbox holds both and [get] returns "first",
    not the most recent message. *)
Lemma get_returns_oldest_message :
  get 7 <$> two_deliveries
  = Some (Got (mkMessage 0 "first") (mkBox [mkMessage 0 "second"] Notification.new))
  ∧ mkMessage 0 "first" ≠ mkMessage 0 "second".
Proof. split; [vm_compute; reflexivity | discriminate]. Qed.

(** * Further properties *)

(** ** Notification: counts within the queue *)

Section NotificationMore.
Context {W : Type}.
Implicit Types (ws : list W).

(** X1. When the queue is empty, or the count is at most the number
    of waiters (a negative count included), [notify(count)] raises
    nothing, wakes the first [count] waiters in the order they
    enqueued and leaves the others queued in their order. *)
Theorem notify_within_waiters_fifo (count : Z) ws :
  ws = [] ∨ (count ≤ Z.of_nat (length ws))%Z →
  Notification.notify count (Notification.mk ws)
  = (None, take (Z.to_nat count) ws, Notification.mk (drop (Z.to_nat count) ws))
  ∧ length (take (Z.to_nat count) ws) = Z.to_nat count `min` length ws.
Proof.
  intros Hcount. split; [|apply length_take].
  destruct (Z.le_gt_cases count 0) as [Hneg|Hpos].
  - rewrite notify_negative by done.
    replace (Z.to_nat count) with 0 by lia. by rewrite take_0, drop_0.
  - rewrite <- (Z2Nat.id count) at 1 by lia.
    apply notify_enough. destruct Hcount as [->|Hle]; [by left|right; lia].
Qed.

(** X2. The two shorthands never raise: [notify_one] wakes the oldest
    waiter, if there is one, and [notify_all] wakes every waiter, oldest
    first, and empties the queue; a thread that waited on an empty
    queue is the one the next [notify_one] wakes. *)
Theorem notify_one_and_all_never_raise ws (me : W) :
  Notification.notify_one (Notification.mk ws)
  = (None, take 1 ws, Notification.mk (drop 1 ws))
  ∧ Notification.notify_all (Notification.mk ws) = (None, ws, Notification.mk [])
  ∧ Notification.notify_one (Notification.wait me (Notification.mk ws))
    = (None, take 1 (ws ++ [me]), Notification.mk (drop 1 (ws ++ [me]))).
Proof.
  assert (Hone : ∀ ws', Notification.notify_one (Notification.mk ws')
                        = (None, take 1 ws', Notification.mk (drop 1 ws'))).
  { intros ws'. unfold Notification.notify_one. change 1%Z with (Z.of_nat 1).
    apply notify_enough. destruct ws'; [by left|right; simpl; lia]. }
  split; [apply Hone|]. split; [apply notify_all_ok|]. apply Hone.
Qed.
End NotificationMore.

Lemma notify_within_waiters_fifo_witness :
  Notification.notify 2%Z (Notification.mk [5; 6; 7])
  = (None, [5; 6], Notification.mk [7])
  ∧ length [5; 6] = 2.
Proof.
  apply (notify_within_waiters_fifo 2%Z [5; 6; 7]). right. simpl. lia.
Defined.

(** ** Event *)

Lemma strict_mutex_laws : mutex_laws strict_mutex.
Proof.
  split; simpl.
  - done.
  - intros m ->. by exists true.
  - by intros m ->.
  - intros m ->. by exists false.
Qed.

Section EventFacts.
Context {M : Type} {mx : MutexLock M}.
Implicit Types (e : Event.t M).

Lemma lock_release_held (l : Lock.t M) :
  mutex_laws mx → Lock.locked l = true →
  ∃ l', Lock.release l = Done l' ∧ Lock.locked l' = false.
Proof.
  intros Hlaws Hheld. destruct l as [m].
  destruct (law_release_held mx Hlaws m Hheld) as (m' & Hrel & Hfree).
  exists (Lock.mk m'). unfold Lock.release. simpl. by rewrite Hrel.
Qed.

Lemma lock_acquire_free (l : Lock.t M) :
  mutex_laws mx → Lock.locked l = false →
  ∃ l', Lock.acquire l = Done l' ∧ Lock.locked l' = true.
Proof.
  intros Hlaws Hfree. destruct l as [m].
  destruct (law_acquire_free mx Hlaws m Hfree) as (m' & Hacq & Hheld).
  exists (Lock.mk m'). unfold Lock.acquire. simpl. by rewrite Hacq.
Qed.

Lemma lock_acquire_held (l : Lock.t M) :
  mutex_laws mx → Lock.locked l = true → Lock.acquire l = Blocked l.
Proof.
  intros Hlaws Hheld. destruct l as [m]. unfold Lock.acquire. simpl.
  by rewrite (law_acquire_held mx Hlaws m Hheld).
Qed.

Lemma event_new_unset :
  mutex_laws mx → ∃ e0 : Event.t M, Event.new = Done e0 ∧ Event.is_set e0 = false.
Proof.
  intros Hlaws. unfold Event.new.
  destruct (lock_acquire_free Lock.new Hlaws) as (l & -> & Hheld).
  { apply (law_new mx Hlaws). }
  exists (Event.mk l). split; [done|]. unfold Event.is_set. simpl. by rewrite Hheld.
Qed.

Lemma event_set_unset e :
  mutex_laws mx → Event.is_set e = false →
  ∃ e1, Event.set e = Done e1 ∧ Event.is_set e1 = true.
Proof.
  intros Hlaws Hunset. unfold Event.is_set in Hunset. apply negb_false_iff in Hunset.
  unfold Event.set. rewrite Hunset. simpl.
  destruct (lock_release_held _ Hlaws Hunset) as (l & -> & Hfree).
  exists (Event.mk l). split; [done|]. unfold Event.is_set. simpl. by rewrite Hfree.
Qed.

Lemma event_wait_set e :
  mutex_laws mx → Event.is_set e = true →
  ∃ e', Event.wait e = Done e' ∧ Event.is_set e' = true.
Proof.
  intros Hlaws Hset. unfold Event.is_set in Hset. apply negb_true_iff in Hset.
  unfold Event.wait.
  destruct (lock_acquire_free _ Hlaws Hset) as (l1 & -> & Hheld). simpl.
  destruct (lock_release_held _ Hlaws Hheld) as (l2 & -> & Hfree).
  exists (Event.mk l2). split; [done|]. unfold Event.is_set. simpl. by rewrite Hfree.
Qed.

Lemma event_wait_unset e :
  mutex_laws mx → Event.is_set e = false → Event.wait e = Blocked e.
Proof.
  intros Hlaws Hunset. unfold Event.is_set in Hunset. apply negb_false_iff in Hunset.
  unfold Event.wait. rewrite (lock_acquire_held _ Hlaws Hunset). by destruct e.
Qed.

(** X3. Over a mutex that keeps its laws an Event is a strict latch:
    it is made unset; [set] on an unset event sets it and [set] on a
    set event raises [RuntimeError] and changes nothing; [clear] on a
    set event unsets it and [clear] on an unset event raises
    [RuntimeError] and changes nothing. *)
Theorem Event_is_a_strict_latch :
  mutex_laws mx →
  (∃ e0 : Event.t M, Event.new = Done e0 ∧ Event.is_set e0 = false)
  ∧ (∀ e, Event.is_set e = false →
       Event.clear e = Raised RuntimeError e
       ∧ ∃ e1, Event.set e = Done e1 ∧ Event.is_set e1 = true)
  ∧ (∀ e, Event.is_set e = true →
       Event.set e = Raised RuntimeError e
       ∧ ∃ e2, Event.clear e = Done e2 ∧ Event.is_set e2 = false).
Proof.
  intros Hlaws. split; [by apply event_new_unset|]. split.
  - intros e Hunset. split; [|by apply event_set_unset].
    unfold Event.is_set in Hunset. apply negb_false_iff in Hunset.
    unfold Event.clear. by rewrite Hunset.
  - intros e Hset. unfold Event.is_set in Hset. apply negb_true_iff in Hset.
    split.
    + unfold Event.set. by rewrite Hset.
    + unfold Event.clear. rewrite Hset.
      destruct (lock_acquire_free _ Hlaws Hset) as (l & -> & Hheld).
      exists (Event.mk l). split; [done|]. unfold Event.is_set. simpl. by rewrite Hheld.
Qed.

(** X4. [Event.wait] on a set event returns and leaves the event
    set, so it can be waited for again; on an unset event it suspends
    the caller and changes nothing. *)
Theorem Event_wait_passes_when_set :
  mutex_laws mx →
  (∀ e, Event.is_set e = true →
     ∃ e', Event.wait e = Done e' ∧ Event.is_set e' = true)
  ∧ (∀ e, Event.is_set e = false → Event.wait e = Blocked e).
Proof.
  intros Hlaws. split; intros e He; [by apply event_wait_set | by apply event_wait_unset].
Qed.
End EventFacts.

Lemma Event_is_a_strict_latch_witness :
  (∃ e0 : Event.t bool, Event.new (mx := strict_mutex) = Done e0
                        ∧ Event.is_set (mx := strict_mutex) e0 = false).
Proof. exact (proj1 (Event_is_a_strict_latch (mx := strict_mutex) strict_mutex_laws)). Defined.

Lemma Event_wait_passes_when_set_witness :
  ∃ e', Event.wait (mx := strict_mutex) (Event.mk (Lock.mk false)) = Done e'
        ∧ Event.is_set (mx := strict_mutex) e' = true.
Proof.
  exact (proj1 (Event_wait_passes_when_set (mx := strict_mutex) strict_mutex_laws)
               (Event.mk (Lock.mk false)) eq_refl).
Defined.

(** ** Semaphore *)

Section SemaphoreFacts.
Context {W : Type}.
Implicit Types (s : Semaphore.t W) (me : W).

(** X5. A semaphore whose internal lock is free and that has at
    least as many permits as there are callers lets every one of them
    acquire, each taking one permit and leaving the lock free; and a
    [release] puts one permit back. *)
Theorem Semaphore_counts_permits (mes : list W) s :
  Semaphore._lock s = false →
  (Z.of_nat (length mes) ≤ Semaphore._remaining s)%Z →
  Semaphore.acquire_all mes s
  = Some (Semaphore.mk (Semaphore._remaining s - Z.of_nat (length mes))%Z false
                       (Semaphore._waiters s))
  ∧ (∃ woken s', Semaphore.release s = Semaphore.Released woken s'
                 ∧ Semaphore._remaining s' = (Semaphore._remaining s + 1)%Z
                 ∧ Semaphore._lock s' = false).
Proof.
  intros Hlock Hperm. split.
  - revert s Hlock Hperm. induction mes as [|me mes IH]; intros s Hlock Hperm.
    + simpl. destruct s; simpl in *. subst. f_equal. f_equal. lia.
    + simpl length in *. cbn [Semaphore.acquire_all]. unfold Semaphore.acquire.
      rewrite Hlock.
      replace (0 <? Semaphore._remaining s)%Z with true by (symmetry; apply Z.ltb_lt; lia).
      rewrite IH by (simpl; lia). simpl. do 2 f_equal. lia.
  - unfold Semaphore.release. rewrite Hlock.
    pose proof (notify_one_no_error (Semaphore._waiters s)) as Hno.
    destruct (Notification.notify_one (Semaphore._waiters s)) as [[e woken] waiters'].
    simpl in Hno. subst e. by eexists _, _.
Qed.

(** X6. A caller that finds no permit waits inside the [with] block
    of the internal lock.  From then on every [acquire] and every
    [release] of another thread stops at that lock: whatever they
    attempt, the state of the semaphore stays as the waiter left it,
    with the waiter queued and the permits unchanged. *)
Theorem Semaphore_waiter_holds_the_lock me s :
  Semaphore._lock s = false →
  (Semaphore._remaining s ≤ 0)%Z →
  let s' := Semaphore.mk (Semaphore._remaining s) true
                         (Notification.wait me (Semaphore._waiters s)) in
  Semaphore.acquire me s = Semaphore.AcquireWaiting s'
  ∧ Semaphore.release s' = Semaphore.ReleaseBlockedOnLock s'
  ∧ ∀ attempts : list (Semaphore.attempt (W := W)),
      foldl (λ st a, Semaphore.after a st) s' attempts = s'.
Proof.
  intros Hlock Hnone s'. split; [|split].
  - unfold Semaphore.acquire. rewrite Hlock.
    by replace (0 <? Semaphore._remaining s)%Z with false
      by (symmetry; apply Z.ltb_ge; lia).
  - done.
  - intros attempts. induction attempts as [|a attempts IH]; [done|].
    simpl. by destruct a.
Qed.
End SemaphoreFacts.

Lemma Semaphore_counts_permits_witness :
  Semaphore.acquire_all [1; 2] (Semaphore.new 2%Z)
  = Some (Semaphore.mk 0%Z false Notification.new).
Proof.
  exact (proj1 (Semaphore_counts_permits [1; 2] (Semaphore.new 2%Z) eq_refl
                  ltac:(simpl; lia))).
Defined.

Lemma Semaphore_waiter_holds_the_lock_witness :
  Semaphore.acquire 7 (Semaphore.new 0%Z)
  = Semaphore.AcquireWaiting (Semaphore.mk 0%Z true (Notification.mk [7])).
Proof.
  exact (proj1 (Semaphore_waiter_holds_the_lock 7 (Semaphore.new 0%Z) eq_refl
                  ltac:(simpl; lia))).
Defined.

(** ** Queue: order and hand-over *)

Section QueueMore.
Context {A W : Type}.
Implicit Types (q : Queue.t A W) (item : A) (me : W) (items : list A).

Local Abbreviation quiet_queue := (@QueueSeq.quiet_queue A W).

Lemma add_quiet_room me item (inner : list A) max_size policy :
  (∀ cap, max_size = Some cap → length inner < cap) →
  Queue.add me item (quiet_queue inner max_size policy)
  = Queue.AddDone [] (quiet_queue (inner ++ [item]) max_size policy).
Proof.
  intros Hroom. unfold Queue.add, QueueSeq.quiet_queue. simpl.
  assert (Hfull : Queue.is_full (Queue.set_lock true
            (Queue.mk inner max_size policy (Notification.new (W := W))
                      Notification.new false)) = false).
  { unfold Queue.is_full. simpl. destruct max_size as [cap|]; [|done].
    apply Nat.eqb_neq. specialize (Hroom cap eq_refl). lia. }
  rewrite Hfull. unfold Queue.add_tail. simpl.
  unfold Queue.deque_append. destruct max_size as [cap|]; [|done].
  specialize (Hroom cap eq_refl). rewrite length_app. simpl.
  destruct (cap <? length inner + 1) eqn:Hcmp; [|done].
  apply Nat.ltb_lt in Hcmp. lia.
Qed.

Lemma add_all_quiet me items (inner : list A) max_size policy :
  (∀ cap, max_size = Some cap → length inner + length items ≤ cap) →
  QueueSeq.add_all me items (quiet_queue inner max_size policy)
  = Some (quiet_queue (inner ++ items) max_size policy).
Proof.
  revert inner. induction items as [|item items IH]; intros inner Hroom; simpl.
  - by rewrite app_nil_r.
  - rewrite add_quiet_room.
    + rewrite IH; [by rewrite <- app_assoc|].
      intros cap Hcap. specialize (Hroom cap Hcap). rewrite length_app. simpl in *. lia.
    + intros cap Hcap. specialize (Hroom cap Hcap). simpl in *. lia.
Qed.

Lemma pop_all_quiet me items max_size policy :
  QueueSeq.pop_all me (length items) (quiet_queue items max_size policy)
  = Some (items, quiet_queue [] max_size policy).
Proof.
  induction items as [|item items IH]; [done|].
  cbn [length QueueSeq.pop_all].
  change (Queue.pop me (quiet_queue (item :: items) max_size policy))
    with (Queue.PopDone item [] (quiet_queue items max_size policy)).
  cbv iota beta. by rewrite IH.
Qed.

Lemma add_tail_frees_lock item q (woken : list W) q' :
  Queue.add_tail item q = Queue.AddDone woken q' → Queue._lock q' = false.
Proof.
  unfold Queue.add_tail.
  destruct (Notification.notify_one (Queue._added_element q)) as [[e w'] a'].
  destruct e; [done|]. by intros [= _ <-].
Qed.

(** X7. The queue is first in, first out: items added one after the
    other to a new queue with room for them are all accepted, under
    every overflow policy, and as many calls of [pop] return them in
    the order they were added and leave the queue empty. *)
Theorem Queue_is_fifo me items (max_size : option nat) (policy : Queue.overflow) :
  (∀ cap, max_size = Some cap → length items ≤ cap) →
  ∃ q', QueueSeq.add_all me items (Queue.new max_size policy) = Some q'
        ∧ Queue._inner q' = items
        ∧ ∃ q'', QueueSeq.pop_all me (length items) q' = Some (items, q'')
                 ∧ Queue._inner q'' = [].
Proof.
  intros Hroom. exists (quiet_queue items max_size policy).
  split; [by apply (add_all_quiet me items [] max_size policy)|]. split; [done|].
  exists (quiet_queue [] max_size policy). split; [apply pop_all_quiet | done].
Qed.

(** X8. Hand-over on a full BLOCK queue on which no producer waits
    yet: [add] suspends the producer on [_popped_element] with the
    queue lock still held, so every other [add] stops at the lock;
    [pop], which takes no lock, returns the oldest item and wakes that
    producer; resumed, the producer appends its item, frees the lock,
    and the queue is full again with its items in order. *)
Theorem Queue_block_hands_over me me' item (head : A) (rest : list A) (cap : nat) q :
  Queue.maxlen q = Some cap →
  Queue._inner q = head :: rest →
  length (head :: rest) = cap →
  Queue._overflow_behavior q = Queue.BLOCK →
  Queue._lock q = false →
  Queue._popped_element q = Notification.new →
  ∃ q1 q2 q3 woken,
    Queue.add me item q = Queue.AddBlockedOnPopped q1
    ∧ (∀ other item', Queue.add other item' q1 = Queue.AddBlockedOnLock q1)
    ∧ Queue.pop me' q1 = Queue.PopDone head [me] q2
    ∧ Queue.add_tail item q2 = Queue.AddDone woken q3
    ∧ Queue._inner q3 = rest ++ [item]
    ∧ Queue._lock q3 = false
    ∧ length (Queue._inner q3) = cap.
Proof.
  intros Hmax Hinner Hlen Hpol Hlock Hpopped.
  destruct q as [inner maxlen policy added popped lock]. simpl in *. subst.
  eexists _, _. 
  destruct (add_tail_done item
              (Queue.mk rest (Some (length (head :: rest))) Queue.BLOCK added
                        (Notification.mk (W := W) []) true))
    as (woken & q3 & Htail & Hin3 & Hmax3).
  exists q3, woken.
  split.
  { unfold Queue.add. cbn [Queue._lock].
    match goal with
    | |- context [Queue.is_full ?held] => assert (Hfull : Queue.is_full held = true)
    end.
    { unfold Queue.is_full. simpl. apply Nat.eqb_refl. }
    rewrite Hfull. reflexivity. }
  split; [done|]. split.
  { unfold Queue.pop. simpl. reflexivity. }
  split; [exact Htail|].
  assert (Hq3 : Queue._inner q3 = rest ++ [item]).
  { rewrite Hin3. simpl. unfold Queue.deque_append. rewrite length_app. simpl.
    destruct (S (length rest) <? length rest + 1) eqn:Hcmp; [|done].
    apply Nat.ltb_lt in Hcmp. lia. }
  split; [done|]. split.
  - by eapply add_tail_frees_lock.
  - rewrite Hq3, length_app. simpl. lia.
Qed.

(** X9. Hand-over on an empty queue that is not of capacity 0: [pop]
    suspends the consumer on [_added_element]; the next [add] is
    accepted and wakes that consumer; resumed, the consumer returns
    the item added and the queue is empty again. *)
Theorem Queue_pop_waits_for_add me me' item max_size policy :
  max_size ≠ Some 0 →
  ∃ q1 q2 q3,
    Queue.pop me (Queue.new (W := W) max_size policy) = Queue.PopBlocked q1
    ∧ Queue.add me' item q1 = Queue.AddDone [me] q2
    ∧ Queue.pop_tail q2 = Queue.PopDone item [] q3
    ∧ q3 = Queue.new max_size policy.
Proof.
  intros Hcap.
  exists (Queue.mk [] max_size policy (Notification.mk [me]) Notification.new false),
         (Queue.mk [item] max_size policy Notification.new Notification.new false),
         (Queue.new max_size policy).
  split; [reflexivity|].
  destruct max_size as [[|cap]|]; [done|..]; by repeat split.
Qed.
End QueueMore.

Lemma Queue_is_fifo_witness :
  ∃ q', QueueSeq.add_all 9 [1; 2; 3] (Queue.new (W := nat) (Some 3) Queue.RAISE) = Some q'
        ∧ Queue._inner q' = [1; 2; 3]
        ∧ ∃ q'', QueueSeq.pop_all 9 3 q' = Some ([1; 2; 3], q'') ∧ Queue._inner q'' = [].
Proof.
  apply (Queue_is_fifo 9 [1; 2; 3] (Some 3) Queue.RAISE).
  intros cap [= <-]. simpl. lia.
Defined.

Lemma Queue_block_hands_over_witness :
  ∃ q1 q2 q3 woken,
    Queue.add 8 3 full_block_queue = Queue.AddBlockedOnPopped q1
    ∧ (∀ other item', Queue.add other item' q1 = Queue.AddBlockedOnLock q1)
    ∧ Queue.pop 9 q1 = Queue.PopDone 1 [8] q2
    ∧ Queue.add_tail 3 q2 = Queue.AddDone woken q3
    ∧ Queue._inner q3 = [2] ++ [3]
    ∧ Queue._lock q3 = false
    ∧ length (Queue._inner q3) = 2.
Proof.
  apply (Queue_block_hands_over 8 9 3 1 [2] 2 full_block_queue); reflexivity.
Defined.

Lemma Queue_pop_waits_for_add_witness :
  ∃ q1 q2 q3,
    Queue.pop 8 (Queue.new (W := nat) (Some 2) Queue.RAISE) = Queue.PopBlocked q1
    ∧ Queue.add 9 5 q1 = Queue.AddDone [8] q2
    ∧ Queue.pop_tail q2 = Queue.PopDone 5 [] q3
    ∧ q3 = Queue.new (Some 2) Queue.RAISE.
Proof. apply (Queue_pop_waits_for_add 8 9 5 (Some 2) Queue.RAISE). discriminate. Defined.

(** ** Thread and Promise *)

Section ThreadFacts.
Context {M V : Type} {mx : MutexLock M}.

(** X10. The life of a Thread, over a mutex that keeps its laws.
    [start] leaves the status at NOT_STARTED, so a [join] that comes
    before the worker has run its first statement raises
    [RuntimeError]; once the worker runs, [join] suspends the caller
    until the worker is done; then [join] returns the value, or [None]
    for a function that raised, without raising, again and again;
    [Promise(thread).result()] returns the value, raises the captured
    error when that error is true, and returns [None] when the
    captured error is an exception object that is false. *)
Theorem Thread_join_follows_the_worker (f : call_result V) :
  mutex_laws mx →
  ∃ t0 : Thread.t M V,
    Thread.new f = Done t0
    ∧ Thread.join_value (Thread.join (Thread.start t0)) = Some (Raises RuntimeError)
    ∧ Thread.Promise_result (Thread.start t0) = Some (Raises RuntimeError)
    ∧ Thread.join_value (Thread.join (Thread.worker_begin (Thread.start t0))) = None
    ∧ ∃ t1, Thread.worker_end (Thread.worker_begin (Thread.start t0)) = Done t1
        ∧ Thread.Promise_result t1 = Some (Threads.delivered f)
        ∧ (∀ e, f = Raises e →
             Thread.Promise_result t1
             = Some (if exn_truthy e then Raises e else Returns None))
        ∧ ∃ r t2, Thread.join t1 = Thread.Joined r t2
            ∧ Threads.result r = Thread.joined_value f
            ∧ Thread.join_value (Thread.join t2) = Some (Returns (Thread.joined_value f)).
Proof.
  intros Hlaws.
  destruct (event_new_unset Hlaws) as (e0 & Hnew & Hunset).
  exists (Thread.mk f Threads.NOT_STARTED e0).
  split; [unfold Thread.new; by rewrite Hnew|].
  split; [done|]. split; [done|]. split.
  { unfold Thread.join, Thread.worker_begin, Thread.start. simpl.
    by rewrite (event_wait_unset e0 Hlaws Hunset). }
  destruct (event_set_unset e0 Hlaws Hunset) as (e1 & Hset & Hisset).
  exists (Thread.mk f (Threads.finish f) e1).
  split; [unfold Thread.worker_end; simpl; by rewrite Hset|].
  destruct (event_wait_set e1 Hlaws Hisset) as (e2 & Hwait & Hisset2).
  destruct (event_wait_set e2 Hlaws Hisset2) as (e3 & Hwait2 & _).
  assert (Hres : Thread.Promise_result (Thread.mk f (Threads.finish f) e1)
                 = Some (Threads.delivered f)).
  { unfold Thread.Promise_result, Thread.join, Threads.delivered. simpl.
    destruct f as [v|e]; simpl; by rewrite Hwait. }
  split; [exact Hres|]. split.
  { intros e ->. rewrite Hres. unfold Threads.delivered, Threads.reraise. simpl.
    by destruct (exn_truthy e). }
  destruct f as [v|e]; simpl.
  - exists (Threads.mkResult v None false), (Thread.mk (Returns v) (Threads.finish (Returns v)) e2).
    split; [unfold Thread.join; simpl; by rewrite Hwait|]. split; [done|].
    unfold Thread.join. simpl. by rewrite Hwait2.
  - exists (Threads.mkResult None (Some e) true),
           (Thread.mk (Raises e) (Threads.finish (Raises e)) e2).
    split; [unfold Thread.join; simpl; by rewrite Hwait|]. split; [done|].
    unfold Thread.join. simpl. by rewrite Hwait2.
Qed.

Lemma completed_result (c : call_result V) (p : Promise.t M V) :
  mutex_laws mx → Promise.completed c p →
  Promise.answer (Promise.result p) = Some (Threads.delivered c)
  ∧ Promise.completed c (Promise.after_result (Promise.result p)).
Proof.
  intros Hlaws [Hinfo Hset].
  destruct (event_wait_set _ Hlaws Hset) as (e' & Hwait & Hset').
  unfold Promise.result, Threads.delivered. rewrite Hwait, Hinfo.
  destruct c as [v|e]; simpl; [by repeat split|].
  unfold Threads.reraise. simpl. destruct (exn_truthy e); by repeat split.
Qed.

(** X11. A promise made by a pool, over a mutex that keeps its laws.
    [result()] suspends the caller until the promise is finished, a
    RUNNING update does not change that; after the FINISHED update
    [result()] gives the value the function returned, raises the error
    it raised when that error is true, and returns [None] when the
    error is an exception object that is false, the same at every
    call; and a second FINISHED update raises
    [RuntimeError] from the event, after it has replaced the stored
    outcome. *)
Theorem Promise_result_is_repeatable (c : call_result V) :
  mutex_laws mx →
  ∃ p0 : Promise.t M V,
    Promise.new = Done p0
    ∧ Promise.answer (Promise.result p0) = None
    ∧ (∃ pr, Promise._update Threads.RUNNING p0 = Done pr
             ∧ Promise.answer (Promise.result pr) = None)
    ∧ ∃ p1, Promise._update (Threads.finish c) p0 = Done p1
        ∧ (∀ n : nat,
             Promise.answer
               (Promise.result
                  (Nat.iter n (λ p, Promise.after_result (Promise.result p)) p1))
             = Some (Threads.delivered c))
        ∧ (∀ e, c = Raises e →
             Threads.delivered c = if exn_truthy e then Raises e else Returns None)
        ∧ ∀ c' : call_result V,
            ∃ p2, Promise._update (Threads.finish c') p1 = Raised RuntimeError p2
                  ∧ Promise._new_info p2 = Threads.finish c'.
Proof.
  intros Hlaws.
  destruct (event_new_unset Hlaws) as (e0 & Hnew & Hunset).
  exists (Promise.mk Threads.NOT_STARTED e0).
  split; [unfold Promise.new; by rewrite Hnew|].
  split; [unfold Promise.result; simpl; by rewrite (event_wait_unset e0 Hlaws Hunset)|].
  split.
  { exists (Promise.mk Threads.RUNNING e0). split; [done|].
    unfold Promise.result. simpl. by rewrite (event_wait_unset e0 Hlaws Hunset). }
  destruct (event_set_unset e0 Hlaws Hunset) as (e1 & Hset & Hisset).
  exists (Promise.mk (Threads.finish c) e1).
  split; [destruct c; simpl; by rewrite Hset|]. split.
  - intros n.
    assert (Hinv : Promise.completed c (Nat.iter n (λ p, Promise.after_result (Promise.result p))
                                         (Promise.mk (Threads.finish c) e1))).
    { induction n as [|n IH]; [done|]. simpl. by apply completed_result. }
    by apply completed_result.
  - split.
    { intros e ->. unfold Threads.delivered, Threads.reraise. simpl.
      by destruct (exn_truthy e). }
    intros c'. exists (Promise.mk (Threads.finish c') e1). split; [|done].
    assert (Hraise : Event.set e1 = Raised RuntimeError e1).
    { unfold Event.is_set in Hisset. apply negb_true_iff in Hisset.
      unfold Event.set. by rewrite Hisset. }
    destruct c'; simpl; by rewrite Hraise.
Qed.
End ThreadFacts.

Lemma Thread_join_follows_the_worker_witness :
  ∃ t0 t1 : Thread.t bool nat,
    Thread.new (mx := strict_mutex) (Raises (FalsyError 0)) = Done t0
    ∧ Thread.join_value (Thread.join (mx := strict_mutex) (Thread.start t0))
      = Some (Raises RuntimeError)
    ∧ Thread.worker_end (mx := strict_mutex) (Thread.worker_begin (Thread.start t0)) = Done t1
    ∧ Thread.Promise_result (mx := strict_mutex) t1 = Some (Returns None).
Proof.
  destruct (Thread_join_follows_the_worker (mx := strict_mutex) (V := nat)
              (Raises (FalsyError 0)) strict_mutex_laws)
    as (t0 & Hnew & Hjoin & _ & _ & t1 & Hend & Hres & _).
  exists t0, t1. split; [exact Hnew|]. split; [exact Hjoin|]. split; [exact Hend|].
  exact Hres.
Defined.

Lemma Promise_result_is_repeatable_witness :
  ∃ p0 p1 : Promise.t bool nat,
    Promise.new (mx := strict_mutex) = Done p0
    ∧ Promise.answer (Promise.result (mx := strict_mutex) p0) = None
    ∧ Promise._update (mx := strict_mutex) (Threads.finish (Raises (FalsyError 0))) p0
      = Done p1
    ∧ Promise.answer (Promise.result (mx := strict_mutex) p1) = Some (Returns None).
Proof.
  destruct (Promise_result_is_repeatable (mx := strict_mutex) (V := nat)
              (Raises (FalsyError 0)) strict_mutex_laws)
    as (p0 & Hnew & Hres & _ & p1 & Hupd & Hans & _).
  exists p0, p1. split; [exact Hnew|]. split; [exact Hres|]. split; [exact Hupd|].
  exact (Hans 0).
Defined.

(** ** Pool: finished promises *)

Section PoolMore.
Context {A V : Type}.
Implicit Types (pool : Threads.Pool A V).

Lemma finished_stable_step (ev : Threads.event A V) pool (p : nat)
    (r : Threads.ThreadResult V) :
  Threads.pool_wf pool →
  Threads.store pool !! p = Some (Threads.FINISHED r) →
  Threads.store (Threads.env_step ev pool) !! p = Some (Threads.FINISHED r).
Proof.
  intros Hwf Hfin.
  assert (Hlive : ∀ t, t ∈ Threads.live_tasks pool → Threads.promise t ≠ p).
  { intros t Hin Heq. destruct Hwf as [_ Hun].
    destruct (Hun t Hin) as (s & Hs & Hu). rewrite Heq, Hfin in Hs. by injection Hs as <-. }
  destruct ev as [w|w|f x]; simpl.
  - destruct (Threads.active pool); [|done].
    destruct (Threads._workers pool !! w) as [[t'|]|] eqn:Hw; try done.
    destruct (Threads._tasks pool) as [|t rest] eqn:Ht; [done|]. simpl.
    rewrite list_lookup_insert_ne; [done|]. apply Hlive.
    unfold Threads.live_tasks. rewrite Ht. apply elem_of_cons. by left.
  - destruct (Threads._workers pool !! w) as [[t|]|] eqn:Hw; try done. simpl.
    rewrite list_lookup_insert_ne; [done|]. apply Hlive.
    rewrite (live_finish pool w t Hw (Threads.store pool) false false).
    apply elem_of_cons. by left.
  - destruct (Threads.submit f x pool) as [e|[p' pool']] eqn:Hsub; [done|].
    destruct (live_submit _ _ _ _ _ Hsub) as (_ & Hst & _).
    rewrite Hst. by rewrite lookup_app_l by (by apply lookup_lt_Some in Hfin).
Qed.

Lemma wf_run_env (evs : list (Threads.event A V)) pool :
  Threads.pool_wf pool → Threads.pool_wf (run_env evs pool).
Proof.
  revert pool. induction evs as [|ev evs IH]; intros pool Hwf; [done|].
  apply IH. by apply wf_env_step.
Qed.

(** X12. In a pool where no two waiting or running tasks share a
    promise and none of their promises is finished, which holds of a
    new pool and is kept by every step, a finished promise is final:
    whatever the workers and the submitters do next, it stays
    finished with the same result, and promises are never taken
    away. *)
Theorem Pool_finished_promise_is_final (evs : list (Threads.event A V)) pool (p : nat)
    (r : Threads.ThreadResult V) :
  Threads.pool_wf pool →
  Threads.store pool !! p = Some (Threads.FINISHED r) →
  Threads.store (run_env evs pool) !! p = Some (Threads.FINISHED r)
  ∧ Threads.pool_wf (run_env evs pool)
  ∧ Threads.Promise_result p (run_env evs pool) = Threads.Promise_result p pool.
Proof.
  intros Hwf Hfin.
  assert (Hstable : Threads.store (run_env evs pool) !! p = Some (Threads.FINISHED r)).
  { revert pool Hwf Hfin. induction evs as [|ev evs IH]; intros pool Hwf Hfin; [done|].
    apply IH; [by apply wf_env_step | by apply finished_stable_step]. }
  split; [done|]. split; [by apply wf_run_env|].
  unfold Threads.Promise_result. by rewrite Hstable, Hfin.
Qed.
End PoolMore.

Lemma Pool_finished_promise_is_final_witness :
  Threads.store (run_env [Threads.Foreign square 4; Threads.Take 0; Threads.Finish 0]
                         pool_after_one_task) !! 0
  = Some (Threads.FINISHED (Threads.mkResult (Some 9) None false)).
Proof.
  refine (proj1 (Pool_finished_promise_is_final
                   [Threads.Foreign square 4; Threads.Take 0; Threads.Finish 0]
                   pool_after_one_task 0 (Threads.mkResult (Some 9) None false) _ eq_refl)).
  apply (wf_run_env _ (Threads.new 1)). apply new_pool_wf.
Defined.

(** ** Retry and Loop *)

Section JobsMore.
Context {V : Type}.
Implicit Types (self : Jobs.Retry V) (err : nat → exn).

Lemma exceeds_mono (a b : Z) (mf : Jobs.bound) :
  (a ≤ b)%Z → Jobs.exceeds b mf = false → Jobs.exceeds a mf = false.
Proof.
  destruct mf as [n|]; [|done]. simpl. intros Hab Hb.
  apply Z.ltb_ge in Hb. apply Z.ltb_ge. lia.
Qed.

(** Failures within the limit are passed over, one invocation each. *)
Lemma run_loop_skips_failures self (mf : Jobs.bound) (k fuel calls : nat) (fails : Z) :
  Jobs._cmgr self = None →
  (∀ i, i < k → ∃ e, Jobs._func self (calls + i) = Raises e) →
  Jobs.exceeds (fails + Z.of_nat k) mf = false →
  Jobs.run_loop self mf (k + fuel) calls fails
  = Jobs.run_loop self mf fuel (calls + k) (fails + Z.of_nat k).
Proof.
  intros Hcm. revert calls fails.
  induction k as [|k IH]; intros calls fails Hfail Hwithin.
  - simpl. by rewrite Nat.add_0_r, Z.add_0_r.
  - cbn [Nat.add Jobs.run_loop].
    destruct (Hfail 0) as [e He]; [lia|]. rewrite Nat.add_0_r in He.
    rewrite He, Hcm.
    rewrite (exceeds_mono (fails + 1) (fails + Z.of_nat (S k)) mf) by (done || lia).
    rewrite IH.
    + f_equal; lia.
    + intros i Hi. destruct (Hfail (S i)) as [e' He']; [lia|].
      exists e'. by replace (S calls + i) with (calls + S i) by lia.
    + by replace (fails + 1 + Z.of_nat k)%Z with (fails + Z.of_nat (S k))%Z by lia.
Qed.

Lemma submit_result_truthy (e : exn) :
  exn_truthy e = true → Jobs.submit_result (V := V) (Raises e) = Raises e.
Proof. intros Htrue. unfold Jobs.submit_result, Threads.reraise. simpl. by rewrite Htrue. Qed.

(** X13. Without a crash manager a Retry returns the value of the
    first invocation that succeeds, after exactly that many
    invocations, as long as the failures before it do not exceed the
    larger of its two bounds; with both bounds left out any number of
    failures is passed over. *)
Theorem Retry_returns_first_success self (k fuel : nat) (v : option V) :
  Jobs._cmgr self = None →
  (∀ i, i < k → ∃ e, Jobs._func self i = Raises e) →
  Jobs._func self k = Returns v →
  Jobs.exceeds (Z.of_nat k)
    (Jobs.bound_max (Jobs._max_consecutive_fails self) (Jobs._max_fails_total self)) = false →
  k < fuel →
  Jobs.Retry_promise_result self fuel = Some (Returns v, S k).
Proof.
  intros Hcm Hfail Hok Hwithin Hfuel.
  unfold Jobs.Retry_promise_result, Jobs.run.
  replace fuel with (k + S (fuel - S k)) by lia.
  rewrite run_loop_skips_failures; [|done|done|done].
  cbn [Jobs.run_loop]. by rewrite Nat.add_0_l, Hok.
Qed.

(** X14. Without a crash manager and with both bounds given, the
    larger being [k], a job whose first [k + 1] invocations all fail
    gives up at that invocation: [run] raises its error, whatever
    later invocations would have done, and [result()] raises it again
    when it is a true object. *)
Theorem Retry_gives_up_past_the_larger_bound self (k fuel : nat) (e : exn) :
  Jobs._cmgr self = None →
  Jobs.bound_max (Jobs._max_consecutive_fails self) (Jobs._max_fails_total self)
  = Jobs.Finite (Z.of_nat k) →
  (∀ i, i < k → ∃ e', Jobs._func self i = Raises e') →
  Jobs._func self k = Raises e →
  k < fuel →
  Jobs.run self fuel = Some (Raises e, S k)
  ∧ Jobs.Retry_promise_result self fuel = Some (Jobs.submit_result (Raises e), S k)
  ∧ (exn_truthy e = true →
     Jobs.Retry_promise_result self fuel = Some (Raises e, S k)).
Proof.
  intros Hcm Hmax Hfail Hlast Hfuel.
  assert (Hrun : Jobs.run self fuel = Some (Raises e, S k)).
  { unfold Jobs.run. rewrite Hmax.
    replace fuel with (k + S (fuel - S k)) by lia.
    rewrite run_loop_skips_failures; [|done|done|simpl; apply Z.ltb_ge; lia].
    cbn [Jobs.run_loop]. rewrite Nat.add_0_l, Hlast, Hcm. cbn [Jobs.exceeds].
    destruct (Z.of_nat k <? 0 + Z.of_nat k + 1)%Z eqn:Hcmp; [done|].
    apply Z.ltb_ge in Hcmp. lia. }
  split; [exact Hrun|]. unfold Jobs.Retry_promise_result. rewrite Hrun.
  split; [done|]. intros Htrue. by rewrite submit_result_truthy.
Qed.

(** X15. The edge values of the bounds, for a function that always
    fails and no crash manager: a bound of 0 counts as no bound, so a
    job with a 0 in either place never gives up, like the job with
    both bounds left out; two negative bounds make it give up at the
    first failure, [run] raising that error and [result()] handing it
    over. *)
Theorem Retry_bound_edges err :
  (∀ (other : option Z) (fuel : nat),
     Jobs.Retry_promise_result
       (Jobs.Retry_init (Jobs.always_fails (V := V) err) None (Some 0%Z) other) fuel = None
     ∧ Jobs.Retry_promise_result
         (Jobs.Retry_init (Jobs.always_fails (V := V) err) None other (Some 0%Z)) fuel = None
     ∧ Jobs.Retry_promise_result
         (Jobs.Retry_init (Jobs.always_fails (V := V) err) None None None) fuel = None)
  ∧ (∀ (a b : Z) (fuel : nat), (a < 0)%Z → (b < 0)%Z →
       Jobs.run
         (Jobs.Retry_init (Jobs.always_fails (V := V) err) None (Some a) (Some b)) (S fuel)
       = Some (Raises (err 0), 1)
       ∧ Jobs.Retry_promise_result
           (Jobs.Retry_init (Jobs.always_fails (V := V) err) None (Some a) (Some b)) (S fuel)
         = Some (Jobs.submit_result (Raises (err 0)), 1)).
Proof.
  split.
  - intros other fuel.
    unfold Jobs.Retry_promise_result, Jobs.run, Jobs.Retry_init.
    cbn [Jobs._max_consecutive_fails Jobs._max_fails_total].
    change (Jobs.or_inf (Some 0%Z)) with Jobs.Infinity.
    change (Jobs.or_inf None) with Jobs.Infinity.
    split; [|split].
    + destruct (Jobs.or_inf other); cbn [Jobs.bound_max]; by rewrite run_loop_unbounded.
    + cbn [Jobs.bound_max]. by rewrite run_loop_unbounded.
    + cbn [Jobs.bound_max]. by rewrite run_loop_unbounded.
  - intros a b fuel Ha Hb.
    assert (Hrun : Jobs.run
              (Jobs.Retry_init (Jobs.always_fails (V := V) err) None (Some a) (Some b))
              (S fuel) = Some (Raises (err 0), 1)).
    { unfold Jobs.run, Jobs.Retry_init.
      rewrite !or_inf_nonzero by lia.
      cbn [Jobs._max_consecutive_fails Jobs._max_fails_total Jobs.bound_max Jobs.run_loop
           Jobs._func Jobs._cmgr Jobs.always_fails Jobs.exceeds].
      destruct (Z.max b a <? 0 + 1)%Z eqn:Hcmp; [done|].
      apply Z.ltb_ge in Hcmp. lia. }
    split; [exact Hrun|]. unfold Jobs.Retry_promise_result. by rewrite Hrun.
Qed.

(** X16. A crash manager that declines, returning [None] for every
    error, changes nothing: the job runs as it does without a crash
    manager.  A crash manager that returns a value for the first
    error ends the job with that value after one invocation, and one
    that raises ends it with its own error: [run] raises it and
    [result()] hands it over. *)
Theorem Retry_declining_crash_manager (func : nat → call_result V)
    (cm : Jobs.crash_manager V) (b1 b2 : Jobs.bound) (fuel : nat) :
  ((∀ e, cm e = Returns None) →
   Jobs.Retry_promise_result (Jobs.mkRetry func (Some cm) b1 b2) fuel
   = Jobs.Retry_promise_result (Jobs.mkRetry func None b1 b2) fuel)
  ∧ (∀ e v, func 0 = Raises e → cm e = Returns (Some v) →
       Jobs.Retry_promise_result (Jobs.mkRetry func (Some cm) b1 b2) (S fuel)
       = Some (Returns (Some v), 1))
  ∧ (∀ e e', func 0 = Raises e → cm e = Raises e' →
       Jobs.run (Jobs.mkRetry func (Some cm) b1 b2) (S fuel) = Some (Raises e', 1)
       ∧ Jobs.Retry_promise_result (Jobs.mkRetry func (Some cm) b1 b2) (S fuel)
         = Some (Jobs.submit_result (Raises e'), 1)).
Proof.
  split; [|split].
  - intros Hdecline. unfold Jobs.Retry_promise_result, Jobs.run.
    cbn [Jobs._max_consecutive_fails Jobs._max_fails_total].
    generalize (Jobs.bound_max b2 b1) as mf. intros mf.
    assert (Hsame : ∀ calls fails,
              Jobs.run_loop (Jobs.mkRetry func (Some cm) b1 b2) mf fuel calls fails
              = Jobs.run_loop (Jobs.mkRetry func None b1 b2) mf fuel calls fails).
    { induction fuel as [|fuel' IH]; intros calls fails; [done|].
      simpl. destruct (func calls) as [v|e]; [done|].
      rewrite Hdecline. by rewrite IH. }
    by rewrite Hsame.
  - intros e v Hf Hcm. unfold Jobs.Retry_promise_result, Jobs.run. simpl.
    by rewrite Hf, Hcm.
  - intros e e' Hf Hcm.
    assert (Hrun : Jobs.run (Jobs.mkRetry func (Some cm) b1 b2) (S fuel)
                   = Some (Raises e', 1))
      by (unfold Jobs.run; simpl; by rewrite Hf, Hcm).
    split; [exact Hrun|]. unfold Jobs.Retry_promise_result. by rewrite Hrun.
Qed.

(** X17. A Loop over a Once never returns a value.  It runs the job
    round after round as long as [result()] returns, a value supplied
    by the crash manager counting as a return, and ends with the
    error of the first round whose [result()] raises; if no round
    raises it goes on for as long as it is run. *)
Theorem Loop_ends_with_the_first_error (func : nat → call_result V)
    (cmgr : option (Jobs.crash_manager V)) :
  (∀ (k fuel : nat) (e : exn),
     (∀ i, i < k → ∃ v, Jobs.Once_promise_result (func i) cmgr = Returns v) →
     Jobs.Once_promise_result (func k) cmgr = Raises e →
     k < fuel →
     Loop.run func cmgr fuel 0 = Some (e, S k))
  ∧ ((∀ i, ∃ v, Jobs.Once_promise_result (func i) cmgr = Returns v) →
     ∀ fuel, Loop.run func cmgr fuel 0 = None).
Proof.
  split.
  - intros k fuel e Hok Hfail Hfuel.
    assert (Hgen : ∀ j round, round + j = k → j < fuel →
              Loop.run func cmgr fuel round = Some (e, S k)).
    { clear Hfuel. revert fuel. intros fuel j. revert fuel.
      induction j as [|j IH]; intros fuel round Hk Hfuel;
        (destruct fuel as [|fuel]; [lia|]); simpl.
      - rewrite Nat.add_0_r in Hk. subst round. by rewrite Hfail.
      - destruct (Hok round) as [v Hv]; [lia|]. rewrite Hv.
        apply IH; lia. }
    by apply (Hgen k 0).
  - intros Hok fuel. generalize 0 as round.
    induction fuel as [|fuel IH]; intros round; [done|].
    simpl. destruct (Hok round) as [v ->]. apply IH.
Qed.
End JobsMore.

Lemma Retry_returns_first_success_witness :
  Jobs.Retry_promise_result (Jobs.Retry_init third_time_lucky None (Some 3%Z) (Some 5%Z)) 3
  = Some (Returns (Some 7), 3).
Proof.
  apply (Retry_returns_first_success
           (Jobs.Retry_init third_time_lucky None (Some 3%Z) (Some 5%Z)) 2 3 (Some 7));
    try reflexivity; try lia.
  intros i Hi. exists (UserError i). unfold Jobs.Retry_init, third_time_lucky. simpl.
  by replace (i <? 2) with true by (symmetry; apply Nat.ltb_lt; lia).
Defined.

Lemma Retry_gives_up_past_the_larger_bound_witness :
  Jobs.Retry_promise_result
    (Jobs.Retry_init third_time_lucky None (Some 1%Z) (Some 1%Z)) 2
  = Some (Raises (UserError 1), 2).
Proof.
  apply (Retry_gives_up_past_the_larger_bound
           (Jobs.Retry_init third_time_lucky None (Some 1%Z) (Some 1%Z)) 1 2 (UserError 1));
    try reflexivity; try lia.
  intros i Hi. exists (UserError i). unfold Jobs.Retry_init, third_time_lucky. simpl.
  by replace (i <? 2) with true by (symmetry; apply Nat.ltb_lt; lia).
Defined.

Lemma Retry_bound_edges_witness :
  Jobs.Retry_promise_result
    (Jobs.Retry_init (Jobs.always_fails (V := nat) UserError) None (Some (-1)%Z) (Some (-2)%Z)) 1
  = Some (Raises (UserError 0), 1).
Proof.
  apply (proj2 (proj2 (Retry_bound_edges (V := nat) UserError) (-1)%Z (-2)%Z 0
                  ltac:(lia) ltac:(lia))).
Defined.

Lemma Retry_declining_crash_manager_witness :
  Jobs.Retry_promise_result
    (Jobs.mkRetry third_time_lucky (Some (λ _, Returns None)) (Jobs.Finite 3) (Jobs.Finite 5)) 3
  = Jobs.Retry_promise_result
      (Jobs.mkRetry third_time_lucky None (Jobs.Finite 3) (Jobs.Finite 5)) 3.
Proof.
  apply (proj1 (Retry_declining_crash_manager third_time_lucky (λ _, Returns None)
                  (Jobs.Finite 3) (Jobs.Finite 5) 3)).
  reflexivity.
Defined.

Lemma Loop_ends_with_the_first_error_witness :
  Loop.run fails_third_time None 3 0 = Some (UserError 2, 3).
Proof.
  apply (proj1 (Loop_ends_with_the_first_error fails_third_time None) 2 3 (UserError 2));
    try reflexivity; try lia.
  intros i Hi. exists (Some i). unfold fails_third_time.
  by replace (i <? 2) with true by (symmetry; apply Nat.ltb_lt; lia).
Defined.

(** ** Mailbox: the subscription table *)

Section SubscriptionFacts.
Context {C : Type}.
Implicit Types (w : World C) (c : C) (subs : list nat).

Lemma set_add_elem (x : nat) subs : x ∈ set_add x subs.
Proof.
  unfold set_add. case_decide; [done|]. apply elem_of_app. right. by apply list_elem_of_singleton.
Qed.

Lemma set_add_nodup (x : nat) subs : NoDup subs → NoDup (set_add x subs).
Proof.
  intros Hnd. unfold set_add. case_decide; [done|].
  apply NoDup_app. split; [done|]. split; [|apply NoDup_singleton].
  intros y Hy ->%list_elem_of_singleton. done.
Qed.

Lemma set_add_idem (x : nat) subs : set_add x (set_add x subs) = set_add x subs.
Proof. unfold set_add at 1. by rewrite decide_True by apply set_add_elem. Qed.

Lemma set_discard_absent (x : nat) subs : x ∉ subs → set_discard x subs = subs.
Proof.
  intros Hx. unfold set_discard. induction subs as [|y subs IH]; [done|].
  apply not_elem_of_cons in Hx as [Hne Hx].
  rewrite filter_cons_True by done. by rewrite IH.
Qed.

Lemma set_chats_same w : set_chats (chats w) w = w.
Proof. by destruct w. Qed.

(** X18. [_subscribe] adds the box to the subscriber set of the
    group: afterwards the set holds the box and the subscribers it
    held before, and nothing else; no other group is touched, the
    subscriber sets stay free of duplicates, and subscribing a second
    time changes nothing, so a box is never delivered to twice for one
    group. *)
Theorem subscribe_is_a_set_insertion (box g : nat) w :
  subscribers_nodup w →
  subscribers_nodup (_subscribe box g w)
  ∧ _subscribe box g (_subscribe box g w) = _subscribe box g w
  ∧ (∃ subs, chats (_subscribe box g w) !! g = Some subs
             ∧ ∀ other, other ∈ subs ↔ other = box ∨ other ∈ default [] (chats w !! g))
  ∧ (∀ g', g' ≠ g → chats (_subscribe box g w) !! g' = chats w !! g').
Proof.
  intros Hnd. split; [|split; [|split]].
  - intros g' subs. unfold _subscribe. simpl. rewrite lookup_insert.
    case_decide as Hg.
    + intros [= <-]. apply set_add_nodup.
      destruct (chats w !! g) as [old|] eqn:Hold; simpl; [by eapply Hnd|apply NoDup_nil_2].
    + apply Hnd.
  - unfold _subscribe. simpl. rewrite lookup_insert_eq. simpl.
    rewrite set_add_idem. unfold set_chats. simpl. f_equal. apply insert_insert_eq.
  - eexists. unfold _subscribe. simpl. rewrite lookup_insert_eq.
    split; [done|]. intros other. unfold set_add. case_decide as Hin.
    + split; [by right | by intros [->|?]].
    + rewrite elem_of_app, list_elem_of_singleton. tauto.
  - intros g' Hne. unfold _subscribe. simpl. by rewrite lookup_insert_ne.
Qed.

(** X19. [_unsubscribe] from a group that never had a subscriber
    raises [KeyError].  From a group that has a subscriber set it
    removes the box and keeps the key, whatever is left; when the box
    was not in the set nothing changes at all. *)
Theorem unsubscribe_needs_the_key (box g : nat) w :
  (chats w !! g = None → _unsubscribe box g w = inl KeyError)
  ∧ (∀ subs, chats w !! g = Some subs →
       ∃ w', _unsubscribe box g w = inr w'
             ∧ chats w' !! g = Some (set_discard box subs)
             ∧ (box ∉ set_discard box subs)
             ∧ (∀ other, other ≠ box → other ∈ subs → other ∈ set_discard box subs)
             ∧ (box ∉ subs → w' = w)
             ∧ (subscribers_nodup w → subscribers_nodup w')).
Proof.
  split.
  - intros Hnone. unfold _unsubscribe. by rewrite Hnone.
  - intros subs Hsubs. unfold _unsubscribe. rewrite Hsubs. eexists. split; [done|].
    split; [simpl; by rewrite lookup_insert_eq|]. split; [|split; [|split]].
    + unfold set_discard. intros [Hne _]%list_elem_of_filter. by apply Hne.
    + intros other Hne Hin. unfold set_discard. by apply list_elem_of_filter.
    + intros Habsent. rewrite set_discard_absent by done.
      rewrite insert_id by done. apply set_chats_same.
    + intros Hnd g' subs'. simpl. rewrite lookup_insert. case_decide.
      * intros [= <-]. unfold set_discard. apply NoDup_filter. by eapply Hnd.
      * apply Hnd.
Qed.
End SubscriptionFacts.

Lemma wildcard_world_nodup : subscribers_nodup wildcard_world.
Proof.
  assert (Hchats : chats wildcard_world = <[0 := [1]]> (<[18 := [0]]> ∅)) by reflexivity.
  intros g subs. rewrite Hchats.
  intros [[_ <-]|[_ [[_ <-]|[_ Hempty]]%lookup_insert_Some]]%lookup_insert_Some.
  - apply NoDup_singleton.
  - apply NoDup_singleton.
  - by rewrite lookup_empty in Hempty.
Qed.

Lemma subscribe_is_a_set_insertion_witness :
  ∃ subs, chats (_subscribe 1 18 wildcard_world) !! 18 = Some subs
          ∧ 0 ∈ subs ∧ 1 ∈ subs ∧ 2 ∉ subs.
Proof.
  destruct (subscribe_is_a_set_insertion 1 18 wildcard_world wildcard_world_nodup)
    as (_ & _ & (subs & Hsubs & Hiff) & _).
  exists subs. split; [exact Hsubs|].
  assert (Hold : default [] (chats wildcard_world !! 18) = [0]) by reflexivity.
  rewrite Hold in Hiff. split; [|split].
  - apply Hiff. right. by apply list_elem_of_singleton.
  - apply Hiff. by left.
  - intros [Heq|Hin%list_elem_of_singleton]%Hiff; lia.
Defined.

Lemma unsubscribe_needs_the_key_witness :
  _unsubscribe 0 3 (@empty_world nat) = inl KeyError.
Proof.
  apply (proj1 (unsubscribe_needs_the_key 0 3 (@empty_world nat))). apply lookup_empty.
Defined.

(** ** Mailbox.send: what it does to the world *)

Section SendEffects.
Context {C : Type}.
Implicit Types (w : World C) (c : C) (msg : Message C) (subs exclude : list nat).

Lemma send_effects_refl w : send_effects w w.
Proof.
  split; [done|]. split; [done|]. split; [|by exists []; rewrite app_nil_r].
  intros box. by exists [].
Qed.

Lemma send_effects_trans w1 w2 w3 :
  send_effects w1 w2 → send_effects w2 w3 → send_effects w1 w3.
Proof.
  intros (Hg12 & Hl12 & Hi12 & calls12 & Hc12) (Hg23 & Hl23 & Hi23 & calls23 & Hc23).
  split; [by eapply (same_graph_trans w1 w2 w3)|]. split; [congruence|]. split.
  - intros box. destruct (Hi12 box) as (new12 & Hn12 & Hu12).
    destruct (Hi23 box) as (new23 & Hn23 & Hu23).
    exists (new23 ++ new12). split; [by rewrite Hn23, Hn12, app_assoc|].
    intros Hun. rewrite Hu12 by done. rewrite Hu23; [done|].
    destruct Hg12 as (_ & _ & _ & Hch). by rewrite Hch.
  - exists (calls12 ++ calls23). by rewrite Hc23, Hc12, app_assoc.
Qed.

Lemma send_effects_deliver msg (b g : nat) subs w :
  chats w !! g = Some subs → b ∈ subs → send_effects w (deliver msg b w).
Proof.
  intros Hg Hb. split; [done|]. split; [apply boxes_length_deliver|].
  split; [|by exists []; rewrite app_nil_r].
  intros box. destruct (decide (b = box)) as [->|Hne].
  - destruct (decide (box < length (boxes w))) as [Hlt|Hge].
    + exists [msg]. split; [by apply inbox_deliver_eq|].
      intros Hun. by destruct (Hun g subs Hg).
    + exists []. split; [|done]. unfold inbox, deliver. simpl.
      rewrite list_lookup_alter_eq.
      by rewrite (lookup_ge_None_2 (boxes w) box) by lia.
  - exists []. split; [|done]. by apply inbox_deliver_ne.
Qed.

Lemma send_effects_deliveries msg (g : nat) subs all w :
  chats w !! g = Some all → subs ⊆ all →
  send_effects w (deliveries msg subs w).
Proof.
  revert w. induction subs as [|b subs IH]; intros w Hg Hsub; [apply send_effects_refl|].
  unfold deliveries. simpl.
  eapply send_effects_trans.
  - apply (send_effects_deliver msg b g all); [done|]. apply Hsub. apply elem_of_cons; by left.
  - apply IH; [done|]. intros x Hx. apply Hsub. apply elem_of_cons; by right.
Qed.

Lemma send_effects_consult found c w : send_effects w (consult found c w).2.
Proof.
  destruct found as [[g ext]|]; [|apply send_effects_refl]. simpl.
  split; [done|]. split; [done|]. split; [|by eexists].
  intros box. by exists [].
Qed.

(** X20. Whatever [send] does when it returns, it leaves the
    subscription table, the extension table and the topic graph as
    they were, makes and loses no mailbox, only puts new messages in
    front of what an inbox held, leaves alone the inbox of every
    mailbox that is subscribed to no group, and only adds to the
    record of policy calls. *)
Theorem send_only_adds_messages (fuel : nat) (g : nat) c exclude w w' :
  send fuel g c exclude w = Some w' → send_effects w w'.
Proof.
  revert g c exclude w w'.
  induction fuel as [|fuel IH]; intros g c exclude w w' Hsend; [done|].
  rewrite send_S in Hsend.
  destruct (decide (g ∈ exclude)); [injection Hsend as <-; apply send_effects_refl|].
  destruct (chats w !! g) as [subscribers|] eqn:Hchat;
    [|injection Hsend as <-; apply send_effects_refl].
  destruct (find_extension fuel (Some g) w) as [found|]; [|done]. simpl in Hsend.
  pose proof (send_effects_consult found c w) as Hw0.
  destruct (consult found c w) as [response w0]. simpl in Hw0.
  set (c' := data_transform response c) in *.
  match type of Hsend with (?m ≫= _) = _ => destruct m as [w3|] eqn:Hw3 end; [|done].
  simpl in Hsend.
  assert (send_effects w0 w3) as Hw03.
  { destruct (cancel response); [injection Hw3 as <-; apply send_effects_refl|].
    set (w1 := foldl _ w0 subscribers) in *.
    assert (send_effects w0 w1) as Hw01.
    { apply (send_effects_deliveries (mkMessage g c') g subscribers subscribers); [|done].
      destruct Hw0 as ((_ & _ & _ & Hch) & _). by rewrite Hch. }
    match type of Hw3 with (?m ≫= _) = _ => destruct m as [w2|] eqn:Hw2 end; [|done].
    simpl in Hw3.
    assert (send_effects w1 w2) as Hw12.
    { destruct (parent_of w1 g) as [p|]; [|injection Hw2 as <-; apply send_effects_refl].
      destruct (decide (p ∈ exclude)); [injection Hw2 as <-; apply send_effects_refl|].
      by eapply IH. }
    eapply send_effects_trans; [exact Hw01|]. eapply send_effects_trans; [exact Hw12|].
    eapply (for_each_invariant send_effects);
      [apply send_effects_refl | apply send_effects_trans | | exact Hw3].
    intros child s1 s2 _ Hbody. cbv beta in Hbody.
    destruct (decide (child ∈ exclude)); [injection Hbody as <-; apply send_effects_refl|].
    exact (IH _ _ _ _ _ Hbody). }
  eapply send_effects_trans; [exact Hw0|]. eapply send_effects_trans; [exact Hw03|].
  eapply (for_each_invariant send_effects);
    [apply send_effects_refl | apply send_effects_trans | | exact Hsend].
  intros other s1 s2 _ Hbody. cbv beta in Hbody. exact (IH _ _ _ _ _ Hbody).
Qed.
End SendEffects.

Lemma send_only_adds_messages_witness :
  ∃ w', send 4 0 "hello" [] wildcard_world = Some w' ∧ send_effects wildcard_world w'.
Proof.
  eexists. split; [vm_compute; reflexivity|].
  apply (send_only_adds_messages 4 0 "hello" []). vm_compute. reflexivity.
Defined.

(** ** Mailbox.send: policies *)

Section PolicyFacts.
Context {C : Type}.
Implicit Types (w : World C) (c : C) (r : MessageSentInGroup C) (ext : Extension C).

Lemma with_call_same_graph (g : nat) c w : same_graph w (with_call g c w).
Proof. done. Qed.

Lemma find_extension_here w (fuel : nat) (g : nat) ext :
  extensions w !! g = Some ext →
  find_extension (S fuel) (Some g) w = Some (Some (g, ext)).
Proof. intros Hext. simpl. by rewrite Hext. Qed.

Lemma find_extension_bare w (fuel : nat) (g : nat) :
  extensions w !! g = None → parent_of w g = None →
  find_extension (S (S fuel)) (Some g) w = Some None.
Proof. intros Hext Hpar. simpl. by rewrite Hext, Hpar. Qed.

(** X21. A policy that cancels still has its say on forwarding: when
    the extension of [g] answers [c] with [cancel] set and one forward
    target [b] (a subscribed group without extension, parent or
    children), [send] delivers nothing at [g], does not go to the
    parent or the children of [g], and delivers the transformed content
    to the subscribers of [b], tagged with [b]; the policy was called
    once, with the content as sent. *)
Theorem send_cancel_still_forwards (fuel : nat) (g b : nat) c r ext w subs_g subs_b :
  b ≠ g →
  chats w !! g = Some subs_g → chats w !! b = Some subs_b →
  extensions w !! g = Some ext → message_sent_in_group ext c = Some r →
  cancel r = true → forward_to r = [b] →
  extensions w !! b = None → parent_of w b = None → children_of w b = [] →
  send (4 + fuel) g c [] w
  = Some (deliveries (mkMessage b (data_transform r c)) subs_b (with_call g c w)).
Proof.
  intros Hne Hchg Hchb Hext Hpol Hcancel Hfwd Hextb Hparb Hchildb.
  change (4 + fuel) with (S (S (2 + fuel))).
  remember (2 + fuel) as fuel2 eqn:Hfuel2.
  remember (S fuel2) as fuel3 eqn:Hfuel3.
  rewrite send_S. rewrite decide_False by apply not_elem_of_nil. rewrite Hchg.
  rewrite Hfuel3, (find_extension_here w fuel2 g ext Hext).
  cbn [mbind option_bind consult]. rewrite Hpol. cbn [default]. unfold id.
  rewrite Hcancel, Hfwd. cbn [mbind option_bind for_each].
  fold (with_call g c w). set (w0 := with_call g c w).
  assert (same_graph w w0) as Hw0 by apply with_call_same_graph.
  pose proof Hw0 as (_ & _ & He0 & Hc0).
  rewrite Hfuel2. change (S (2 + fuel)) with (S (S (S fuel))). rewrite send_S.
  rewrite decide_False by (intros ?%list_elem_of_singleton; done).
  rewrite Hc0, Hchb.
  rewrite (find_extension_bare w0 fuel b)
    by (by rewrite ?He0, ?(same_graph_parent_of w w0 b Hw0)).
  cbn [mbind option_bind consult default_response cancel data_transform forward_to for_each].
  fold (deliveries (mkMessage b (data_transform r c)) subs_b w0).
  set (w1 := deliveries _ subs_b w0).
  assert (same_graph w w1) as Hw1
    by (eapply same_graph_trans; [exact Hw0 | apply deliveries_same_graph]).
  rewrite (same_graph_parent_of w w1 b Hw1), Hparb.
  cbn [mbind option_bind].
  rewrite (same_graph_children_of w w1 b Hw1), Hchildb. done.
Qed.

(** X22. The policy of the nearest extension up the parent chain is
    asked again at every hop: with the only extension on the parent [p]
    of [g], a message sent to [g] reaches the subscribers of [g]
    transformed once and the subscribers of [p] transformed twice, the
    second time by the answer of the policy to the content already
    transformed. *)
Theorem send_transforms_at_every_hop (fuel : nat) (g p : nat) c r1 r2 ext w subs_g subs_p :
  g ≠ p → parent_of w g = Some p → parent_of w p = None →
  children_of w g = [] → children_of w p = [] →
  extensions w !! g = None → extensions w !! p = Some ext →
  chats w !! g = Some subs_g → chats w !! p = Some subs_p →
  message_sent_in_group ext c = Some r1 →
  cancel r1 = false → forward_to r1 = [] →
  message_sent_in_group ext (data_transform r1 c) = Some r2 →
  cancel r2 = false → forward_to r2 = [] →
  send (4 + fuel) g c [] w
  = Some (deliveries (mkMessage p (data_transform r2 (data_transform r1 c))) subs_p
            (with_call p (data_transform r1 c)
               (deliveries (mkMessage g (data_transform r1 c)) subs_g
                  (with_call p c w)))).
Proof.
  intros Hne Hpg Hpp Hcg Hcp Hextg Hextp Hchg Hchp Hpol1 Hcan1 Hfwd1 Hpol2 Hcan2 Hfwd2.
  change (4 + fuel) with (S (S (2 + fuel))).
  remember (2 + fuel) as fuel2 eqn:Hfuel2.
  remember (S fuel2) as fuel3 eqn:Hfuel3.
  rewrite send_S. rewrite decide_False by apply not_elem_of_nil. rewrite Hchg.
  assert (find_extension fuel3 (Some g) w = Some (Some (p, ext))) as ->.
  { rewrite Hfuel3, Hfuel2. simpl. by rewrite Hextg, Hpg, Hextp. }
  cbn [mbind option_bind consult]. rewrite Hpol1. cbn [default]. unfold id.
  rewrite Hcan1, Hfwd1.
  fold (with_call p c w). set (w0 := with_call p c w).
  fold (deliveries (mkMessage g (data_transform r1 c)) subs_g w0).
  set (w1 := deliveries _ subs_g w0).
  assert (same_graph w w1) as Hw1
    by (eapply same_graph_trans; [apply with_call_same_graph | apply deliveries_same_graph]).
  pose proof Hw1 as (_ & _ & He1 & Hc1).
  rewrite (same_graph_parent_of w w1 g Hw1), Hpg.
  rewrite decide_False by apply not_elem_of_nil.
  rewrite Hfuel3, send_S.
  rewrite decide_False by (intros ?%list_elem_of_singleton; done).
  rewrite Hc1, Hchp.
  rewrite Hfuel2. change (2 + fuel) with (S (S fuel)).
  rewrite (find_extension_here w1 (S fuel) p ext) by (by rewrite He1).
  cbn [mbind option_bind consult]. rewrite Hpol2. cbn [default]. unfold id.
  rewrite Hcan2, Hfwd2.
  fold (with_call p (data_transform r1 c) w1). set (w2 := with_call p _ w1).
  fold (deliveries (mkMessage p (data_transform r2 (data_transform r1 c))) subs_p w2).
  set (w3 := deliveries _ subs_p w2).
  assert (same_graph w w3) as Hw3.
  { eapply same_graph_trans; [exact Hw1|].
    eapply same_graph_trans; [apply with_call_same_graph | apply deliveries_same_graph]. }
  rewrite (same_graph_parent_of w w3 p Hw3), Hpp.
  cbn [mbind option_bind for_each].
  rewrite (same_graph_children_of w w3 p Hw3), Hcp.
  cbn [mbind option_bind for_each].
  rewrite (same_graph_children_of w w3 g Hw3), Hcg. done.
Qed.
End PolicyFacts.

Lemma send_cancel_still_forwards_witness :
  send 4 0 "hi" [] redirect_world
  = Some (deliveries (mkMessage 1 "hi!") [0] (with_call 0 "hi" redirect_world)).
Proof.
  apply (send_cancel_still_forwards 0 0 1 "hi"
           (mkResponse true [1] (λ x, (x ++ "!")%string)) (redirect 1) redirect_world [0] [0]);
    try (vm_compute; reflexivity).
  lia.
Defined.

Lemma send_transforms_at_every_hop_witness :
  send 4 0 "hi" [] marked_world
  = Some (deliveries (mkMessage 18 "hi!!") [0]
            (with_call 18 "hi!"
               (deliveries (mkMessage 0 "hi!") [1] (with_call 18 "hi" marked_world)))).
Proof.
  apply (send_transforms_at_every_hop 0 0 18 "hi"
           (mkResponse false [] (λ x, (x ++ "!")%string))
           (mkResponse false [] (λ x, (x ++ "!")%string)) marker marked_world [1] [0]);
    try (vm_compute; reflexivity).
  lia.
Defined.

(** ** Group: names *)

Lemma canonical_parts_cons_slash (s : string) :
  canonical_parts (String "/" s) = canonical_parts s.
Proof. unfold canonical_parts. simpl. by rewrite filter_cons_False by (by intros ?). Qed.

Lemma canonical_parts_cons_other (c : ascii) (s : string) :
  c ≠ "/"%char → canonical_parts (String c s) ≠ [].
Proof.
  intros Hc. unfold canonical_parts. simpl.
  destruct (Ascii.eqb_spec c "/"); [done|].
  destruct (split_slash s) as [|seg segs]; by rewrite filter_cons_True.
Qed.

Lemma canonical_parts_app (s t : string) :
  canonical_parts (s +:+ String "/" t) = canonical_parts s ++ canonical_parts t.
Proof. unfold canonical_parts. by rewrite split_slash_app, filter_app. Qed.

Lemma canonical_parts_only_slashes (nm : string) :
  canonical_parts nm = [] ↔ only_slashes nm.
Proof.
  induction nm as [|c nm IH]; [done|]. simpl.
  destruct (decide (c = "/"%char)) as [->|Hc].
  - rewrite canonical_parts_cons_slash, IH. tauto.
  - split; [|tauto]. intros Hnil. by apply canonical_parts_cons_other in Hnil.
Qed.

(** X23. A name is read as its non-empty segments: slashes at either
    end and repeated slashes do not count, the parts of [s/t] are the
    parts of [s] followed by those of [t], every part is a non-empty
    string without a slash, and the stored name is a fixed point of the
    normalisation. *)
Theorem canonical_ignores_extra_slashes (s t : string) :
  canonical_parts (s +:+ "/" +:+ t) = canonical_parts s ++ canonical_parts t
  ∧ canonical ("/" +:+ s) = canonical s
  ∧ canonical (s +:+ "/") = canonical s
  ∧ canonical (s +:+ "//" +:+ t) = canonical (s +:+ "/" +:+ t)
  ∧ Forall segment (canonical_parts s)
  ∧ canonical_parts (canonical s) = canonical_parts s
  ∧ canonical (canonical s) = canonical s.
Proof.
  assert (Happ : ∀ a b, canonical_parts (a +:+ "/" +:+ b)
                        = canonical_parts a ++ canonical_parts b).
  { intros a b. apply (canonical_parts_app a b). }
  split; [apply Happ|]. split; [|split; [|split; [|split; [|split]]]].
  - unfold canonical. change ("/" +:+ s) with (String "/" s).
    by rewrite canonical_parts_cons_slash.
  - unfold canonical. f_equal.
    rewrite (canonical_parts_app s EmptyString). apply app_nil_r.
  - unfold canonical. f_equal.
    change (s +:+ "//" +:+ t) with (s +:+ String "/" (String "/" t)).
    rewrite (canonical_parts_app s (String "/" t)), canonical_parts_cons_slash.
    symmetry. apply Happ.
  - apply canonical_parts_segments.
  - apply canonical_parts_join, canonical_parts_segments.
  - apply canonical_idempotent.
Qed.

(** ** Group: the constructor *)

Section ConstructorOutcome.
Context {C : Type}.
Implicit Types (w : World C) (nm : string).

(** X24. With the interning table empty, [Group(name)] raises
    [IndexError] (from [parts[-1]]) exactly for the names made of
    slashes only, the empty name among them, and by then one object has
    been made; for every other name it returns, with enough fuel for
    the nested constructions, a new object and leaves the table
    empty. *)
Theorem Group_new_raises_only_on_slashes (fuel : nat) nm w :
  groups w = ∅ →
  (only_slashes nm →
     ∃ w', Group_new (S fuel) nm w = Error IndexError w'
           ∧ length (heap w') = S (length (heap w)))
  ∧ (¬ only_slashes nm → ctor_fuel (canonical_parts nm) ≤ fuel →
     ∃ g w', Group_new fuel nm w = Ok g w'
             ∧ g = length (heap w) ∧ g < length (heap w') ∧ groups w' = ∅).
Proof.
  intros Hempty. split.
  - intros Hslashes%canonical_parts_only_slashes.
    eexists. split; [by apply Group_new_no_parts|].
    simpl. rewrite length_app. simpl. lia.
  - intros Hparts Hfuel.
    destruct (Group_new_total fuel nm w) as (g & w' & Hnew); [|done|].
    { by rewrite canonical_parts_only_slashes. }
    exists g, w'. split; [done|].
    destruct (Group_new_grows _ _ _ _ _ Hnew) as [[Hg _] Hfresh].
    destruct Hfresh as [-> Hlt]; [by rewrite Hempty, lookup_empty|].
    split; [done|]. split; [done|]. by rewrite Hg.
Qed.

Lemma keeps_objects_refl w : keeps_objects w w.
Proof. exists []. by rewrite app_nil_r. Qed.

Lemma keeps_objects_trans w1 w2 w3 :
  keeps_objects w1 w2 → keeps_objects w2 w3 → keeps_objects w1 w3.
Proof. intros [m12 H12] [m23 H23]. exists (m12 ++ m23). by rewrite H23, H12, app_assoc. Qed.

Lemma keeps_objects_alter (f : GroupObj → GroupObj) (i : nat) w w' :
  keeps_objects w w' → length (heap w) ≤ i →
  keeps_objects w (set_heap (alter f i (heap w')) w').
Proof.
  intros [more Hmore] Hi. exists (alter f (i - length (heap w)) more).
  simpl. rewrite Hmore. by apply alter_app_r_alt.
Qed.

Lemma keeps_objects_lookup w w' (i : nat) o :
  keeps_objects w w' → heap w !! i = Some o → heap w' !! i = Some o.
Proof. intros [more ->] Hi. by apply lookup_app_l_Some. Qed.

Lemma keeps_objects_length w w' : keeps_objects w w' → length (heap w) ≤ length (heap w').
Proof. intros [more ->]. rewrite length_app. lia. Qed.

(** X25. As nothing is ever interned, the object [Group(name)]
    returns is a leaf: the objects made earlier are untouched, the new
    object has no children, and it has a parent exactly when the name
    has more than one part and is not a wildcard; the parent is then a
    wildcard object made for this call, with no parent and no children
    of its own.  The objects that did get a child are the unnamed
    results of the nested [Group(prefix)] calls. *)
Theorem Group_new_returns_a_leaf (fuel : nat) nm w (g : nat) w' :
  constructed w → Group_new fuel nm w = Ok g w' →
  keeps_objects w w'
  ∧ ∃ o, heap w' !! g = Some o ∧ children o = []
         ∧ (is_Some (parent o) ↔ 1 < length (canonical_parts nm) ∧ ¬ wild_name nm)
         ∧ ∀ p, parent o = Some p →
             length (heap w) < p ∧ isolated w' p
             ∧ ∃ op, heap w' !! p = Some op ∧ wild_name (name op).
Proof.
  revert nm w g w'. induction fuel as [|fuel IH]; intros nm w g w' Hcon Hnew; [done|].
  pose proof (Group_new_constructed _ _ _ _ _ Hcon Hnew) as (Hcon' & _ & Hg & _).
  simpl in Hnew. pose proof Hcon as (Hgroups & _ & _).
  rewrite Hgroups, lookup_empty in Hnew.
  set (self := length (heap w)) in *.
  set (parts := canonical_parts nm) in *.
  set (obj := mkGroup (join_slash parts) None []) in *.
  set (w1 := set_heap (heap w ++ [obj]) w) in *.
  assert (Hkeep1 : keeps_objects w w1) by (by exists [obj]).
  assert (Hself1 : heap w1 !! self = Some obj).
  { simpl. by rewrite lookup_app_r, Nat.sub_diag by done. }
  assert (Hcon1 : constructed w1).
  { destruct Hcon as (? & Hp1 & Hp2). split; [done|]. split.
    - intros i o p Hi Hpar. simpl in Hi.
      apply lookup_app_Some in Hi as [Hi|[_ Hi]].
      + destruct (Hp1 i o p Hi Hpar) as (op & Hop & Hwild).
        exists op. split; [|done]. simpl. by apply lookup_app_l_Some.
      + by apply list_lookup_singleton_Some in Hi as [_ <-].
    - intros i o Hi Hwild. simpl in Hi.
      apply lookup_app_Some in Hi as [Hi|[_ Hi]]; [by eapply Hp2|].
      by apply list_lookup_singleton_Some in Hi as [_ <-]. }
  match type of Hnew with
  | match ?loop with _ => _ end = _ => destruct loop as [u w2| |] eqn:Hloop; try done
  end.
  assert (constructed w2 ∧ keeps_objects w1 w2) as [Hcon2 Hkeep12].
  { eapply (for_each_exec_inv constructed keeps_objects);
      [apply keeps_objects_refl | apply keeps_objects_trans | | exact Hcon1 | exact Hloop].
    intros idx s1 u' s2 Hs1 Hlink. cbv beta in Hlink.
    destruct (Group_new fuel (join_slash (take idx parts)) s1) as [g1 s1'| |] eqn:Hg1;
      try done.
    injection Hlink as _ <-.
    destruct (Group_new_constructed _ _ _ _ _ Hs1 Hg1) as (Hc & _ & Hfresh & _).
    destruct (IH _ _ _ _ Hs1 Hg1) as (Hk & _).
    split; [by apply constructed_add_child|].
    apply keeps_objects_alter; [done|lia]. }
  pose proof (keeps_objects_lookup _ _ _ _ Hkeep12 Hself1) as Hself2.
  assert (Hkeep2 : keeps_objects w w2) by (by eapply keeps_objects_trans).
  destruct (last parts) as [lst|] eqn:Hlast; [|done].
  destruct ((1 <? length parts) && negb (bool_decide (lst = "..."%string))) eqn:Hcond.
  - destruct (Group_new fuel _ w2) as [p w3| |] eqn:Hp; try done.
    injection Hnew as <- <-.
    destruct (Group_new_constructed _ _ _ _ _ Hcon2 Hp)
      as (Hcon3 & _ & Hpfresh & op & Hop & Hopname).
    destruct (IH _ _ _ _ Hcon2 Hp) as (Hkeep23 & op' & Hop' & Hchildren & _ & _).
    rewrite Hop in Hop'. injection Hop' as <-.
    pose proof (keeps_objects_lookup _ _ _ _ Hkeep23 Hself2) as Hself3.
    assert (Hlt : self < p).
    { apply lookup_lt_Some in Hself2. lia. }
    apply andb_true_iff in Hcond as [Hlen Hnotwild].
    apply Nat.ltb_lt in Hlen.
    apply negb_true_iff, bool_decide_eq_false in Hnotwild.
    assert (Hwildp : wild_name (name op)).
    { destruct Hcon' as (_ & Hp1' & _).
      destruct (Hp1' self (mkGroup (name obj) (Some p) (children obj)) p)
        as (op2 & Hop2 & Hw2); [|done|].
      - simpl. by rewrite list_lookup_alter_eq, Hself3.
      - simpl in Hop2. rewrite list_lookup_alter_ne in Hop2 by lia. congruence. }
    assert (Hparp : parent op = None).
    { destruct Hcon3 as (_ & _ & Hp23). by eapply Hp23. }
    split.
    { apply keeps_objects_alter; [by eapply keeps_objects_trans|done]. }
    eexists. split; [simpl; by rewrite list_lookup_alter_eq, Hself3|].
    split; [done|]. split.
    { simpl. split; [intros _|by eauto]. split; [done|].
      unfold wild_name. fold parts. rewrite Hlast. congruence. }
    intros q [= <-]. split; [done|]. split.
    + exists op. split; [|done]. simpl. rewrite list_lookup_alter_ne by lia. done.
    + exists op. split; [|done]. simpl. rewrite list_lookup_alter_ne by lia. done.
  - injection Hnew as <- <-. split; [done|].
    exists obj. split; [done|]. split; [done|]. split; [|done].
    simpl. split; [by intros [? ?]|]. intros [Hlen Hnotwild].
    apply andb_false_iff in Hcond as [Hcond|Hcond].
    + apply Nat.ltb_ge in Hcond. lia.
    + apply negb_false_iff, bool_decide_eq_true in Hcond.
      destruct Hnotwild. unfold wild_name. fold parts. by rewrite Hlast, Hcond.
Qed.
End ConstructorOutcome.

Lemma Group_new_raises_only_on_slashes_witness :
  ∃ w', Group_new 1 "//" (@empty_world nat) = Error IndexError w'
        ∧ length (heap w') = 1.
Proof.
  apply (proj1 (Group_new_raises_only_on_slashes 0 "//" (@empty_world nat) eq_refl)).
  simpl. done.
Defined.

Lemma Group_new_returns_a_leaf_witness :
  ∃ o, heap parent_only_world !! 0 = Some o ∧ children o = [] ∧ parent o = Some 2.
Proof.
  destruct (Group_new_returns_a_leaf 4 "a/x" (Mailbox_new (@empty_world string)).2 0
              (set_chats ∅ parent_only_world)) as (_ & o & Ho & Hch & _ & _).
  - split; [done|]. split; intros i o; simpl; by destruct i.
  - vm_compute. reflexivity.
  - exists o. split; [exact Ho|]. split; [exact Hch|].
    vm_compute in Ho. injection Ho as <-. reflexivity.
Defined.

(** ** Mailbox.get: several waiters *)

Section GetFacts.
Context {C : Type}.

(** X26. [get] tests for an empty inbox once, before it waits.  When
    two threads wait on one mailbox, a single delivery wakes both
    ([notify_all]): the first to go on takes the message and the second
    pops from the empty deque and raises [IndexError]. *)
Theorem Mailbox_get_second_waiter_raises (me1 me2 : nat) (msg : Message C)
    (nt : Notification.t nat) :
  ∃ mb1 mb2 mb3,
    get me1 (mkBox [] nt) = GetBlocked mb1
    ∧ get me2 mb1 = GetBlocked mb2
    ∧ Notification.notify_all (_notification mb2)
      = (None, Notification._waiters nt ++ [me1; me2], Notification.new)
    ∧ get_tail (receive msg mb2) = Got msg mb3
    ∧ get_tail mb3 = GetRaised IndexError mb3.
Proof.
  eexists _, _, _. split; [reflexivity|]. split; [reflexivity|]. split.
  - unfold get. simpl. unfold Notification.wait. simpl.
    rewrite notify_all_ok. by rewrite <- app_assoc.
  - split; reflexivity.
Qed.
End GetFacts.

(** ** Pool: shutdown *)

Section ShutdownFacts.
Context {A V : Type}.
Implicit Types (pool : Threads.Pool A V).

Lemma shutting_down_run_env (evs : list (Threads.event A V)) pool :
  Threads._shutting_down (run_env evs pool) = Threads._shutting_down pool.
Proof.
  revert pool. induction evs as [|ev evs IH]; intros pool; [done|].
  unfold run_env. simpl. fold (run_env evs (Threads.env_step ev pool)).
  by rewrite IH, shutting_down_env_step.
Qed.

Lemma closed_env_step (ev : Threads.event A V) pool :
  Threads._shutting_down pool = true → Threads.active pool = false →
  Threads._tasks (Threads.env_step ev pool) = Threads._tasks pool
  ∧ Threads.active (Threads.env_step ev pool) = false.
Proof.
  intros Hsd Hact. destruct ev as [w|w|f x]; simpl.
  - by rewrite Hact.
  - by destruct (Threads._workers pool !! w) as [[t|]|].
  - unfold Threads.submit. by rewrite Hsd.
Qed.

(** X27. [shutdown] closes the pool to new work at once and waits
    for the waiting tasks only.  Once it was called every [submit]
    raises [RuntimeError], whatever happened in between.  It returns
    exactly when no task is waiting; from then on the pool stays
    inactive with no waiting task, and a task a worker was still
    running at that moment is run to its end and its promise gets the
    outcome, which [result()] then hands over. *)
Theorem Pool_shutdown_waits_for_waiting_tasks_only pool :
  (∀ (evs : list (Threads.event A V)) f x,
     Threads.submit f x (run_env evs (Pool.after (Pool.shutdown pool))) = inl RuntimeError)
  ∧ (Threads._tasks pool ≠ [] →
     ∃ pool', Pool.shutdown pool = Pool.ShutdownWaiting pool'
              ∧ Threads._tasks pool' = Threads._tasks pool
              ∧ Threads.active pool' = Threads.active pool)
  ∧ (Threads._tasks pool = [] →
     ∃ pool', Pool.shutdown pool = Pool.ShutDown pool'
       ∧ (∀ evs : list (Threads.event A V),
            Threads._tasks (run_env evs pool') = []
            ∧ Threads.active (run_env evs pool') = false)
       ∧ ∀ (w : nat) task,
           Threads._workers pool !! w = Some (Some task) →
           Threads.promise task < length (Threads.store pool) →
           Threads.store (Threads.env_step (Threads.Finish w) pool') !! Threads.promise task
           = Some (Threads.finish (Threads.function task (Threads.args task)))
           ∧ Threads.Promise_result (Threads.promise task)
                                    (Threads.env_step (Threads.Finish w) pool')
             = Some (Threads.delivered (Threads.function task (Threads.args task)))).
Proof.
  split; [|split].
  - intros evs f x. unfold Threads.submit.
    rewrite shutting_down_run_env.
    unfold Pool.shutdown. by destruct (Threads._tasks pool).
  - intros Hne. unfold Pool.shutdown.
    destruct (Threads._tasks pool) as [|t rest]; [done|]. by eexists.
  - intros Hnil. unfold Pool.shutdown. rewrite Hnil. eexists. split; [done|]. split.
    + intros evs.
      set (pool' := Threads.mkPool [] _ _ true false).
      assert (Hinv : Threads._shutting_down pool' = true ∧ Threads.active pool' = false
                     ∧ Threads._tasks pool' = []) by done.
      clearbody pool'. revert pool' Hinv.
      induction evs as [|ev evs IH]; intros pool' (Hsd & Hact & Htasks); [done|].
      unfold run_env. simpl. fold (run_env evs (Threads.env_step ev pool')).
      destruct (closed_env_step ev pool' Hsd Hact) as [Ht Ha].
      apply IH. split; [by rewrite shutting_down_env_step|]. split; [done|congruence].
    + intros w task Hw Hlt. simpl. rewrite Hw. unfold Threads.Promise_result. simpl.
      rewrite list_lookup_insert_eq by done. split; [done|].
      unfold Threads.delivered.
      by destruct (Threads.function task (Threads.args task)).
Qed.
End ShutdownFacts.

Lemma Pool_shutdown_waits_for_waiting_tasks_only_witness :
  ∃ pool', Pool.shutdown pool_with_running_task = Pool.ShutDown pool'
           ∧ Threads.Promise_result 0 (Threads.env_step (Threads.Finish 0) pool')
             = Some (Returns (Some 9)).
Proof.
  destruct (proj2 (proj2 (Pool_shutdown_waits_for_waiting_tasks_only pool_with_running_task))
              eq_refl) as (pool' & Hshut & _ & Hrun).
  exists pool'. split; [exact Hshut|].
  apply (Hrun 0 (Threads.mkTask square 3 0)); [reflexivity | vm_compute; lia].
Defined.
